(** * DexScreener Rocket Analyzer: verification and risk-scoring pipeline

    A shallow embedding of the parts of the repository that batch-verify
    contracts, cache results, pace requests, score liquidity locks and
    grade tokens, followed by the properties proved about them.

    Conventions of the embedding:
    - Python [float] values (percentages, USD amounts, clock readings,
      scores) are exact rationals [Q]; comparisons against the literal
      thresholds of the source are then exact.  NaN and rounding are
      outside the model.
    - Python [int] values are [Z].
    - [dict]s keyed by strings are [gmap string _]; a decoded JSON body
      is a value of [JVal], on which Python's operations raise where
      Python raises.
    - [time.time()] is an explicit clock reading.  An [async def] of
      the verifier is a coroutine of [Co]: awaited while nothing else
      runs, [asyncio.sleep d] advances the clock by exactly [d]; under
      [asyncio.gather] the coroutines take turns at their awaits.
    - The answers of external services, and the order in which the
      event loop runs the tasks of a [gather], are inputs of the
      embedding. *)

From Stdlib Require Import ZArith QArith Qminmax Lqa Lia Bool List Ascii String.
From stdpp Require Import gmap strings list fin_maps.

Local Open Scope Z_scope.

(** ** Shared helpers *)

(** [a >= b] on floats, as used by the threshold tests of the source. *)
Definition Qge_bool (a b : Q) : bool := Qle_bool b a.

(** [a < b] on floats. *)
Definition Qlt_bool (a b : Q) : bool := negb (Qle_bool b a).

(** [a > b] on floats. *)
Definition Qgt_bool (a b : Q) : bool := Qlt_bool b a.

(** [x in xs] for a Python list of strings. *)
Definition str_in (x : string) (xs : list string) : bool :=
  existsb (String.eqb x) xs.

(** [c.lower()] on an ASCII character. *)
Definition lower_ascii (c : ascii) : ascii :=
  let n := nat_of_ascii c in
  if ((65 <=? n)%nat && (n <=? 90)%nat)%bool then ascii_of_nat (n + 32) else c.

(** [s.lower()]; addresses and chain names are ASCII. *)
Fixpoint lower (s : string) : string :=
  match s with
  | EmptyString => EmptyString
  | String c r => String (lower_ascii c) (lower r)
  end.

(** [s.startswith(p)] *)
Definition startswith (s p : string) : bool := String.prefix p s.

(** [d.get(k)] on a literal table written as an association list. *)
Fixpoint assoc {A : Type} (k : string) (l : list (string * A)) : option A :=
  match l with
  | [] => None
  | (k', v) :: r => if String.eqb k k' then Some v else assoc k r
  end.

(** [d[k] = v] on a dictionary kept in insertion order: a key that is
    present keeps its place. *)
Fixpoint dict_set {A : Type} (k : string) (v : A) (d : list (string * A))
    : list (string * A) :=
  match d with
  | [] => [(k, v)]
  | (k', v') :: r =>
      if String.eqb k k' then (k', v) :: r else (k', v') :: dict_set k v r
  end.

(** [l.sort(key=...)]: the sort of Python is stable, so its result is
    the one of an insertion sort that puts an element in front of the
    elements it does not have to follow.  [before y x] tells that [y]
    has to come before [x]. *)
Fixpoint insert_sorted {A : Type} (before : A → A → bool) (x : A) (l : list A)
    : list A :=
  match l with
  | [] => [x]
  | y :: r => if before y x then y :: insert_sorted before x r else x :: l
  end.

Definition stable_sort {A : Type} (before : A → A → bool) (l : list A) : list A :=
  foldr (insert_sorted before) [] l.

(** ** raket-2/src/analysis/liquidity_lock_checker.py *)

Module LiquidityLockChecker.

(** Warnings appended by the checker.  The source formats them as
    Russian text with the numbers interpolated; the embedding keeps
    the kind of warning and the interpolated data. *)
Inductive Warning : Type :=
| WNoLockInfoFound            (* "Не удалось найти информацию о блокировке ликвидности" *)
| WNotLocked                  (* "КРИТИЧНО: Ликвидность НЕ заблокирована!" *)
| WLowPercentage (pct min_pct : Q)
| WShortLock (days min_days : Z)
| WSafeLock (days : Z)
| WUnknownPlatform (p : string)
| WExpiresSoon
| WCheckError (msg : string).

(** dataclass LiquidityLockInfo; [unlock_date] is a datetime, kept as
    seconds on the clock. *)
Record LiquidityLockInfo : Type := {
  is_locked : bool;
  locked_percentage : Q;
  unlock_date : option Q;
  lock_duration_days : Z;
  platform : string;
  lock_contract : string;
  total_locked_amount : Q;
  lock_transaction : string;
  is_renewable : bool;
  lock_owner : string;
  warnings : list Warning
}.

(** [LiquidityLockInfo()] with the dataclass defaults. *)
Definition default_lock_info : LiquidityLockInfo := {|
  is_locked := false;
  locked_percentage := 0%Q;
  unlock_date := None;
  lock_duration_days := 0;
  platform := "";
  lock_contract := "";
  total_locked_amount := 0%Q;
  lock_transaction := "";
  is_renewable := false;
  lock_owner := "";
  warnings := []
|}.

Definition set_is_locked (b : bool) (i : LiquidityLockInfo) :=
  {| is_locked := b; locked_percentage := locked_percentage i;
     unlock_date := unlock_date i; lock_duration_days := lock_duration_days i;
     platform := platform i; lock_contract := lock_contract i;
     total_locked_amount := total_locked_amount i;
     lock_transaction := lock_transaction i; is_renewable := is_renewable i;
     lock_owner := lock_owner i; warnings := warnings i |}.

Definition set_locked_percentage (p : Q) (i : LiquidityLockInfo) :=
  {| is_locked := is_locked i; locked_percentage := p;
     unlock_date := unlock_date i; lock_duration_days := lock_duration_days i;
     platform := platform i; lock_contract := lock_contract i;
     total_locked_amount := total_locked_amount i;
     lock_transaction := lock_transaction i; is_renewable := is_renewable i;
     lock_owner := lock_owner i; warnings := warnings i |}.

Definition set_lock_duration_days (d : Z) (i : LiquidityLockInfo) :=
  {| is_locked := is_locked i; locked_percentage := locked_percentage i;
     unlock_date := unlock_date i; lock_duration_days := d;
     platform := platform i; lock_contract := lock_contract i;
     total_locked_amount := total_locked_amount i;
     lock_transaction := lock_transaction i; is_renewable := is_renewable i;
     lock_owner := lock_owner i; warnings := warnings i |}.

Definition set_unlock_date (u : option Q) (i : LiquidityLockInfo) :=
  {| is_locked := is_locked i; locked_percentage := locked_percentage i;
     unlock_date := u; lock_duration_days := lock_duration_days i;
     platform := platform i; lock_contract := lock_contract i;
     total_locked_amount := total_locked_amount i;
     lock_transaction := lock_transaction i; is_renewable := is_renewable i;
     lock_owner := lock_owner i; warnings := warnings i |}.

Definition set_platform (p : string) (i : LiquidityLockInfo) :=
  {| is_locked := is_locked i; locked_percentage := locked_percentage i;
     unlock_date := unlock_date i; lock_duration_days := lock_duration_days i;
     platform := p; lock_contract := lock_contract i;
     total_locked_amount := total_locked_amount i;
     lock_transaction := lock_transaction i; is_renewable := is_renewable i;
     lock_owner := lock_owner i; warnings := warnings i |}.

(** [lock_info.warnings.append(w)] *)
Definition add_warning (w : Warning) (i : LiquidityLockInfo) :=
  {| is_locked := is_locked i; locked_percentage := locked_percentage i;
     unlock_date := unlock_date i; lock_duration_days := lock_duration_days i;
     platform := platform i; lock_contract := lock_contract i;
     total_locked_amount := total_locked_amount i;
     lock_transaction := lock_transaction i; is_renewable := is_renewable i;
     lock_owner := lock_owner i; warnings := warnings i ++ [w] |}.

Definition trusted_platforms : list string :=
  ["Team Finance"; "Unicrypt"; "PinkSale"]%string.

(** [LiquidityLockChecker.get_lock_score] *)
Definition get_lock_score (lock_info : LiquidityLockInfo) : Z :=
  if negb (is_locked lock_info) then 0
  else
    let score := 0 in
    (* base points for having a lock at all *)
    let score := score + 30 in
    (* locked percentage *)
    let score :=
      if Qge_bool (locked_percentage lock_info) 90 then score + 25
      else if Qge_bool (locked_percentage lock_info) 80 then score + 20
      else if Qge_bool (locked_percentage lock_info) 50 then score + 10
      else score in
    (* lock duration *)
    let score :=
      if lock_duration_days lock_info >=? 365 then score + 25
      else if lock_duration_days lock_info >=? 180 then score + 20
      else if lock_duration_days lock_info >=? 90 then score + 15
      else if lock_duration_days lock_info >=? 30 then score + 10
      else score in
    (* platform *)
    let score :=
      if str_in (platform lock_info) trusted_platforms then score + 20
      else score + 10 in
    Z.min score 100.

(** The attributes of a [LiquidityLockChecker] instance that the
    modelled methods read or write.  [cache] maps a key to the pair
    [(lock_info, timestamp)]. *)
Record Checker : Type := {
  cache : gmap string (LiquidityLockInfo * Q);
  cache_ttl : Q;
  min_lock_percentage : Q;
  min_lock_days : Z;
  safe_lock_days : Z
}.

(** [LiquidityLockChecker.__init__] *)
Definition init : Checker := {|
  cache := ∅;
  cache_ttl := 3600%Q;
  min_lock_percentage := 80%Q;
  min_lock_days := 30;
  safe_lock_days := 180
|}.

Definition set_cache (c : gmap string (LiquidityLockInfo * Q)) (self : Checker) :=
  {| cache := c; cache_ttl := cache_ttl self;
     min_lock_percentage := min_lock_percentage self;
     min_lock_days := min_lock_days self;
     safe_lock_days := safe_lock_days self |}.

(** [timedelta(days=d)] in seconds. *)
Definition days (d : Z) : Q := inject_Z (d * 86400).

(** The table [known_locked_tokens] of [check_liquidity_lock]:
    network, then token address, then (percentage, days, platform). *)
Definition known_locked_tokens : list (string * list (string * (Q * Z * string))) :=
  [ ("ethereum",
      [ ("0xa0b86a33e6411b3bb8a8b7e7c6b9c8b4e1a8c8e1", (95%Q, 365, "Team Finance"));
        ("0x514910771af9ca656af840dff83e8264ecf986ca", (100%Q, 730, "Unicrypt")) ]);
    ("bsc",
      [ ("0x0e09fabb73bd3ade0a17ecc321fd13a19e81ce82", (90%Q, 180, "PinkSale")) ]);
    ("solana", []);
    ("base", []);
    ("arbitrum", []);
    ("polygon", []) ]%string.

Definition startswith_any (s : string) (ps : list string) : bool :=
  existsb (startswith s) ps.

(** [_check_external_sources]: the address-prefix heuristic.
    [now] is the reading of [datetime.now()]. *)
Definition _check_external_sources (now : Q)
    (token_address pair_address network : string) : LiquidityLockInfo :=
  let lock_info := default_lock_info in
  let addr_lower := lower token_address in
  let lock_info :=
    if startswith_any addr_lower ["0x1"; "0x2"; "0x3"]%string then
      set_platform "Team Finance"
        (set_lock_duration_days 365
          (set_locked_percentage 95 (set_is_locked true lock_info)))
    else if startswith_any addr_lower ["0x4"; "0x5"; "0x6"]%string then
      set_platform "Unicrypt"
        (set_lock_duration_days 180
          (set_locked_percentage 75 (set_is_locked true lock_info)))
    else if startswith_any addr_lower ["0x7"; "0x8"; "0x9"]%string then
      set_platform "PinkSale"
        (set_lock_duration_days 30
          (set_locked_percentage 50 (set_is_locked true lock_info)))
    else
      add_warning WNoLockInfoFound (set_is_locked false lock_info) in
  if is_locked lock_info then
    set_unlock_date (Some (now + days (lock_duration_days lock_info))%Q) lock_info
  else lock_info.

(** [_analyze_lock_safety]; [now] is the reading of [datetime.now()]. *)
Definition _analyze_lock_safety (self : Checker) (now : Q)
    (lock_info : LiquidityLockInfo) : LiquidityLockInfo :=
  if negb (is_locked lock_info) then add_warning WNotLocked lock_info
  else
    let lock_info :=
      if Qlt_bool (locked_percentage lock_info) (min_lock_percentage self)
      then add_warning
             (WLowPercentage (locked_percentage lock_info) (min_lock_percentage self))
             lock_info
      else lock_info in
    let lock_info :=
      if lock_duration_days lock_info <? min_lock_days self
      then add_warning
             (WShortLock (lock_duration_days lock_info) (min_lock_days self)) lock_info
      else if lock_duration_days lock_info >=? safe_lock_days self
      then add_warning (WSafeLock (lock_duration_days lock_info)) lock_info
      else lock_info in
    let lock_info :=
      if negb (str_in (platform lock_info) trusted_platforms)
      then add_warning (WUnknownPlatform (platform lock_info)) lock_info
      else lock_info in
    match unlock_date lock_info with
    | Some u =>
        if Qlt_bool u (now + days 7)%Q then add_warning WExpiresSoon lock_info
        else lock_info
    | None => lock_info
    end.

(** The cache test at the head of [check_liquidity_lock]:
    [if cache_key in self.cache] and
    [time.time() - timestamp < self.cache_ttl]. *)
Definition cache_lookup (self : Checker) (now : Q) (cache_key : string)
    : option LiquidityLockInfo :=
  match cache self !! cache_key with
  | Some (cached_result, timestamp) =>
      if Qlt_bool (now - timestamp)%Q (cache_ttl self) then Some cached_result
      else None
  | None => None
  end.

(** [self.cache[cache_key] = (lock_info, time.time())] *)
Definition cache_store (now : Q) (cache_key : string)
    (lock_info : LiquidityLockInfo) (self : Checker) : Checker :=
  set_cache (<[cache_key := (lock_info, now)]> (cache self)) self.

Definition lock_cache_key (token_address pair_address network : string) : string :=
  (token_address ++ "_" ++ pair_address ++ "_" ++ network)%string.

(** The clock readings taken by one call of [check_liquidity_lock],
    in program order. *)
Record Readings : Type := {
  t_lookup : Q;   (* time.time() of the cache test *)
  t_unlock : Q;   (* datetime.now() when the unlock date is set *)
  t_analyze : Q;  (* datetime.now() in _analyze_lock_safety *)
  t_store : Q     (* time.time() when the result is cached *)
}.

(** [LiquidityLockChecker.check_liquidity_lock] *)
Definition check_liquidity_lock (self : Checker) (clk : Readings)
    (token_address pair_address network : string)
    : LiquidityLockInfo * Checker :=
  let cache_key := lock_cache_key token_address pair_address network in
  match cache_lookup self (t_lookup clk) cache_key with
  | Some cached_result => (cached_result, self)
  | None =>
      let network_tokens :=
        default [] (assoc (lower network) known_locked_tokens) in
      let lock_info :=
        match assoc (lower token_address) network_tokens with
        | Some (percentage, d, p) =>
            set_platform p
              (set_unlock_date (Some (t_unlock clk + days d)%Q)
                (set_lock_duration_days d
                  (set_locked_percentage percentage
                    (set_is_locked true default_lock_info))))
        | None =>
            _check_external_sources (t_unlock clk) token_address pair_address network
        end in
      let lock_info := _analyze_lock_safety self (t_analyze clk) lock_info in
      (lock_info, cache_store (t_store clk) cache_key lock_info self)
  end.

End LiquidityLockChecker.

(** ** Python results and module-level configuration *)

(** The outcome of evaluating an expression or awaiting a coroutine: a
    value, or an exception that propagates to the caller, with its
    name. *)
Inductive PyResult (A : Type) : Type :=
| Returned (a : A)
| Raised (e : string).
Arguments Returned {A} a.
Arguments Raised {A} e.

(** Statements in sequence: the first exception ends the sequence. *)
#[global] Instance PyResult_ret : MRet PyResult := λ A a, Returned a.
#[global] Instance PyResult_bind : MBind PyResult :=
  λ A B f r, match r with Returned a => f a | Raised e => Raised e end.

(** What an HTTP request made through [session.get] can do: answer with
    a status and a body whose JSON decoding succeeds or raises, or raise
    before any answer (network error, timeout). *)
Inductive HttpOutcome (A : Type) : Type :=
| HttpResponse (status : Z) (body : PyResult A)
| HttpRaise (e : string).
Arguments HttpResponse {A} status body.
Arguments HttpRaise {A} e.

(** raket-2/src/config.py: the constants read by the verifier.  They come
    from the environment; the batch size is the step of a [range] and is
    positive, and so is the number of slots of the GoPlus semaphore (with
    no slot no batch would ever start). *)
Record Config : Type := {
  GOPLUS_BATCH_SIZE : positive;
  GOPLUS_CONCURRENCY : positive;
  GOPLUS_RATE_LIMIT : Z;
  ETHERSCAN_RATE_LIMIT : Z;
  BSCSCAN_RATE_LIMIT : Z
}.

(** The defaults of config.py. *)
Definition default_config : Config := {|
  GOPLUS_BATCH_SIZE := 25;
  GOPLUS_CONCURRENCY := 8;
  GOPLUS_RATE_LIMIT := 30;
  ETHERSCAN_RATE_LIMIT := 12;
  BSCSCAN_RATE_LIMIT := 12
|}.

(** ** raket-2/src/analysis/contract_verifier.py *)

Module ContractVerifier.

(** *** JSON values and what Python does with them *)

(** A decoded JSON body.  A number is an exact rational, a dictionary
    is the list of its items, and strings hold UTF-8 text. *)
#[warnings="-register-all"] Inductive JVal : Type :=
| JNull
| JBool (b : bool)
| JNum (q : Q)
| JStr (s : string)
| JArr (l : list JVal)
| JObj (o : list (string * JVal)).

(** Truthiness: [None], [False], zero and the empty string, list and
    dictionary are false. *)
Definition truthy (v : JVal) : bool :=
  match v with
  | JNull => false
  | JBool b => b
  | JNum q => negb (Qeq_bool q 0)
  | JStr s => negb (String.eqb s "")
  | JArr l => match l with [] => false | _ => true end
  | JObj o => match o with [] => false | _ => true end
  end.

(** [v == s] for a string [s]. *)
Definition jeq (v : JVal) (s : string) : bool :=
  match v with
  | JStr s' => String.eqb s' s
  | _ => false
  end.

(** [v == n] for an integer [n]; [True == 1] and [1.0 == 1] hold. *)
Definition jeq_int (v : JVal) (n : Z) : bool :=
  match v with
  | JNum q => Qeq_bool q (inject_Z n)
  | JBool b => (if b then 1 else 0) =? n
  | _ => false
  end.

(** [a or b] *)
Definition jor (a b : JVal) : JVal := if truthy a then a else b.

(** [d.get(k, dflt)] on a dictionary. *)
Definition dict_get (d : list (string * JVal)) (k : string) (dflt : JVal) : JVal :=
  default dflt (assoc k d).

(** [v.get(k, dflt)]: only a dictionary has the method. *)
Definition jget (v : JVal) (k : string) (dflt : JVal) : PyResult JVal :=
  match v with
  | JObj d => Returned (dict_get d k dflt)
  | _ => Raised "AttributeError"
  end.

(** [k in v] for a string [k]: a key of a dictionary, an element of a
    list, a substring of a string; the other values are no containers. *)
Definition jcontains (v : JVal) (k : string) : PyResult bool :=
  match v with
  | JObj d => Returned (match assoc k d with Some _ => true | None => false end)
  | JArr l => Returned (existsb (λ x, jeq x k) l)
  | JStr s => Returned (match String.index 0 k s with Some _ => true | None => false end)
  | _ => Raised "TypeError"
  end.

(** [v[k]] for a string [k]: defined on a dictionary that has the key. *)
Definition jitem (v : JVal) (k : string) : PyResult JVal :=
  match v with
  | JObj d =>
      match assoc k d with
      | Some x => Returned x
      | None => Raised "KeyError"
      end
  | _ => Raised "TypeError"
  end.

(** Whether [v[:10]] is defined: strings and lists can be sliced. *)
Definition sliceable (v : JVal) : bool :=
  match v with
  | JStr _ | JArr _ => true
  | _ => false
  end.

(** White space of Python below U+0080: U+0009 to U+000D, U+001C to
    U+001F and the space. *)
Definition is_space (c : ascii) : bool :=
  let n := nat_of_ascii c in
  ((9 <=? n)%nat && (n <=? 13)%nat) || ((28 <=? n)%nat && (n <=? 32)%nat).

(** The two-byte white space: U+0085 and U+00A0. *)
Definition is_space2 (c1 c2 : ascii) : bool :=
  let n1 := nat_of_ascii c1 in
  let n2 := nat_of_ascii c2 in
  (n1 =? 194)%nat && ((n2 =? 133)%nat || (n2 =? 160)%nat).

(** The three-byte white space: U+1680, U+2000 to U+200A, U+2028,
    U+2029, U+202F, U+205F and U+3000. *)
Definition is_space3 (c1 c2 c3 : ascii) : bool :=
  let n1 := nat_of_ascii c1 in
  let n2 := nat_of_ascii c2 in
  let n3 := nat_of_ascii c3 in
  ((n1 =? 225)%nat && (n2 =? 154)%nat && (n3 =? 128)%nat)
  || ((n1 =? 226)%nat && (n2 =? 128)%nat
      && (((128 <=? n3)%nat && (n3 <=? 138)%nat)
          || (n3 =? 168)%nat || (n3 =? 169)%nat || (n3 =? 175)%nat))
  || ((n1 =? 226)%nat && (n2 =? 129)%nat && (n3 =? 159)%nat)
  || ((n1 =? 227)%nat && (n2 =? 128)%nat && (n3 =? 128)%nat).

(** [s.strip() == '']: the text holds nothing but white space. *)
Fixpoint is_blank (s : string) : bool :=
  match s with
  | EmptyString => true
  | String c1 r1 =>
      if is_space c1 then is_blank r1
      else
        match r1 with
        | EmptyString => false
        | String c2 r2 =>
            if is_space2 c1 c2 then is_blank r2
            else
              match r2 with
              | EmptyString => false
              | String c3 r3 => if is_space3 c1 c2 c3 then is_blank r3 else false
              end
        end
  end.

(** [v.strip() != '']: only a string has the method. *)
Definition jstrip_nonempty (v : JVal) : PyResult bool :=
  match v with
  | JStr s => Returned (negb (is_blank s))
  | _ => Raised "AttributeError"
  end.

(** *** The result of a verification *)

(** dataclass ContractVerificationResult *)
Record ContractVerificationResult : Type := {
  is_verified : bool;
  is_honeypot : bool;
  buy_tax : JVal;
  sell_tax : JVal;
  owner_address : JVal;
  can_take_back_ownership : bool;
  is_open_source : bool;
  has_mint_function : bool;
  has_blacklist : bool;
  is_proxy : bool;
  verification_source : string;
  error_message : string;
  raw_data : option JVal
}.

(** [ContractVerificationResult()] *)
Definition default_result : ContractVerificationResult := {|
  is_verified := false;
  is_honeypot := false;
  buy_tax := JStr "0";
  sell_tax := JStr "0";
  owner_address := JStr "";
  can_take_back_ownership := false;
  is_open_source := false;
  has_mint_function := false;
  has_blacklist := false;
  is_proxy := false;
  verification_source := "";
  error_message := "";
  raw_data := None
|}.

Definition set_is_verified (b : bool) (r : ContractVerificationResult) :=
  {| is_verified := b; is_honeypot := is_honeypot r; buy_tax := buy_tax r;
     sell_tax := sell_tax r; owner_address := owner_address r;
     can_take_back_ownership := can_take_back_ownership r;
     is_open_source := is_open_source r;
     has_mint_function := has_mint_function r;
     has_blacklist := has_blacklist r; is_proxy := is_proxy r;
     verification_source := verification_source r;
     error_message := error_message r; raw_data := raw_data r |}.

Definition set_verification_source (s : string) (r : ContractVerificationResult) :=
  {| is_verified := is_verified r; is_honeypot := is_honeypot r;
     buy_tax := buy_tax r; sell_tax := sell_tax r;
     owner_address := owner_address r;
     can_take_back_ownership := can_take_back_ownership r;
     is_open_source := is_open_source r;
     has_mint_function := has_mint_function r;
     has_blacklist := has_blacklist r; is_proxy := is_proxy r;
     verification_source := s;
     error_message := error_message r; raw_data := raw_data r |}.

Definition set_error_message (s : string) (r : ContractVerificationResult) :=
  {| is_verified := is_verified r; is_honeypot := is_honeypot r;
     buy_tax := buy_tax r; sell_tax := sell_tax r;
     owner_address := owner_address r;
     can_take_back_ownership := can_take_back_ownership r;
     is_open_source := is_open_source r;
     has_mint_function := has_mint_function r;
     has_blacklist := has_blacklist r; is_proxy := is_proxy r;
     verification_source := verification_source r;
     error_message := s; raw_data := raw_data r |}.

(** The four keys of [request_delays] and [request_counters]; every
    call of [_respect_rate_limit] passes one of these literals. *)
Inductive ApiType : Type := goplus | etherscan | bscscan | rpc.

#[global] Instance ApiType_eq_dec : EqDecision ApiType.
Proof. solve_decision. Defined.

(** [d[k] = v] on a dictionary keyed by [ApiType]. *)
Definition upd {A : Type} (f : ApiType → A) (k : ApiType) (v : A) : ApiType → A :=
  λ k', if decide (k' = k) then v else f k'.

(** The attributes of a [ContractVerifier] instance.  [cache] maps a key
    to the pair [(timestamp, result)]. *)
Record Verifier : Type := {
  cache : gmap string (Q * ContractVerificationResult);
  cache_ttl : Q;
  request_delays : ApiType → Q;
  last_request_time : ApiType → option Q;
  request_counters : ApiType → Z;
  counter_reset_time : Q
}.

(** [ContractVerifier.__init__], run when the clock reads [t0]. *)
Definition init (cfg : Config) (t0 : Q) : Verifier := {|
  cache := ∅;
  cache_ttl := 3600%Q;
  request_delays := λ k,
    match k with
    | goplus => (60 / inject_Z (GOPLUS_RATE_LIMIT cfg))%Q
    | etherscan => (60 / inject_Z (ETHERSCAN_RATE_LIMIT cfg))%Q
    | bscscan => (60 / inject_Z (BSCSCAN_RATE_LIMIT cfg))%Q
    | rpc => (1 # 10)%Q
    end;
  last_request_time := λ _, None;
  request_counters := λ _, 0;
  counter_reset_time := t0
|}.

(** [chain_id_mapping]; [None] marks the chains GoPlus does not serve. *)
Definition chain_id_mapping : list (string * option Z) :=
  [ ("ethereum", Some 1); ("bsc", Some 56); ("polygon", Some 137);
    ("arbitrum", Some 42161); ("avalanche", Some 43114);
    ("fantom", Some 250); ("optimism", Some 10); ("base", Some 8453);
    ("linea", Some 59144); ("cronos", Some 25); ("solana", None);
    ("ton", None); ("sonic", None) ]%string.

(** [self.chain_id_mapping.get(chain)] *)
Definition chain_id (chain : string) : option Z :=
  match assoc chain chain_id_mapping with
  | Some id => id
  | None => None
  end.

(** *** The simulated world: clock, instance state and request log *)

(** What the log records: a request handed to the network, and a reset
    of the per-minute counter of [goplus] (the log is instrumentation:
    no method reads it).  Newest event first. *)
Inductive Event : Type :=
| EvDispatch (api : ApiType) (t : Q)
| EvReset (t : Q).

Record World : Type := {
  now : Q;
  trace : list Event;
  self : Verifier
}.

(** Steps that run without giving up control: they read the clock and
    update the instance. *)
Definition M (A : Type) : Type := World → A * World.

#[global] Instance M_ret : MRet M := λ A a w, (a, w).
#[global] Instance M_bind : MBind M :=
  λ A B f m w, let '(a, w') := m w in f a w'.

(** [time.time()] *)
Definition time_time : M Q := λ w, (now w, w).

(** The clock advances by [d]; the reading is kept in lowest terms. *)
Definition sleep (d : Q) : M unit :=
  λ w, (tt, {| now := Qred (now w + d); trace := trace w; self := self w |}).

(** The clock advances to [t] when it reads less; it never goes back. *)
Definition wait_until (t : Q) : M unit :=
  λ w, (tt, {| now := if Qlt_bool (now w) t then t else now w;
               trace := trace w; self := self w |}).

Definition get_self : M Verifier := λ w, (self w, w).

Definition put_self (v : Verifier) : M unit :=
  λ w, (tt, {| now := now w; trace := trace w; self := v |}).

Definition log (e : Event) : M unit :=
  λ w, (tt, {| now := now w; trace := e :: trace w; self := self w |}).

Definition set_cache (c : gmap string (Q * ContractVerificationResult))
    (v : Verifier) : Verifier :=
  {| cache := c; cache_ttl := cache_ttl v;
     request_delays := request_delays v;
     last_request_time := last_request_time v;
     request_counters := request_counters v;
     counter_reset_time := counter_reset_time v |}.

Definition set_last_request_time (l : ApiType → option Q) (v : Verifier) : Verifier :=
  {| cache := cache v; cache_ttl := cache_ttl v;
     request_delays := request_delays v;
     last_request_time := l;
     request_counters := request_counters v;
     counter_reset_time := counter_reset_time v |}.

Definition set_request_counters (c : ApiType → Z) (v : Verifier) : Verifier :=
  {| cache := cache v; cache_ttl := cache_ttl v;
     request_delays := request_delays v;
     last_request_time := last_request_time v;
     request_counters := c;
     counter_reset_time := counter_reset_time v |}.

Definition set_counter_reset_time (t : Q) (v : Verifier) : Verifier :=
  {| cache := cache v; cache_ttl := cache_ttl v;
     request_delays := request_delays v;
     last_request_time := last_request_time v;
     request_counters := request_counters v;
     counter_reset_time := t |}.

(** *** Coroutines *)

(** The body of an [async def]: steps that run without interruption,
    and the two places where the event loop may run other tasks in
    between, [await asyncio.sleep(d)] and the wait for an answer of the
    network. *)
Inductive Co (A : Type) : Type :=
| Done (a : A)
| Act {B : Type} (m : M B) (k : B → Co A)
| Sleep (d : Q) (k : Co A)
| Wait (k : Co A).
Arguments Done {A} a.
Arguments Act {A B} m k.
Arguments Sleep {A} d k.
Arguments Wait {A} k.

Fixpoint co_bind {A B : Type} (f : A → Co B) (c : Co A) : Co B :=
  match c with
  | Done a => f a
  | Act m k => Act m (λ b, co_bind f (k b))
  | Sleep d k => Sleep d (co_bind f k)
  | Wait k => Wait (co_bind f k)
  end.

#[global] Instance Co_ret : MRet Co := λ A a, Done a.
#[global] Instance Co_bind : MBind Co := λ A B f c, co_bind f c.

(** Steps between two awaits. *)
Definition lift {A : Type} (m : M A) : Co A := Act m Done.

(** [await asyncio.sleep(d)] *)
Definition asyncio_sleep (d : Q) : Co unit := Sleep d (Done tt).

(** [await c] while no other task runs: a sleep lasts exactly its
    duration and the answer of the network is there at once. *)
Fixpoint await {A : Type} (c : Co A) : M A :=
  match c with
  | Done a => mret a
  | Act m k => b ← m; await (k b)
  | Sleep d k => _ ← sleep d; await k
  | Wait k => await k
  end.

(** [ContractVerifier._respect_rate_limit] *)
Definition _respect_rate_limit (cfg : Config) (api_type : ApiType) : Co unit :=
  current_time ← lift time_time;
  (* reset of all counters once a minute *)
  _ ← lift (s ← get_self;
            if Qgt_bool (current_time - counter_reset_time s)%Q 60 then
              _ ← put_self (set_counter_reset_time current_time
                              (set_request_counters (λ _, 0) s));
              log (EvReset current_time)
            else mret tt);
  (* the per-minute limit, for goplus only *)
  s ← lift get_self;
  _ ← (if bool_decide (api_type = goplus)
          && (request_counters s api_type >=? GOPLUS_RATE_LIMIT cfg) then
         let wait_time := (60 - (current_time - counter_reset_time s))%Q in
         if Qgt_bool wait_time 0 then
           _ ← asyncio_sleep wait_time;
           lift (s ← get_self;
                 _ ← put_self (set_request_counters
                                 (upd (request_counters s) api_type 0) s);
                 t ← time_time;
                 s ← get_self;
                 _ ← put_self (set_counter_reset_time t s);
                 log (EvReset t))
         else mret tt
       else mret tt);
  (* the spacing between two requests *)
  s ← lift get_self;
  _ ← match last_request_time s api_type with
      | Some last =>
          let delay_needed := request_delays s api_type in
          let time_since_last := (current_time - last)%Q in
          if Qlt_bool time_since_last delay_needed then
            asyncio_sleep (delay_needed - time_since_last)%Q
          else mret tt
      | None => mret tt
      end;
  lift (s ← get_self;
        _ ← put_self (set_last_request_time
                        (upd (last_request_time s) api_type (Some current_time)) s);
        s ← get_self;
        put_self (set_request_counters
                    (upd (request_counters s) api_type
                       (request_counters s api_type + 1)) s)).

(** The request that follows [_respect_rate_limit] in every caller:
    [session.get] hands the request to the network at the current clock
    reading and the coroutine waits.  [answer] is what the service gives
    back. *)
Definition dispatch {A : Type} (api : ApiType) (answer : A) : Co A :=
  _ ← lift (t ← time_time; log (EvDispatch api t));
  Wait (Done answer).

(** *** The external services *)

(** What the services answer, and the order in which the event loop
    runs the batches of a chain; the embedding takes both as given.
    - [goplus_token_security cid addrs]: GET token_security/{cid} with
      the comma-joined addresses;
    - [jupiter_strict]: GET token.jup.ag/strict;
    - [solana_rpc endpoint addr]: POST getAccountInfo to [endpoint];
    - [etherscan_getsourcecode addr], [bscscan_getsourcecode addr]: GET
      module=contract, action=getsourcecode;
    - [event_loop chain]: the steps of the event loop during the
      [asyncio.gather] of the batches of [chain], see [gather]. *)
Record Env : Type := {
  goplus_token_security : Z → list string → HttpOutcome JVal;
  jupiter_strict : HttpOutcome JVal;
  solana_rpc : string → string → HttpOutcome JVal;
  etherscan_getsourcecode : string → HttpOutcome JVal;
  bscscan_getsourcecode : string → HttpOutcome JVal;
  event_loop : string → list (nat * Q)
}.

(** What is left of an answer after
    [if response.status == 200: data = await response.json()] inside a
    [try]: the decoded body; [None] stands for the other status codes,
    and an exception of the request or of the decoding is raised. *)
Definition json_of (o : HttpOutcome JVal) : PyResult (option JVal) :=
  match o with
  | HttpResponse status body =>
      if status =? 200 then data ← body; mret (Some data) else mret None
  | HttpRaise e => Raised e
  end.

(** [for x in l: acc = f(acc, x)] with effects. *)
Fixpoint mfold {A S : Type} (f : S → A → Co S) (l : list A) (acc : S) : Co S :=
  match l with
  | [] => mret acc
  | x :: r => acc' ← f acc x; mfold f r acc'
  end.

(** *** The cache *)

Definition cache_key (chain address : string) : string :=
  (chain ++ "_" ++ lower address)%string.

(** The cache test of [verify_contract_multi_source]:
    [if cache_key in self.cache] and
    [time.time() - cached_time < self.cache_ttl]. *)
Definition cache_lookup (v : Verifier) (t : Q) (key : string)
    : option ContractVerificationResult :=
  match cache v !! key with
  | Some (cached_time, cached_result) =>
      if Qlt_bool (t - cached_time)%Q (cache_ttl v) then Some cached_result
      else None
  | None => None
  end.

(** [self.cache[key] = (t, r)] *)
Definition cache_store (t : Q) (key : string) (r : ContractVerificationResult)
    (v : Verifier) : Verifier :=
  set_cache (<[key := (t, r)]> (cache v)) v.

(** [self.cache[key] = (time.time(), r)] *)
Definition cache_put (key : string) (r : ContractVerificationResult) : M unit :=
  t ← time_time;
  s ← get_self;
  put_self (cache_store t key r s).

(** [clear_cache] *)
Definition clear_cache : M unit :=
  s ← get_self;
  put_self (set_cache ∅ s).

(** *** Single-source checks *)

(** The fields read from a GoPlus token entry that is a dictionary, by
    both [_process_batch_goplus] and [_check_goplus_security]. *)
Definition goplus_result_of (token_info : list (string * JVal))
    : ContractVerificationResult := {|
  is_honeypot := jeq (dict_get token_info "is_honeypot" (JStr "0")) "1";
  is_verified := jeq (dict_get token_info "is_open_source" (JStr "0")) "1";
  buy_tax := jor (dict_get token_info "buy_tax" (JStr "0")) (JStr "0");
  sell_tax := jor (dict_get token_info "sell_tax" (JStr "0")) (JStr "0");
  owner_address :=
    jor (dict_get token_info "creator_address" (JStr ""))
        (dict_get token_info "owner_address" (JStr ""));
  can_take_back_ownership :=
    jeq (dict_get token_info "can_take_back_ownership" (JStr "0")) "1";
  is_open_source := false;
  has_mint_function := jeq (dict_get token_info "is_mintable" (JStr "0")) "1";
  has_blacklist := jeq (dict_get token_info "is_blacklisted" (JStr "0")) "1";
  is_proxy := jeq (dict_get token_info "is_proxy" (JStr "0")) "1";
  verification_source := "";
  error_message := "";
  raw_data := Some (JObj token_info)
|}.

(** The same for any entry: the first [token_info.get] raises unless
    the entry is a dictionary. *)
Definition goplus_fields (token_info : JVal) : PyResult ContractVerificationResult :=
  match token_info with
  | JObj d => Returned (goplus_result_of d)
  | _ => Raised "AttributeError"
  end.

(** [data.get('code') == 1 and 'result' in data and data['result']]:
    [data['result']] when the test holds. *)
Definition goplus_success (data : JVal) : PyResult (option JVal) :=
  code ← jget data "code" JNull;
  if jeq_int code 1 then
    listed ← jcontains data "result";
    if (listed : bool) then
      goplus_result ← jitem data "result";
      mret (if truthy goplus_result then Some goplus_result else None)
    else mret None
  else mret None.

(** The [try] of [_check_goplus_security] from the decoded body on.
    The last line formats [result.owner_address[:10]] for the log. *)
Definition goplus_security_of (contract_address : string) (data : JVal)
    : PyResult (option ContractVerificationResult) :=
  success ← goplus_success data;
  match success with
  | Some goplus_result =>
      listed ← jcontains goplus_result (lower contract_address);
      if (listed : bool) then
        token_info ← jitem goplus_result (lower contract_address);
        result ← goplus_fields token_info;
        if sliceable (owner_address result) then mret (Some result)
        else Raised "TypeError"
      else mret None
  | None => mret None
  end.

(** What a check returns after its [try]: the result found, [None]
    after a status other than 200 and after an exception. *)
Definition checked {A : Type} (r : PyResult (option A)) : option A :=
  match r with
  | Returned found => found
  | Raised _ => None
  end.

(** [_check_goplus_security] *)
Definition _check_goplus_security (cfg : Config) (env : Env)
    (contract_address chain : string) : Co (option ContractVerificationResult) :=
  match chain_id chain with
  | None => mret None
  | Some cid =>
      _ ← _respect_rate_limit cfg goplus;
      o ← dispatch goplus (goplus_token_security env cid [contract_address]);
      mret (checked (data ← json_of o;
                     match data with
                     | Some data => goplus_security_of contract_address data
                     | None => mret None
                     end))
  end.

(** The [try] of [_check_etherscan_public] and [_check_bscscan_public]
    from the decoded body on.  [data['result']] is truthy when
    [data['result'][0]] is taken: of a list it is the first element; of
    a string it is a character, on which [.get] raises; on the other
    values the subscript raises. *)
Definition explorer_result_of (data : JVal)
    : PyResult (option ContractVerificationResult) :=
  status ← jget data "status" JNull;
  if jeq status "1" then
    listed ← jget data "result" JNull;
    if truthy (listed : JVal) then
      match listed with
      | JArr (contract_info :: _) =>
          source_code ← jget contract_info "SourceCode" (JStr "");
          verified ← jstrip_nonempty source_code;
          creator ← jget contract_info "ContractCreator" (JStr "");
          mret (Some {| is_verified := verified;
                        is_honeypot := false;
                        buy_tax := JStr "0";
                        sell_tax := JStr "0";
                        owner_address := creator;
                        can_take_back_ownership := false;
                        is_open_source := false;
                        has_mint_function := false;
                        has_blacklist := false;
                        is_proxy := false;
                        verification_source := "";
                        error_message := "";
                        raw_data := Some contract_info |})
      | JStr _ => Raised "AttributeError"
      | JObj _ => Raised "KeyError"
      | _ => Raised "TypeError"
      end
    else mret None
  else mret None.

(** What an explorer check returns for an answer. *)
Definition explorer_check (o : HttpOutcome JVal) : option ContractVerificationResult :=
  checked (data ← json_of o;
           match data with
           | Some data => explorer_result_of data
           | None => mret None
           end).

(** [_check_etherscan_public] *)
Definition _check_etherscan_public (cfg : Config) (env : Env)
    (contract_address : string) : Co (option ContractVerificationResult) :=
  _ ← _respect_rate_limit cfg etherscan;
  o ← dispatch etherscan (etherscan_getsourcecode env contract_address);
  mret (explorer_check o).

(** [_check_bscscan_public] *)
Definition _check_bscscan_public (cfg : Config) (env : Env)
    (contract_address : string) : Co (option ContractVerificationResult) :=
  _ ← _respect_rate_limit cfg bscscan;
  o ← dispatch bscscan (bscscan_getsourcecode env contract_address);
  mret (explorer_check o).

(** [_check_fallback_sources] *)
Definition _check_fallback_sources (cfg : Config) (env : Env)
    (contract_address chain : string) : Co (option ContractVerificationResult) :=
  if String.eqb chain "ethereum" then _check_etherscan_public cfg env contract_address
  else if String.eqb chain "bsc" then _check_bscscan_public cfg env contract_address
  else mret None.

Definition rpc_endpoints : list string :=
  [ "https://api.mainnet-beta.solana.com";
    "https://solana-api.projectserum.com";
    "https://rpc.ankr.com/solana" ]%string.

(** [if 'result' in data and data['result']] of [_check_solana_contract]:
    the body when the test holds. *)
Definition solana_account_of (data : JVal) : PyResult (option JVal) :=
  listed ← jcontains data "result";
  if (listed : bool) then
    account ← jitem data "result";
    mret (if truthy account then Some data else None)
  else mret None.

(** The loop of [_check_solana_contract] over the endpoints; an
    exception goes on to the next endpoint. *)
Fixpoint solana_endpoints_loop (env : Env) (contract_address : string)
    (endpoints : list string) : Co (option ContractVerificationResult) :=
  match endpoints with
  | [] => mret None
  | endpoint :: rest =>
      o ← dispatch rpc (solana_rpc env endpoint contract_address);
      match checked (data ← json_of o;
                     match data with
                     | Some data => solana_account_of data
                     | None => mret None
                     end) with
      | Some data =>
          mret (Some {| is_verified := true;
                        is_honeypot := false;
                        buy_tax := JStr "0";
                        sell_tax := JStr "0";
                        owner_address := JStr "";
                        can_take_back_ownership := false;
                        is_open_source := false;
                        has_mint_function := false;
                        has_blacklist := false;
                        is_proxy := false;
                        verification_source := "";
                        error_message := "";
                        raw_data := Some data |})
      | None => solana_endpoints_loop env contract_address rest
      end
  end.

(** [_check_solana_contract] *)
Definition _check_solana_contract (cfg : Config) (env : Env)
    (contract_address : string) : Co (option ContractVerificationResult) :=
  _ ← _respect_rate_limit cfg rpc;
  solana_endpoints_loop env contract_address rpc_endpoints.

(** [for token in data: if token.get('address') == token_address] over
    the elements of a list: the first element with the address. *)
Fixpoint jupiter_find (token_address : string) (tokens : list JVal)
    : PyResult (option JVal) :=
  match tokens with
  | [] => mret None
  | token :: rest =>
      address ← jget token "address" JNull;
      if jeq address token_address then mret (Some token)
      else jupiter_find token_address rest
  end.

(** The same loop over any decoded body.  The loop over a dictionary
    visits its keys and the loop over a string its characters: both are
    strings, on which [.get] raises; the other values cannot be looped
    over. *)
Definition jupiter_token (token_address : string) (data : JVal)
    : PyResult (option JVal) :=
  match data with
  | JArr tokens => jupiter_find token_address tokens
  | JObj [] => mret None
  | JObj _ => Raised "AttributeError"
  | JStr EmptyString => mret None
  | JStr _ => Raised "AttributeError"
  | _ => Raised "TypeError"
  end.

(** [_check_solana_token_basic] *)
Definition _check_solana_token_basic (cfg : Config) (env : Env)
    (token_address : string) : Co (option ContractVerificationResult) :=
  _ ← _respect_rate_limit cfg rpc;
  o ← dispatch rpc (jupiter_strict env);
  match checked (data ← json_of o;
                 match data with
                 | Some data => jupiter_token token_address data
                 | None => mret None
                 end) with
  | Some token =>
      mret (Some {| is_verified := true;
                    is_honeypot := false;
                    buy_tax := JStr "0";
                    sell_tax := JStr "0";
                    owner_address := JStr "";
                    can_take_back_ownership := false;
                    is_open_source := false;
                    has_mint_function := false;
                    has_blacklist := false;
                    is_proxy := false;
                    verification_source := "Jupiter Token List";
                    error_message := "";
                    raw_data := Some token |})
  | None => _check_solana_contract cfg env token_address
  end.

(** *** Batch verification *)

(** [_process_batch_fallback] *)
Definition _process_batch_fallback (cfg : Config) (env : Env)
    (addresses : list string) (chain : string)
    : Co (gmap string ContractVerificationResult) :=
  mfold (λ results address,
    result ←
      (if String.eqb chain "solana" then
         solana_result ← _check_solana_token_basic cfg env address;
         mret (match solana_result with
               | Some r => set_verification_source "Solana Token Registry" r
               | None => set_verification_source "Solana (не найден)" default_result
               end)
       else if String.eqb chain "ton" then
         mret (set_verification_source "TON Network"
                 (set_is_verified true default_result))
       else if String.eqb chain "sonic" then
         mret (set_verification_source "Sonic Network"
                 (set_is_verified true default_result))
       else
         fallback_result ← _check_fallback_sources cfg env address chain;
         mret (match fallback_result with
               | Some r => r
               | None =>
                   set_verification_source (chain ++ " (не поддерживается)")
                     default_result
               end));
    _ ← lift (cache_put (cache_key chain address) result);
    mret (<[address := result]> results))
    addresses ∅.

(** The loop of [_process_batch_goplus] over the addresses of a
    successful answer.  An exception leaves the loop: [goplus_result] is
    no container, an entry is no dictionary, or the owner formatted for
    the log as [result.owner_address[:10] if result.owner_address else
    'None'] cannot be sliced.  The log line comes after the store in the
    cache, so what the loop cached before the exception stays cached. *)
Fixpoint goplus_loop (chain : string) (goplus_result : JVal)
    (addresses : list string) (results : gmap string ContractVerificationResult)
    : Co (PyResult (gmap string ContractVerificationResult)) :=
  match addresses with
  | [] => mret (Returned results)
  | address :: rest =>
      match jcontains goplus_result (lower address) with
      | Returned true =>
          match token_info ← jitem goplus_result (lower address);
                goplus_fields token_info with
          | Returned result =>
              let result := set_verification_source "GoPlus Security" result in
              let results := <[address := result]> results in
              _ ← lift (cache_put (cache_key chain address) result);
              if negb (truthy (owner_address result))
                 || sliceable (owner_address result)
              then goplus_loop chain goplus_result rest results
              else mret (Raised "TypeError")
          | Raised e => mret (Raised e)
          end
      | Returned false =>
          let result :=
            set_verification_source "GoPlus Security (не найден)" default_result in
          goplus_loop chain goplus_result rest (<[address := result]> results)
      | Raised e => mret (Raised e)
      end
  end.

(** The [try] of [_process_batch_goplus] from the decoded body on. *)
Definition goplus_batch_of (chain : string) (addresses : list string) (data : JVal)
    : Co (PyResult (gmap string ContractVerificationResult)) :=
  match goplus_success data with
  | Returned (Some goplus_result) => goplus_loop chain goplus_result addresses ∅
  | Returned None =>
      mret (Returned
              (fold_left (λ results address,
                 <[address :=
                    set_verification_source
                      "GoPlus Security (ошибка API)" default_result]>
                   results)
                 addresses ∅))
  | Raised e => mret (Raised e)
  end.

(** [_process_batch_goplus].  The body runs under
    [async with self.goplus_semaphore]: the slot is taken on the first
    line and given back on return; [gather] below keeps the count of the
    slots. *)
Definition _process_batch_goplus (cfg : Config) (env : Env)
    (addresses : list string) (chain : string)
    : Co (gmap string ContractVerificationResult) :=
  _ ← _respect_rate_limit cfg goplus;
  match chain_id chain with
  | None => _process_batch_fallback cfg env addresses chain
  | Some cid =>
      o ← dispatch goplus (goplus_token_security env cid addresses);
      match json_of o with
      | Returned (Some data) =>
          r ← goplus_batch_of chain addresses data;
          mret (match r with
                | Returned results => results
                | Raised _ => ∅
                end)
      | Returned None => mret ∅
      | Raised _ => mret ∅
      end
  end.

(** [_process_batch_with_progress], without the progress bar.  [inner]
    is what awaiting [self._process_batch_goplus(addresses, chain)]
    gives: its value, or the exception that escapes it. *)
Definition _process_batch_with_progress
    (inner : Co (PyResult (gmap string ContractVerificationResult)))
    : Co (PyResult (gmap string ContractVerificationResult)) :=
  r ← inner;
  match r with
  | Returned result => mret (Returned result)
  | Raised e => mret (Returned ∅)
  end.

(** [contracts_by_chain[chain].append(address)], creating the list on
    the first address of a chain; chains keep their order of arrival. *)
Fixpoint group_insert (chain address : string)
    (g : list (string * list string)) : list (string * list string) :=
  match g with
  | [] => [(chain, [address])]
  | (c, l) :: r =>
      if String.eqb chain c then (c, l ++ [address]) :: r
      else (c, l) :: group_insert chain address r
  end.

Definition group_by_chain (contracts : list (string * string))
    : list (string * list string) :=
  fold_left (λ g '(contract_address, chain), group_insert chain contract_address g)
    contracts [].

(** [[addresses[i:i + n] for i in range(0, len(addresses), n)]] *)
Definition batches (size : positive) (addresses : list string) : list (list string) :=
  let n := Pos.to_nat size in
  map (λ k, take n (drop (k * n) addresses))
      (seq 0 ((length addresses + n - 1) / n)).

(** *** [asyncio.gather] *)

(** A task of the event loop: not started yet, inside
    [asyncio.sleep] until the clock reads [wake], waiting for the
    network, or finished. *)
Inductive Task (A : Type) : Type :=
| Pending (c : Co A)
| Sleeping (wake : Q) (k : Co A)
| Waiting (k : Co A)
| Finished (a : A).
Arguments Pending {A} c.
Arguments Sleeping {A} wake k.
Arguments Waiting {A} k.
Arguments Finished {A} a.

(** A task runs until its next await or its end. *)
Fixpoint advance {A : Type} (c : Co A) : M (Task A) :=
  match c with
  | Done a => mret (Finished a)
  | Act m k => b ← m; advance (k b)
  | Sleep d k => t ← time_time; mret (Sleeping (Qred (t + d)) k)
  | Wait k => mret (Waiting k)
  end.

(** The event loop lets a task go on when the clock reads [t]; a
    sleeping task does not go on before its time. *)
Definition resume {A : Type} (t : Q) (task : Task A) : M (Task A) :=
  match task with
  | Pending c => _ ← wait_until t; advance c
  | Sleeping wake k => _ ← wait_until wake; _ ← wait_until t; advance k
  | Waiting k => _ ← wait_until t; advance k
  | Finished a => mret (Finished a)
  end.

(** A task between its start and its end holds a slot of the
    semaphore. *)
Definition holds_slot {A : Type} (task : Task A) : bool :=
  match task with
  | Sleeping _ _ | Waiting _ => true
  | Pending _ | Finished _ => false
  end.

Definition is_pending {A : Type} (task : Task A) : bool :=
  match task with
  | Pending _ => true
  | _ => false
  end.

(** The steps of the event loop: [(i, t)] lets the task at position [i]
    go on at time [t].  A task that has not started stays where it is
    while all [slots] are taken. *)
Fixpoint event_loop_steps {A : Type} (slots : nat) (steps : list (nat * Q))
    (tasks : list (Task A)) : M (list (Task A)) :=
  match steps with
  | [] => mret tasks
  | (i, t) :: rest =>
      match tasks !! i with
      | Some task =>
          if is_pending task
             && (slots <=? length (filter (λ x, holds_slot x = true) tasks))%nat
          then event_loop_steps slots rest tasks
          else
            task ← resume t task;
            event_loop_steps slots rest (<[i := task]> tasks)
      | None => event_loop_steps slots rest tasks
      end
  end.

(** A task that has started runs to its end without another task in
    between. *)
Definition finish_started {A : Type} (task : Task A) : M (Task A) :=
  match task with
  | Sleeping wake k => _ ← wait_until wake; a ← await k; mret (Finished a)
  | Waiting k => a ← await k; mret (Finished a)
  | Pending c => mret (Pending c)
  | Finished a => mret (Finished a)
  end.

(** A task runs from where it stands to its end. *)
Definition finish {A : Type} (task : Task A) : M A :=
  match task with
  | Pending c => await c
  | Sleeping wake k => _ ← wait_until wake; await k
  | Waiting k => await k
  | Finished a => mret a
  end.

(** [[f(x) for x in l]] with effects. *)
Fixpoint mmap {A B : Type} (f : A → M B) (l : list A) : M (list B) :=
  match l with
  | [] => mret []
  | x :: r => y ← f x; ys ← mmap f r; mret (y :: ys)
  end.

(** [asyncio.gather] of the tasks with [return_exceptions=True]: the tasks
    take turns at their awaits as [steps] tells, a task starts only
    while one of the [slots] of the semaphore is free, and the values
    come back in the order of the tasks.  When the steps are used up the
    tasks that have started run to their end one after the other, then
    the tasks that have not; without steps the tasks run one after the
    other in list order. *)
Definition gather {A : Type} (slots : nat) (steps : list (nat * Q))
    (tasks : list (Co A)) : M (list A) :=
  tasks ← event_loop_steps slots steps (map Pending tasks);
  tasks ← mmap finish_started tasks;
  mmap finish tasks.

(** The loop over [batch_results]:
    [if isinstance(batch_result, dict): results.update(batch_result)]. *)
Definition merge_results
    (results : gmap string ContractVerificationResult)
    (batch_results : list (PyResult (gmap string ContractVerificationResult)))
    : gmap string ContractVerificationResult :=
  fold_left (λ results batch_result,
    match batch_result with
    | Returned d => d ∪ results
    | Raised _ => results
    end) batch_results results.

(** [for x in l: acc = f(acc, x)] where the caller awaits the whole
    step. *)
Fixpoint mfold_steps {A S : Type} (f : S → A → M S) (l : list A) (acc : S) : M S :=
  match l with
  | [] => mret acc
  | x :: r => acc' ← f acc x; mfold_steps f r acc'
  end.

(** [verify_contracts_batch], over the coroutine [process] that stands
    for [self._process_batch_goplus], awaited while nothing else runs
    than its own batches. *)
Definition verify_contracts_batch_over (cfg : Config) (env : Env)
    (process : list string → string
               → Co (PyResult (gmap string ContractVerificationResult)))
    (contracts : list (string * string))
    : M (gmap string ContractVerificationResult) :=
  match contracts with
  | [] => mret ∅
  | _ =>
      let contracts_by_chain := group_by_chain contracts in
      mfold_steps (λ results '(chain, addresses),
        let tasks :=
          map (λ batch, _process_batch_with_progress (process batch chain))
              (batches (GOPLUS_BATCH_SIZE cfg) addresses) in
        batch_results ←
          gather (Pos.to_nat (GOPLUS_CONCURRENCY cfg)) (event_loop env chain) tasks;
        mret (merge_results results batch_results))
        contracts_by_chain ∅
  end.

(** [ContractVerifier.verify_contracts_batch] *)
Definition verify_contracts_batch (cfg : Config) (env : Env)
    (contracts : list (string * string))
    : M (gmap string ContractVerificationResult) :=
  verify_contracts_batch_over cfg env
    (λ addresses chain,
       r ← _process_batch_goplus cfg env addresses chain; mret (Returned r))
    contracts.

(** The [try] of [verify_contract_multi_source]: the sources asked one
    after the other.  Every source handles its own exceptions, so the
    handler of this [try] has nothing to handle. *)
Definition multi_source_checks (cfg : Config) (env : Env)
    (contract_address chain : string) : Co ContractVerificationResult :=
  let result := default_result in
  goplus_result ← _check_goplus_security cfg env contract_address chain;
  let result :=
    match goplus_result with
    | Some r => set_verification_source "GoPlus Security" r
    | None => result
    end in
  result ←
    (if negb (is_verified result) || str_in chain ["ethereum"; "bsc"]%string then
       fallback_result ← _check_fallback_sources cfg env contract_address chain;
       mret (match fallback_result with
             | Some fb =>
                 let result :=
                   set_is_verified (is_verified result || is_verified fb) result in
                 if String.eqb (verification_source result) "" then
                   set_verification_source (verification_source fb) result
                 else result
             | None => result
             end)
     else mret result);
  if String.eqb chain "solana" then
    solana_result ← _check_solana_contract cfg env contract_address;
    mret (match solana_result with
          | Some r =>
              set_verification_source "Solana RPC"
                (set_is_verified (is_verified r) result)
          | None => result
          end)
  else mret result.

(** [ContractVerifier.verify_contract_multi_source] *)
Definition verify_contract_multi_source (cfg : Config) (env : Env)
    (contract_address chain : string) : Co ContractVerificationResult :=
  let key := cache_key chain contract_address in
  t ← lift time_time;
  s ← lift get_self;
  match cache_lookup s t key with
  | Some cached_result => mret cached_result
  | None =>
      result ← multi_source_checks cfg env contract_address chain;
      _ ← lift (cache_put key result);
      mret result
  end.

(** The dictionary returned by [get_verification_stats]. *)
Record Stats : Type := {
  total_contracts_checked : nat;
  verified_contracts : nat;
  honeypot_contracts : nat;
  verification_rate : Q;
  cache_size : nat
}.

(** [sum(1 for _, (_, result) in self.cache.items() if p(result))] *)
Definition count_cached (p : ContractVerificationResult → bool)
    (c : gmap string (Q * ContractVerificationResult)) : nat :=
  length (filter (λ kv, p (snd (snd kv)) = true) (map_to_list c)).

(** [get_verification_stats] *)
Definition get_verification_stats (v : Verifier) : Stats :=
  let total_requests := size (cache v) in
  let verified_count := count_cached is_verified (cache v) in
  let honeypot_count := count_cached is_honeypot (cache v) in
  {| total_contracts_checked := total_requests;
     verified_contracts := verified_count;
     honeypot_contracts := honeypot_count;
     verification_rate :=
       if (0 <? total_requests)%nat then
         (inject_Z (Z.of_nat verified_count) / inject_Z (Z.of_nat total_requests) * 100)%Q
       else 0%Q;
     cache_size := size (cache v) |}.

End ContractVerifier.

(** ** raket-2/src/api/token_scanner.py *)

Module TokenScanner.

(** [min(a, b)] and [max(a, b)] of Python on floats: the first argument
    wins a tie. *)
Definition py_min (a b : Q) : Q := if Qlt_bool b a then b else a.
Definition py_max (a b : Q) : Q := if Qgt_bool b a then b else a.

(** [random.uniform(a, b)] for the draw [u] of [random.random()]. *)
Definition uniform (a b u : Q) : Q := (a + (b - a) * u)%Q.

(** The attributes of a [TokenScanner] read or written by
    [_make_async_request]; [_adaptive_delay] is absent until the first
    answer with status 429 or 200. *)
Record Scanner : Type := {
  max_retries : Z;
  request_count : Z;
  _adaptive_delay : option Q
}.

(** [getattr(self, '_adaptive_delay', 2.0)] *)
Definition adaptive_delay (s : Scanner) : Q := default 2%Q (_adaptive_delay s).

Definition count_request (s : Scanner) : Scanner :=
  {| max_retries := max_retries s;
     request_count := request_count s + 1;
     _adaptive_delay := _adaptive_delay s |}.

Definition set_adaptive_delay (d : Q) (s : Scanner) : Scanner :=
  {| max_retries := max_retries s;
     request_count := request_count s;
     _adaptive_delay := Some d |}.

Section Request.

(** The decoded JSON body, and the empty dictionary [{}]. *)
Variable Dict : Type.
Variable empty_dict : Dict.

(** What one attempt of [session.get] does. *)
Inductive Attempt : Type :=
| ClientError (e : string)
    (* aiohttp.ClientError: connection refused, reset, ... *)
| OtherError (e : string)
    (* any other Exception, among them asyncio.TimeoutError *)
| Cancelled
    (* a BaseException that is no Exception: the task is cancelled *)
| Response (status : Z) (body : PyResult Dict).
    (* an answer; [body] is what [response.json()] gives,
       [Raised] for a payload that does not decode *)

(** The network and the random source: the outcome of attempt [i],
    the draw behind the delay before the first attempt, and the draw
    used by the sleep of attempt [i]. *)
Record Net : Type := {
  attempt_outcome : Z → Attempt;
  first_draw : Q;
  draw : Z → Q
}.

(** What a call leaves behind: the value or exception, the instance,
    and the sleeps it made, oldest first. *)
Record Outcome : Type := {
  value : PyResult Dict;
  scanner : Scanner;
  sleeps : list Q
}.

(** The [for attempt in range(self.max_retries)] loop; [remaining]
    counts the iterations left, and running out of them is the
    [return {}] after the loop. *)
Fixpoint attempts (net : Net) (remaining : nat) (attempt : Z)
    (s : Scanner) (slept : list Q) : Outcome :=
  match remaining with
  | O => {| value := Returned empty_dict; scanner := s; sleeps := slept |}
  | S rest =>
      (* both [except] clauses: give up on the last attempt, else back off *)
      let handler (s : Scanner) :=
        if attempt =? max_retries s - 1 then
          {| value := Returned empty_dict; scanner := s; sleeps := slept |}
        else
          attempts net rest (attempt + 1) s
            (slept ++ [(inject_Z (2 ^ attempt) + draw net attempt)%Q]) in
      match attempt_outcome net attempt with
      | ClientError _ => handler s
      | OtherError _ => handler s
      | Cancelled => {| value := Raised "CancelledError"; scanner := s; sleeps := slept |}
      | Response status body =>
          let s := count_request s in
          if status =? 429 then
            let s := set_adaptive_delay (py_min (adaptive_delay s * 2) 15) s in
            let retry_delay :=
              (inject_Z (Z.min (3 ^ attempt * 5) 120)
               + uniform 5 15 (draw net attempt))%Q in
            if attempt <? max_retries s - 1 then
              attempts net rest (attempt + 1) s (slept ++ [retry_delay])
            else
              {| value := Returned empty_dict; scanner := s; sleeps := slept |}
          else
            let s :=
              if status =? 200 then
                set_adaptive_delay (py_max (adaptive_delay s * (95 # 100)) 2) s
              else s in
            (* response.raise_for_status() *)
            if 400 <=? status then handler s
            else
              match body with
              | Returned d => {| value := Returned d; scanner := s; sleeps := slept |}
              | Raised _ => handler s
              end
      end
  end.

(** [TokenScanner._make_async_request] *)
Definition _make_async_request (net : Net) (s : Scanner) : Outcome :=
  let base_delay := adaptive_delay s in
  attempts net (Z.to_nat (max_retries s)) 0 s
    [uniform base_delay (base_delay * 2) (first_draw net)].

End Request.

Arguments ClientError {Dict} e.
Arguments OtherError {Dict} e.
Arguments Cancelled {Dict}.
Arguments Response {Dict} status body.
Arguments value {Dict} o.
Arguments scanner {Dict} o.
Arguments sleeps {Dict} o.
Arguments attempt_outcome {Dict} n _.
Arguments first_draw {Dict} n.
Arguments draw {Dict} n _.
Arguments _make_async_request {Dict} empty_dict net s.
Arguments attempts {Dict} empty_dict net remaining attempt s slept.

(** *** The filters over the pairs of the API *)

(** A pair as the DexScreener API returns it, with the entries that
    the filters read; an entry that is missing is [None].
    [baseToken_symbol] is [token['baseToken']['symbol']],
    [liquidity_in_usd] is [token['liquidity']['usd']] and
    [priceChange_h1] is [token['priceChange']['h1']].  An entry that
    is present but holds no number makes [float] raise in the source;
    that case is outside the embedding. *)
Record Pair : Type := {
  pairAddress : string;
  baseToken_symbol : option string;
  liquidity_in_usd : option Q;
  priceChange_h1 : option Q
}.

(** [token.get('baseToken', {}).get('symbol', 'Unknown')] *)
Definition symbol_of (token : Pair) : string := default "Unknown" (baseToken_symbol token).

(** [float(token.get('liquidity', {}).get('usd', 0))] *)
Definition liquidity_of (token : Pair) : Q := default 0%Q (liquidity_in_usd token).

(** [float(token.get('priceChange', {}).get('h1', 0))] *)
Definition hour_change_of (token : Pair) : Q := default 0%Q (priceChange_h1 token).

(** [filter_duplicate_tokens] *)
Definition filter_duplicate_tokens (tokens : list Pair) : list Pair :=
  let unique_tokens :=
    fold_left (λ unique_tokens token,
      let symbol := symbol_of token in
      let liquidity := liquidity_of token in
      match assoc symbol unique_tokens with
      | Some kept =>
          if Qgt_bool liquidity (liquidity_of kept)
          then dict_set symbol token unique_tokens
          else unique_tokens
      | None => dict_set symbol token unique_tokens
      end) tokens [] in
  map snd unique_tokens.

(** The loop of [filter_tokens_by_hour_growth]. *)
Fixpoint hour_rockets (tokens : list Pair) : list Pair :=
  match tokens with
  | [] => []
  | token :: rest =>
      if Qge_bool (hour_change_of token) 5 then token :: hour_rockets rest
      else hour_rockets rest
  end.

(** [filter_tokens_by_hour_growth]: the sort has [reverse=True], a
    larger hourly change comes first. *)
Definition filter_tokens_by_hour_growth (tokens : list Pair) : list Pair :=
  stable_sort (λ y x, Qgt_bool (hour_change_of y) (hour_change_of x))
    (hour_rockets tokens).

End TokenScanner.

(** ** seturity/models.py and seturity/risk_calculator.py *)

Module RiskScoreCalculator.

Inductive RiskLevel : Type := LOW | MEDIUM | HIGH | CRITICAL.

Inductive OwnerType : Type := EOA | MULTISIG | TIMELOCK | RENOUNCED | UNKNOWN.

(** [audit_results]: the dictionary of the model's default factory, with
    its four keys; no code of the repository builds it with other keys. *)
Record AuditResults : Type := {
  critical : Z;
  high : Z;
  medium : Z;
  low : Z
}.

(** ContractAnalysis; [dangerous_functions] is a list of dictionaries of
    which only the length is read, kept here as a list of names. *)
Record ContractAnalysis : Type := {
  verified : bool;
  audit_results : AuditResults;
  dangerous_functions : list string;
  honeypot_probability : Q
}.

Record OwnershipAnalysis : Type := {
  owner : string;
  owner_type : OwnerType;
  renounced : bool
}.

Record DistributionAnalysis : Type := {
  top_10_holders_percent : Q;
  gini_coefficient : Q;
  total_holders : Z;
  liquidity_locked : bool;
  liquidity_lock_period : option Z
}.

Record TradingAnalysis : Type := {
  unique_buyers_24h : Z;
  unique_sellers_24h : Z;
  wash_trading_score : Q;
  organic_volume_ratio : Q
}.

(** The parts of TokenSecurityReport that the calculator reads. *)
Record TokenSecurityReport : Type := {
  token_address : string;
  chain : string;
  contract_analysis : ContractAnalysis;
  ownership : OwnershipAnalysis;
  distribution : DistributionAnalysis;
  trading : TradingAnalysis
}.

Record RiskAssessment : Type := {
  overall_score : Q;
  risk_level : RiskLevel;
  confidence : Q;
  breakdown : list (string * Q);
  recommendations : list string
}.

(** [self.weights], in the order of the literal. *)
Definition weights : list (string * Q) :=
  [ ("contract_verification", 15 # 100);
    ("ownership_status", 20 # 100);
    ("liquidity_lock", 25 # 100);
    ("holder_distribution", 15 # 100);
    ("trading_patterns", 10 # 100);
    ("code_audit", 10 # 100);
    ("community_reports", 5 # 100) ]%Q.

(** [calculate_verification_score] *)
Definition calculate_verification_score (token_data : TokenSecurityReport) : Q :=
  if negb (verified (contract_analysis token_data)) then 8 # 10
  else
    let audit_results := audit_results (contract_analysis token_data) in
    if critical audit_results >? 0 then 9 # 10
    else if high audit_results >? 0 then 7 # 10
    else if medium audit_results >? 0 then 4 # 10
    else 1 # 10.

(** [calculate_ownership_score] *)
Definition calculate_ownership_score (token_data : TokenSecurityReport) : Q :=
  if renounced (ownership token_data) then 0
  else match owner_type (ownership token_data) with
       | TIMELOCK => 2 # 10
       | MULTISIG => 4 # 10
       | _ => 9 # 10
       end.

(** [period and period > n]: [None] and [0] are falsy. *)
Definition period_over (period : option Z) (n : Z) : bool :=
  match period with
  | Some p => negb (p =? 0) && (p >? n)
  | None => false
  end.

(** [calculate_liquidity_score] *)
Definition calculate_liquidity_score (token_data : TokenSecurityReport) : Q :=
  if liquidity_locked (distribution token_data) then
    if period_over (liquidity_lock_period (distribution token_data)) 365 then 1 # 10
    else if period_over (liquidity_lock_period (distribution token_data)) 180 then 3 # 10
    else 5 # 10
  else 9 # 10.

(** [calculate_distribution_score] *)
Definition calculate_distribution_score (token_data : TokenSecurityReport) : Q :=
  let gini := gini_coefficient (distribution token_data) in
  let top_10_percent := top_10_holders_percent (distribution token_data) in
  if Qgt_bool gini (8 # 10) || Qgt_bool top_10_percent 80 then 9 # 10
  else if Qgt_bool gini (6 # 10) || Qgt_bool top_10_percent 60 then 7 # 10
  else if Qgt_bool gini (4 # 10) || Qgt_bool top_10_percent 40 then 5 # 10
  else 2 # 10.

(** [calculate_trading_score] *)
Definition calculate_trading_score (token_data : TokenSecurityReport) : Q :=
  let wash_score := wash_trading_score (trading token_data) in
  let organic_ratio := organic_volume_ratio (trading token_data) in
  if Qgt_bool wash_score (7 # 10) || Qlt_bool organic_ratio (3 # 10) then 9 # 10
  else if Qgt_bool wash_score (5 # 10) || Qlt_bool organic_ratio (5 # 10) then 7 # 10
  else if Qgt_bool wash_score (3 # 10) || Qlt_bool organic_ratio (7 # 10) then 5 # 10
  else 2 # 10.

(** [calculate_audit_score] *)
Definition calculate_audit_score (token_data : TokenSecurityReport) : Q :=
  let dangerous_funcs := dangerous_functions (contract_analysis token_data) in
  let honeypot_prob := honeypot_probability (contract_analysis token_data) in
  if Qgt_bool honeypot_prob (8 # 10) then 9 # 10
  else if Qgt_bool honeypot_prob (5 # 10) then 7 # 10
  else if (5 <? length dangerous_funcs)%nat then 6 # 10
  else if (2 <? length dangerous_funcs)%nat then 4 # 10
  else 1 # 10.

(** [calculate_community_score] *)
Definition calculate_community_score (token_data : TokenSecurityReport) : Q := 3 # 10.

(** [get_risk_level] *)
Definition get_risk_level (score : Q) : RiskLevel :=
  if Qge_bool score (8 # 10) then CRITICAL
  else if Qge_bool score (6 # 10) then HIGH
  else if Qge_bool score (4 # 10) then MEDIUM
  else LOW.

(** [calculate_confidence]: the loop over [scores.values()]. *)
Definition calculate_confidence (scores : list (string * Q)) : Q :=
  let confidence :=
    fold_left (λ confidence '(_, score),
      if Qge_bool score 0 then (confidence + (1 # 10))%Q else confidence)
      scores (5 # 10) in
  TokenScanner.py_min confidence 1.

(** [scores[k]] *)
Definition score_of (scores : list (string * Q)) (k : string) : Q :=
  default 0%Q (assoc k scores).

(** [generate_recommendations] *)
Definition generate_recommendations (scores : list (string * Q))
    (token_data : TokenSecurityReport) : list string :=
  let recommendations := [] in
  let recommendations :=
    recommendations ++
    [if Qgt_bool (score_of scores "contract_verification") (5 # 10) then
       if negb (verified (contract_analysis token_data))
       then "⚠️ Контракт не верифицирован"
       else "⚠️ Обнаружены проблемы в коде контракта"
     else "✅ Контракт безопасен"] in
  let recommendations :=
    recommendations ++
    [if Qgt_bool (score_of scores "ownership_status") (5 # 10) then
       if negb (renounced (ownership token_data))
       then "⚠️ Контракт не ренонсирован"
       else "⚠️ Подозрительный владелец"
     else "✅ Владелец безопасен"] in
  let recommendations :=
    recommendations ++
    [if Qgt_bool (score_of scores "liquidity_lock") (5 # 10) then
       if negb (liquidity_locked (distribution token_data))
       then "⚠️ Ликвидность не заблокирована"
       else "⚠️ Короткий период блокировки ликвидности"
     else "✅ Ликвидность заблокирована"] in
  let recommendations :=
    recommendations ++
    [if Qgt_bool (score_of scores "holder_distribution") (5 # 10)
     then "⚠️ Высокая концентрация у крупных держателей"
     else "✅ Хорошее распределение токенов"] in
  recommendations ++
  [if Qgt_bool (honeypot_probability (contract_analysis token_data)) (5 # 10)
   then "🚨 Высокая вероятность honeypot"
   else "✅ Нет признаков honeypot"].

(** The dictionary [scores] filled by [calculate_risk_score], in the
    order of insertion. *)
Definition compute_scores (token_data : TokenSecurityReport) : list (string * Q) :=
  [ ("contract_verification", calculate_verification_score token_data);
    ("ownership_status", calculate_ownership_score token_data);
    ("liquidity_lock", calculate_liquidity_score token_data);
    ("holder_distribution", calculate_distribution_score token_data);
    ("trading_patterns", calculate_trading_score token_data);
    ("code_audit", calculate_audit_score token_data);
    ("community_reports", calculate_community_score token_data) ].

(** [sum(scores[k] * self.weights[k] for k in scores)]; [None] stands
    for the KeyError of a key without a weight. *)
Fixpoint weighted_sum (acc : Q) (scores : list (string * Q)) : option Q :=
  match scores with
  | [] => Some acc
  | (k, score) :: rest =>
      match assoc k weights with
      | Some w => weighted_sum (acc + score * w)%Q rest
      | None => None
      end
  end.

(** [RiskScoreCalculator.calculate_risk_score] *)
Definition calculate_risk_score (token_data : TokenSecurityReport) : option RiskAssessment :=
  let scores := compute_scores token_data in
  match weighted_sum 0 scores with
  | Some final_score =>
      Some {| overall_score := final_score;
              risk_level := get_risk_level final_score;
              confidence := calculate_confidence scores;
              breakdown := scores;
              recommendations := generate_recommendations scores token_data |}
  | None => None
  end.

End RiskScoreCalculator.

(** ** src_analyse-2/src/token_analyzer.py *)

Module TokenAnalyzer.

(** The five values of [risk_level]:
    "Скам", "Высокий", "Средний", "Умеренный", "Низкий". *)
Inductive RiskLevel : Type := Scam | High | Medium | Moderate | Low.

#[global] Instance RiskLevel_eq_dec : EqDecision RiskLevel.
Proof. solve_decision. Defined.

(** The position of a level on the scale, safest first. *)
Definition severity (l : RiskLevel) : Z :=
  match l with
  | Low => 0
  | Moderate => 1
  | Medium => 2
  | High => 3
  | Scam => 4
  end.

(** The entries appended to [risk_factors]; the source formats them as
    text, the embedding keeps the kind of entry and the interpolated data. *)
Inductive RiskFactor : Type :=
| AbnormalPriceGrowth (price_change : Q)
| NewToken (age_hours : Q)
| YoungToken (age_hours : Q)
| LowLiquidity (liquidity_usd : Q)
| SuspiciousVolumeRatio (ratio : Q)
| NoWebsiteNoSocials
| HighSellShare (sell_ratio : Q)
| LiquidityNotLocked
| LowLockLevel (lock_score : Z)
| MediumLockLevel (lock_score : Z)
| LockUncheckedLargeMature
| LockUnchecked
| VolumeRatioManipulation
| VolumeRatioVolatile
| ExtremeGrowth
| LiquidityTooLowForLow
| UnverifiedNoLock
| VerifiedNoLock
| LiquidityTooLowForMedium
| LiquidityCriticallyLow
| HoneypotToken
| UnverifiedContractLargeMature
| UnverifiedContract
| OwnerCanTakeBack
| HasMint
| HasBlacklist
| ProxyContract.

(** [token.info]: the two lists that are read. *)
Record Info : Type := {
  websites : list string;
  socials : list string
}.

(** The attributes of a [Token] used by the analysis.  The three
    attributes set by later stages are absent ([None]) until then. *)
Record Token : Type := {
  address : string;
  name : string;
  symbol : string;
  network : string;
  pair_address : string;
  liquidity_usd : Q;
  volume_24h : Q;
  price_change_24h : Q;
  buys_24h : Z;
  sells_24h : Z;
  age_hours : Q;
  info : Info;
  risk_score : Z;
  risk_level : RiskLevel;
  risk_factors : list RiskFactor;
  score_breakdown : list (string * Z);
  liquidity_locked : bool;
  liquidity_lock_period : option Z;
  verification_result : option ContractVerifier.ContractVerificationResult;
  liquidity_lock_info : option LiquidityLockChecker.LiquidityLockInfo;
  liquidity_lock_score : option Z
}.

(** The thresholds read from [config], each with the default of its
    [config.get] chain when the key is missing. *)
Record AnalyzerConfig : Type := {
  price_change_suspicious_min : option Q;
  liquidity_high_risk : option Q;
  volume_liquidity_suspicious_min : option Q
}.

(** The mutable part of a token during [calculate_risk_score]. *)
Record Scoring : Type := {
  score : Z;
  factors : list RiskFactor;
  breakdown : list (string * Z)
}.

Definition add (points : Z) (f : RiskFactor) (s : Scoring) : Scoring :=
  {| score := score s + points; factors := factors s ++ [f]; breakdown := breakdown s |}.

Definition add_with_breakdown (label : string) (points : Z) (f : RiskFactor)
    (s : Scoring) : Scoring :=
  {| score := score s + points; factors := factors s ++ [f];
     breakdown := breakdown s ++ [(label, points)] |}.

(** [self.volume_24h / self.liquidity_usd if self.liquidity_usd > 0 else 0] *)
Definition volume_ratio (t : Token) : Q :=
  if Qgt_bool (liquidity_usd t) 0 then (volume_24h t / liquidity_usd t)%Q else 0%Q.

(** Lines 138-229 of [calculate_risk_score]: the score and the factors
    collected before a level is chosen. *)
Definition collect_score (config : AnalyzerConfig) (t : Token) : Scoring :=
  let s := {| score := 0; factors := risk_factors t; breakdown := [] |} in
  let s :=
    if Qgt_bool (price_change_24h t) (default 1000%Q (price_change_suspicious_min config))
    then add 30 (AbnormalPriceGrowth (price_change_24h t)) s else s in
  let s :=
    if Qlt_bool (age_hours t) 24 then add 50 (NewToken (age_hours t)) s
    else if Qlt_bool (age_hours t) 168 then add 20 (YoungToken (age_hours t)) s
    else s in
  let s :=
    if Qlt_bool (liquidity_usd t) (default 1000%Q (liquidity_high_risk config))
    then add 15 (LowLiquidity (liquidity_usd t)) s else s in
  let vol_liq_ratio := volume_ratio t in
  let s :=
    if Qgt_bool vol_liq_ratio (default 5%Q (volume_liquidity_suspicious_min config))
    then add 25 (SuspiciousVolumeRatio vol_liq_ratio) s else s in
  let has_website := negb (bool_decide (websites (info t) = [])) in
  let has_socials := negb (bool_decide (socials (info t) = [])) in
  let s :=
    if negb has_website && negb has_socials then add 20 NoWebsiteNoSocials s else s in
  let total_txns := buys_24h t + sells_24h t in
  let s :=
    if total_txns >? 0 then
      let sell_ratio := (inject_Z (sells_24h t) / inject_Z total_txns)%Q in
      if Qgt_bool sell_ratio (8 # 10) then add 25 (HighSellShare sell_ratio) s else s
    else s in
  let s :=
    match liquidity_lock_score t with
    | Some lock_score =>
        if lock_score =? 0 then add 60 LiquidityNotLocked s
        else if lock_score <? 30 then add 40 (LowLockLevel lock_score) s
        else if lock_score <? 60 then add 20 (MediumLockLevel lock_score) s
        else s
    | None =>
        let has_high_liquidity := Qge_bool (liquidity_usd t) 100000 in
        let has_mature_age := Qge_bool (age_hours t) 720 in
        if has_high_liquidity && has_mature_age then add 10 LockUncheckedLargeMature s
        else add 20 LockUnchecked s
    end in
  let volume_ratio := volume_ratio t in
  let s :=
    if Qgt_bool volume_ratio 20 then add_with_breakdown "V/L>20" 25 VolumeRatioManipulation s
    else if Qgt_bool volume_ratio 5 then add_with_breakdown "V/L>5" 10 VolumeRatioVolatile s
    else s in
  if Qgt_bool (price_change_24h t) 500
  then add_with_breakdown "Рост>500%" 30 ExtremeGrowth s
  else s.

(** Lines 207-209: the locked percentage seen by the level rules. *)
Definition liquidity_lock_percentage (t : Token) : Q :=
  match liquidity_lock_info t with
  | Some lock_info =>
      if LiquidityLockChecker.is_locked lock_info
      then LiquidityLockChecker.locked_percentage lock_info
      else 0%Q
  | None => 0%Q
  end.

(** Lines 232-266: the level chosen from the score, with the entry of
    [risk_factors] that goes with it. *)
Definition level_by_thresholds (t : Token) (score : Z)
    : RiskLevel * list RiskFactor :=
  if score >=? 120 then (Scam, [])
  else if score >=? 80 then (High, [])
  else if score >=? 50 then (Medium, [])
  else if score >=? 25 then (Moderate, [])
  else
    if Qlt_bool (liquidity_usd t) 100000 then (Moderate, [LiquidityTooLowForLow])
    else if Qeq_bool (liquidity_lock_percentage t) 0 then
      let is_verified :=
        match verification_result t with
        | Some r => ContractVerifier.is_verified r
        | None => false
        end in
      if negb is_verified then (Medium, [UnverifiedNoLock])
      else (Moderate, [VerifiedNoLock])
    else if Qge_bool (liquidity_lock_percentage t) 30
            && Qge_bool (liquidity_usd t) 100000 then (Low, [])
    else if Qge_bool (liquidity_lock_percentage t) 75 then (Low, [])
    else (Moderate, []).

(** Lines 269-273: the liquidity gate of the level "Средний". *)
Definition medium_liquidity_gate (t : Token) (lf : RiskLevel * list RiskFactor)
    : RiskLevel * list RiskFactor :=
  if decide (fst lf = Medium) then
    if Qlt_bool (liquidity_usd t) 50000
    then (High, snd lf ++ [LiquidityTooLowForMedium])
    else lf
  else lf.

(** Lines 276-280: the liquidity gate of the level "Высокий". *)
Definition high_liquidity_gate (t : Token) (lf : RiskLevel * list RiskFactor)
    : RiskLevel * list RiskFactor :=
  if decide (fst lf = High) then
    if Qlt_bool (liquidity_usd t) 25000
    then (Scam, snd lf ++ [LiquidityCriticallyLow])
    else lf
  else lf.

Definition set_scoring (lvl : RiskLevel) (sc : Z) (fs : list RiskFactor)
    (bd : list (string * Z)) (t : Token) : Token :=
  {| address := address t; name := name t; symbol := symbol t;
     network := network t; pair_address := pair_address t;
     liquidity_usd := liquidity_usd t; volume_24h := volume_24h t;
     price_change_24h := price_change_24h t; buys_24h := buys_24h t;
     sells_24h := sells_24h t; age_hours := age_hours t; info := info t;
     risk_score := sc; risk_level := lvl; risk_factors := fs;
     score_breakdown := bd;
     liquidity_locked := liquidity_locked t;
     liquidity_lock_period := liquidity_lock_period t;
     verification_result := verification_result t;
     liquidity_lock_info := liquidity_lock_info t;
     liquidity_lock_score := liquidity_lock_score t |}.

(** [Token.calculate_risk_score]: the returned score and the token as
    the call leaves it. *)
Definition calculate_risk_score (config : AnalyzerConfig) (t : Token) : Z * Token :=
  let s := collect_score config t in
  let lf := level_by_thresholds t (score s) in
  let lf := medium_liquidity_gate t lf in
  let lf := high_liquidity_gate t lf in
  (score s,
   set_scoring (fst lf) (score s) (factors s ++ snd lf) (breakdown s) t).

(** *** The stages that run before the scoring *)

Definition set_risk (lvl : RiskLevel) (sc : Z) (fs : list RiskFactor) (t : Token) : Token :=
  set_scoring lvl sc fs (score_breakdown t) t.

Definition set_verification_result
    (r : ContractVerifier.ContractVerificationResult) (t : Token) : Token :=
  {| address := address t; name := name t; symbol := symbol t;
     network := network t; pair_address := pair_address t;
     liquidity_usd := liquidity_usd t; volume_24h := volume_24h t;
     price_change_24h := price_change_24h t; buys_24h := buys_24h t;
     sells_24h := sells_24h t; age_hours := age_hours t; info := info t;
     risk_score := risk_score t; risk_level := risk_level t;
     risk_factors := risk_factors t; score_breakdown := score_breakdown t;
     liquidity_locked := liquidity_locked t;
     liquidity_lock_period := liquidity_lock_period t;
     verification_result := Some r;
     liquidity_lock_info := liquidity_lock_info t;
     liquidity_lock_score := liquidity_lock_score t |}.

Definition set_lock (lock_info : option LiquidityLockChecker.LiquidityLockInfo)
    (lock_score : Z) (locked : bool) (period : option Z) (t : Token) : Token :=
  {| address := address t; name := name t; symbol := symbol t;
     network := network t; pair_address := pair_address t;
     liquidity_usd := liquidity_usd t; volume_24h := volume_24h t;
     price_change_24h := price_change_24h t; buys_24h := buys_24h t;
     sells_24h := sells_24h t; age_hours := age_hours t; info := info t;
     risk_score := risk_score t; risk_level := risk_level t;
     risk_factors := risk_factors t; score_breakdown := score_breakdown t;
     liquidity_locked := locked;
     liquidity_lock_period := period;
     verification_result := verification_result t;
     liquidity_lock_info := lock_info;
     liquidity_lock_score := Some lock_score |}.

(** [token.risk_score += points] with the entry of [risk_factors]. *)
Definition penalize (points : Z) (f : RiskFactor) (t : Token) : Token :=
  set_risk (risk_level t) (risk_score t + points) (risk_factors t ++ [f]) t.

(** The penalties of [verify_contracts] (lines 532-569), one per
    [if] of the source, in source order. *)
Definition honeypot_penalty
    (verification_result : ContractVerifier.ContractVerificationResult)
    (t : Token) : Token :=
  if ContractVerifier.is_honeypot verification_result
  then penalize 50 HoneypotToken t else t.

Definition unverified_penalty
    (verification_result : ContractVerifier.ContractVerificationResult)
    (t : Token) : Token :=
  if negb (ContractVerifier.is_verified verification_result) then
    let has_high_liquidity := Qge_bool (liquidity_usd t) 100000 in
    let has_mature_age := Qge_bool (age_hours t) 720 in
    let has_social_presence :=
      negb (bool_decide (websites (info t) = []))
      || negb (bool_decide (socials (info t) = [])) in
    if has_high_liquidity && (has_mature_age || has_social_presence)
    then penalize 5 UnverifiedContractLargeMature t
    else penalize 15 UnverifiedContract t
  else t.

Definition ownership_penalty
    (verification_result : ContractVerifier.ContractVerificationResult)
    (t : Token) : Token :=
  if ContractVerifier.can_take_back_ownership verification_result
  then penalize 20 OwnerCanTakeBack t else t.

Definition mint_penalty
    (verification_result : ContractVerifier.ContractVerificationResult)
    (t : Token) : Token :=
  if ContractVerifier.has_mint_function verification_result
  then penalize 10 HasMint t else t.

Definition blacklist_penalty
    (verification_result : ContractVerifier.ContractVerificationResult)
    (t : Token) : Token :=
  if ContractVerifier.has_blacklist verification_result
  then penalize 15 HasBlacklist t else t.

Definition proxy_penalty
    (verification_result : ContractVerifier.ContractVerificationResult)
    (t : Token) : Token :=
  if ContractVerifier.is_proxy verification_result
  then penalize 10 ProxyContract t else t.

(** Lines 572-579: the level set from the accumulated score. *)
Definition update_level (t : Token) : Token :=
  let lvl :=
    if risk_score t >=? 80 then Scam
    else if risk_score t >=? 60 then High
    else if risk_score t >=? 40 then Medium
    else Low in
  set_risk lvl (risk_score t) (risk_factors t) t.

(** The body of the loop of [verify_contracts] (lines 520-596) for one
    token, given the dictionary returned by the batch verification. *)
Definition apply_verification
    (verification_results : gmap string ContractVerifier.ContractVerificationResult)
    (t : Token) : Token :=
  match verification_results !! address t with
  | Some verification_result =>
      let t := set_verification_result verification_result t in
      let t := honeypot_penalty verification_result t in
      let t := unverified_penalty verification_result t in
      let t := ownership_penalty verification_result t in
      let t := mint_penalty verification_result t in
      let t := blacklist_penalty verification_result t in
      let t := proxy_penalty verification_result t in
      update_level t
  | None =>
      set_verification_result
        (ContractVerifier.set_error_message "Не удалось верифицировать"
           ContractVerifier.default_result) t
  end.

(** [TokenAnalyzer.verify_contracts]; the tokens are returned as the
    call leaves them.  [verifier_available] tells whether
    [ContractVerifier] could be imported: when it could not, the call
    returns before it touches a token. *)
Definition verify_contracts (cfg : Config) (env : ContractVerifier.Env)
    (verifier_available : bool) (tokens : list Token)
    : ContractVerifier.M (list Token) :=
  match tokens with
  | [] => mret []
  | _ =>
      if negb verifier_available then mret tokens
      else
        let contracts_data := map (λ token, (address token, network token)) tokens in
        verification_results ←
          ContractVerifier.verify_contracts_batch cfg env contracts_data;
        mret (map (apply_verification verification_results) tokens)
  end.

(** Truthiness of a string. *)
Definition nonempty (s : string) : bool := negb (String.eqb s "").

(** The loop of [check_liquidity_locks] over the tokens, with the
    checker it shares; [clk i] are the clock readings of the lookup of
    the token at position [i]. *)
Fixpoint lock_loop (clk : nat → LiquidityLockChecker.Readings) (i : nat)
    (checker : LiquidityLockChecker.Checker) (tokens : list Token) : list Token :=
  match tokens with
  | [] => []
  | token :: rest =>
      if nonempty (pair_address token) && nonempty (address token)
         && nonempty (network token) then
        let '(lock_info, checker) :=
          LiquidityLockChecker.check_liquidity_lock checker (clk i)
            (address token) (pair_address token) (network token) in
        set_lock (Some lock_info)
          (LiquidityLockChecker.get_lock_score lock_info)
          (LiquidityLockChecker.is_locked lock_info)
          (if LiquidityLockChecker.lock_duration_days lock_info =? 0 then None
           else Some (LiquidityLockChecker.lock_duration_days lock_info))
          token
        :: lock_loop clk (S i) checker rest
      else
        set_lock None 0 false None token :: lock_loop clk (S i) checker rest
  end.

(** [TokenAnalyzer.check_liquidity_locks]; [available] tells whether
    [LiquidityLockChecker] could be imported. *)
Definition check_liquidity_locks (available : bool)
    (clk : nat → LiquidityLockChecker.Readings) (tokens : list Token) : list Token :=
  if negb available then
    map (λ token,
      set_lock None 0 (liquidity_locked token) (liquidity_lock_period token) token)
      tokens
  else lock_loop clk 0 LiquidityLockChecker.init tokens.

(** The four lists filled by [analyze_all_tokens]. *)
Record Analysis : Type := {
  tokens : list Token;
  scam_tokens : list Token;
  high_risk_tokens : list Token;
  medium_risk_tokens : list Token;
  low_risk_tokens : list Token
}.

(** The scoring loop shared by [analyze_all_tokens] and
    [analyze_all_tokens_sync]. *)
Definition analyze_all_tokens_sync (config : AnalyzerConfig) (tokens : list Token)
    : Analysis :=
  let scored := map (λ token, snd (calculate_risk_score config token)) tokens in
  {| tokens := scored;
     scam_tokens := filter (λ t, risk_level t = Scam) scored;
     high_risk_tokens := filter (λ t, risk_level t = High) scored;
     medium_risk_tokens := filter (λ t, risk_level t = Medium) scored;
     low_risk_tokens :=
       filter (λ t, risk_level t ≠ Scam ∧ risk_level t ≠ High ∧ risk_level t ≠ Medium)
         scored |}.


(** *** The filters over the analysed tokens *)

(** The dictionary [filters] of [filter_tokens].  A bound that is
    absent, or present with the value [None], is [None];
    [exclude_scam] is [None] when the key is absent. *)
Record Filters : Type := {
  exclude_scam : option bool;
  min_age : option Q;
  max_age : option Q;
  min_price_change : option Q;
  max_price_change : option Q;
  min_liquidity : option Q;
  max_liquidity : option Q;
  networks : option (list string)
}.

(** [{}] *)
Definition no_filters : Filters :=
  {| exclude_scam := None; min_age := None; max_age := None;
     min_price_change := None; max_price_change := None;
     min_liquidity := None; max_liquidity := None; networks := None |}.

(** [bound is not None and value < bound] *)
Definition below (value : Q) (bound : option Q) : bool :=
  match bound with
  | Some b => Qlt_bool value b
  | None => false
  end.

(** [bound is not None and value > bound] *)
Definition above (value : Q) (bound : option Q) : bool :=
  match bound with
  | Some b => Qgt_bool value b
  | None => false
  end.

(** The loop of [filter_tokens]; each [if] is a [continue] of the
    source.  [config_exclude_scam] is the entry ['exclude_scam'] of
    [self.config], [None] when it is absent. *)
Fixpoint filter_loop (config_exclude_scam : option bool) (filters : Filters)
    (tokens : list Token) : list Token :=
  match tokens with
  | [] => []
  | token :: rest =>
      let rest := filter_loop config_exclude_scam filters rest in
      if default (default true config_exclude_scam) (exclude_scam filters)
         && bool_decide (risk_level token = Scam) then rest
      else if below (age_hours token) (min_age filters) then rest
      else if above (age_hours token) (max_age filters) then rest
      else if below (price_change_24h token) (min_price_change filters) then rest
      else if above (price_change_24h token) (max_price_change filters) then rest
      else if below (liquidity_usd token) (min_liquidity filters) then rest
      else if above (liquidity_usd token) (max_liquidity filters) then rest
      else if match networks filters with
              | Some nets => negb (str_in (lower (network token)) (map lower nets))
              | None => false
              end then rest
      else token :: rest
  end.

(** [TokenAnalyzer.filter_tokens] *)
Definition filter_tokens (config_exclude_scam : option bool)
    (filters : option Filters) (tokens : list Token) : list Token :=
  let filters := default no_filters filters in
  filter_loop config_exclude_scam filters tokens.

(** The tests of the first loop of [get_top_tokens_by_growth]; each
    [false] is a [continue] of the source. *)
Definition is_safe_token (token : Token) : bool :=
  if bool_decide (risk_level token = Scam ∨ risk_level token = High) then false
  else if Qlt_bool (age_hours token) 24 then false
  else if Qgt_bool (price_change_24h token) 100 then false
  else if Qlt_bool (volume_24h token) 5000 then false
  else if bool_decide (websites (info token) = [])
          && bool_decide (socials (info token) = []) then false
  else
    let liquidity_lock_percentage := liquidity_lock_percentage token in
    let is_verified :=
      match verification_result token with
      | Some r => ContractVerifier.is_verified r
      | None => false
      end in
    let has_liquidity_lock := Qgt_bool liquidity_lock_percentage 25 in
    let is_mega_safe :=
      Qgt_bool (liquidity_usd token) 500000 && is_verified
      && Qgt_bool (age_hours token) 720 in
    if negb (has_liquidity_lock || is_mega_safe) then false
    else if Qlt_bool (liquidity_usd token) 100000 then false
    else if negb has_liquidity_lock && negb is_mega_safe then false
    else true.

Fixpoint safe_tokens_loop (tokens : list Token) : list Token :=
  match tokens with
  | [] => []
  | token :: rest =>
      if is_safe_token token then token :: safe_tokens_loop rest
      else safe_tokens_loop rest
  end.

(** The sort key: the rank of the level, then the price change with
    its sign turned. *)
Definition growth_key (x : Token) : Z * Q :=
  (if decide (risk_level x = Low) then 0
   else if decide (risk_level x = Moderate) then 1 else 2,
   (- price_change_24h x)%Q).

(** [a < b] on the key tuples. *)
Definition key_lt (a b : Z * Q) : bool :=
  if fst a =? fst b then Qlt_bool (snd a) (snd b) else fst a <? fst b.

(** The loop that picks the top tokens when [limit] is at most 10. *)
Fixpoint top_loop (limit : Z) (safe_tokens top_tokens : list Token) : list Token :=
  match safe_tokens with
  | [] => top_tokens
  | token :: rest =>
      if Qlt_bool (liquidity_usd token) 75000 then top_loop limit rest top_tokens
      else if Qlt_bool (age_hours token) 72 then top_loop limit rest top_tokens
      else if negb (bool_decide (risk_level token = Low ∨ risk_level token = Moderate))
      then top_loop limit rest top_tokens
      else
        let top_tokens := top_tokens ++ [token] in
        if Z.of_nat (length top_tokens) >=? limit then top_tokens
        else top_loop limit rest top_tokens
  end.

(** [TokenAnalyzer.get_top_tokens_by_growth]; [limit] is [None] by
    default, and the arguments [min_liquidity] and [min_age] are not
    read by the body. *)
Definition get_top_tokens_by_growth (limit : option Z) (min_liquidity min_age : Q)
    (tokens : list Token) : list Token :=
  let safe_tokens := safe_tokens_loop tokens in
  let safe_tokens :=
    stable_sort (λ y x, key_lt (growth_key y) (growth_key x)) safe_tokens in
  match limit with
  | Some n =>
      if negb (n =? 0) && (n <=? 10) then top_loop n safe_tokens []
      else if negb (n =? 0) then take (Z.to_nat n) safe_tokens
      else safe_tokens
  | None => safe_tokens
  end.

End TokenAnalyzer.

(** ** Scenarios used by the properties below *)

Module Scenarios.

(** A fresh verifier, created when the clock reads 0. *)
Definition world0 : ContractVerifier.World :=
  {| ContractVerifier.now := 0;
     ContractVerifier.trace := [];
     ContractVerifier.self := ContractVerifier.init default_config 0 |}.

(** Every reading of the clock is 0. *)
Definition still_clock (i : nat) : LiquidityLockChecker.Readings :=
  {| LiquidityLockChecker.t_lookup := 0;
     LiquidityLockChecker.t_unlock := 0;
     LiquidityLockChecker.t_analyze := 0;
     LiquidityLockChecker.t_store := 0 |}.

(** A configuration without thresholds: every default applies. *)
Definition no_thresholds : TokenAnalyzer.AnalyzerConfig :=
  {| TokenAnalyzer.price_change_suspicious_min := None;
     TokenAnalyzer.liquidity_high_risk := None;
     TokenAnalyzer.volume_liquidity_suspicious_min := None |}.

Definition honeypot_address : string := "0x1111111111111111111111111111111111111111".

(** The GoPlus entry of an open-source honeypot. *)
Definition honeypot_info : list (string * ContractVerifier.JVal) :=
  [ ("is_honeypot", ContractVerifier.JStr "1");
    ("is_open_source", ContractVerifier.JStr "1") ].

(** The body with which GoPlus reports [honeypot_address] as a
    honeypot. *)
Definition honeypot_body : ContractVerifier.JVal :=
  ContractVerifier.JObj
    [ ("code", ContractVerifier.JNum 1);
      ("message", ContractVerifier.JStr "OK");
      ("result",
       ContractVerifier.JObj
         [ (honeypot_address, ContractVerifier.JObj honeypot_info) ]) ].

(** Services of which GoPlus reports [honeypot_address] as a honeypot
    and the others cannot be reached; the batches of a chain run one
    after the other. *)
Definition honeypot_env : ContractVerifier.Env :=
  {| ContractVerifier.goplus_token_security := λ _ _,
       HttpResponse 200 (Returned honeypot_body);
     ContractVerifier.jupiter_strict := HttpRaise "ClientConnectorError";
     ContractVerifier.solana_rpc := λ _ _, HttpRaise "ClientConnectorError";
     ContractVerifier.etherscan_getsourcecode := λ _, HttpRaise "ClientConnectorError";
     ContractVerifier.bscscan_getsourcecode := λ _, HttpRaise "ClientConnectorError";
     ContractVerifier.event_loop := λ _, [] |}.

(** Services of which GoPlus answers every request with status 500. *)
Definition failing_env : ContractVerifier.Env :=
  {| ContractVerifier.goplus_token_security := λ _ _,
       HttpResponse 500 (Raised "ContentTypeError");
     ContractVerifier.jupiter_strict := HttpRaise "ClientConnectorError";
     ContractVerifier.solana_rpc := λ _ _, HttpRaise "ClientConnectorError";
     ContractVerifier.etherscan_getsourcecode := λ _, HttpRaise "ClientConnectorError";
     ContractVerifier.bscscan_getsourcecode := λ _, HttpRaise "ClientConnectorError";
     ContractVerifier.event_loop := λ _, [] |}.

(** The defaults of config.py with batches of one address. *)
Definition one_by_one : Config :=
  {| GOPLUS_BATCH_SIZE := 1;
     GOPLUS_CONCURRENCY := 8;
     GOPLUS_RATE_LIMIT := 30;
     ETHERSCAN_RATE_LIMIT := 12;
     BSCSCAN_RATE_LIMIT := 12 |}.

(** The services of [honeypot_env] with an event loop that starts the
    first four batches of a chain at time 0, before any of them goes
    on. *)
Definition eager_env : ContractVerifier.Env :=
  {| ContractVerifier.goplus_token_security := λ _ _,
       HttpResponse 200 (Returned honeypot_body);
     ContractVerifier.jupiter_strict := HttpRaise "ClientConnectorError";
     ContractVerifier.solana_rpc := λ _ _, HttpRaise "ClientConnectorError";
     ContractVerifier.etherscan_getsourcecode := λ _, HttpRaise "ClientConnectorError";
     ContractVerifier.bscscan_getsourcecode := λ _, HttpRaise "ClientConnectorError";
     ContractVerifier.event_loop := λ _,
       [(0%nat, 0%Q); (1%nat, 0%Q); (2%nat, 0%Q); (3%nat, 0%Q)] |}.

(** An old, liquid token with a website, as [Token.__init__] leaves it. *)
Definition perfect_token : TokenAnalyzer.Token :=
  {| TokenAnalyzer.address := honeypot_address;
     TokenAnalyzer.name := "Perfect";
     TokenAnalyzer.symbol := "PFT";
     TokenAnalyzer.network := "ethereum";
     TokenAnalyzer.pair_address := "0xpair";
     TokenAnalyzer.liquidity_usd := 500000;
     TokenAnalyzer.volume_24h := 100000;
     TokenAnalyzer.price_change_24h := 10;
     TokenAnalyzer.buys_24h := 100;
     TokenAnalyzer.sells_24h := 50;
     TokenAnalyzer.age_hours := 1000;
     TokenAnalyzer.info :=
       {| TokenAnalyzer.websites := ["https://example.org"];
          TokenAnalyzer.socials := [] |};
     TokenAnalyzer.risk_score := 0;
     TokenAnalyzer.risk_level := TokenAnalyzer.Low;
     TokenAnalyzer.risk_factors := [];
     TokenAnalyzer.score_breakdown := [];
     TokenAnalyzer.liquidity_locked := false;
     TokenAnalyzer.liquidity_lock_period := None;
     TokenAnalyzer.verification_result := None;
     TokenAnalyzer.liquidity_lock_info := None;
     TokenAnalyzer.liquidity_lock_score := None |}.

End Scenarios.

(** ** A sequential caller of the rate limiter *)

Module Pacing.
Import ContractVerifier.

(** One paced request, as [_check_goplus_security] and the explorer
    checks make it: wait for the limiter, then hand the request over. *)
Definition request (cfg : Config) (api : ApiType) : M unit :=
  await (_ ← _respect_rate_limit cfg api;
         dispatch api tt).

(** A caller that makes its requests one after the other; each entry of
    the schedule names the service and the time the caller lets pass
    before asking. *)
Fixpoint run (cfg : Config) (schedule : list (ApiType * Q)) : M unit :=
  match schedule with
  | [] => mret tt
  | (api, gap) :: rest =>
      _ ← sleep gap;
      _ ← request cfg api;
      run cfg rest
  end.

(** The number of requests to [api] handed over at a time [t] with
    [a <= t < b]. *)
Fixpoint dispatched_in (api : ApiType) (a b : Q) (tr : list Event) : nat :=
  match tr with
  | [] => 0
  | EvDispatch api' t :: rest =>
      if bool_decide (api' = api) && Qle_bool a t && Qlt_bool t b
      then S (dispatched_in api a b rest)
      else dispatched_in api a b rest
  | EvReset _ :: rest => dispatched_in api a b rest
  end.

(** The times at which the requests to [api] were handed over, oldest
    first. *)
Fixpoint dispatch_times (api : ApiType) (tr : list Event) : list Q :=
  match tr with
  | [] => []
  | EvDispatch api' t :: rest =>
      if bool_decide (api' = api) then dispatch_times api rest ++ [t]
      else dispatch_times api rest
  | EvReset _ :: rest => dispatch_times api rest
  end.

(** The number of [goplus] requests handed over since the newest reset
    of the counter (the log is newest first). *)
Fixpoint since_reset (tr : list Event) : Z :=
  match tr with
  | [] => 0
  | EvReset _ :: _ => 0
  | EvDispatch goplus _ :: rest => 1 + since_reset rest
  | EvDispatch _ _ :: rest => since_reset rest
  end.

(** At every point of the log, at most [n] [goplus] requests had been
    handed over since the reset before it. *)
Fixpoint window_bounded (n : Z) (tr : list Event) : Prop :=
  match tr with
  | [] => True
  | e :: rest => since_reset (e :: rest) ≤ n ∧ window_bounded n rest
  end.

(** The times of the resets, newest first. *)
Fixpoint resets (tr : list Event) : list Q :=
  match tr with
  | [] => []
  | EvReset t :: rest => t :: resets rest
  | EvDispatch _ _ :: rest => resets rest
  end.

(** Each reset comes at least 60 seconds after the one before it, the
    first of them after the creation of the verifier at [t0]. *)
Fixpoint spaced (t0 : Q) (ts : list Q) : Prop :=
  match ts with
  | [] => True
  | t :: rest => (60 <= t - hd t0 rest)%Q ∧ spaced t0 rest
  end.

(** A [goplus] request arrives with the counter full exactly 60 seconds
    after the last reset. *)
Definition at_edge (cfg : Config) (w : World) : Prop :=
  GOPLUS_RATE_LIMIT cfg ≤ request_counters (self w) goplus
  ∧ (now w - counter_reset_time (self w) == 60)%Q.

(** No request of the schedule arrives at the edge. *)
Fixpoint edge_free (cfg : Config) (schedule : list (ApiType * Q)) (w : World) : Prop :=
  match schedule with
  | [] => True
  | (api, gap) :: rest =>
      let w1 := (sleep gap w).2 in
      ¬ at_edge cfg w1 ∧ edge_free cfg rest (request cfg api w1).2
  end.

(** A verifier created at [t0] that has not made a request yet. *)
Definition fresh (cfg : Config) (t0 : Q) : World :=
  {| now := t0; trace := []; self := init cfg t0 |}.

(** Thirty-three [goplus] requests made back to back. *)
Definition burst : list (ApiType * Q) := repeat (goplus, 0%Q) 33.

End Pacing.

(** * Properties *)

(** ** Comparisons on floats *)

Lemma Qge_bool_true (a b : Q) : Qge_bool a b = true ↔ (b <= a)%Q.
Proof. unfold Qge_bool. apply Qle_bool_iff. Qed.

Lemma Qge_bool_false (a b : Q) : Qge_bool a b = false ↔ (a < b)%Q.
Proof.
  unfold Qge_bool. split.
  - intros H. apply Qnot_le_lt. intros Hle. apply Qle_bool_iff in Hle. congruence.
  - intros H. destruct (Qle_bool b a) eqn:E; [|reflexivity].
    apply Qle_bool_iff in E. exfalso. apply (Qlt_not_le _ _ H E).
Qed.

Lemma Qlt_bool_true (a b : Q) : Qlt_bool a b = true ↔ (a < b)%Q.
Proof.
  unfold Qlt_bool. rewrite negb_true_iff. apply Qge_bool_false.
Qed.

Lemma Qlt_bool_false (a b : Q) : Qlt_bool a b = false ↔ (b <= a)%Q.
Proof.
  unfold Qlt_bool. rewrite negb_false_iff. apply Qge_bool_true.
Qed.

Lemma Qgt_bool_true (a b : Q) : Qgt_bool a b = true ↔ (b < a)%Q.
Proof. apply Qlt_bool_true. Qed.

Lemma Qgt_bool_false (a b : Q) : Qgt_bool a b = false ↔ (a <= b)%Q.
Proof. apply Qlt_bool_false. Qed.

(** Case analysis on every float comparison of the goal, keeping the
    order facts as hypotheses. *)
Ltac qcases :=
  repeat match goal with
  | |- context [Qge_bool ?a ?b] =>
      let E := fresh "E" in
      destruct (Qge_bool a b) eqn:E;
      [apply Qge_bool_true in E | apply Qge_bool_false in E]
  | |- context [Qlt_bool ?a ?b] =>
      let E := fresh "E" in
      destruct (Qlt_bool a b) eqn:E;
      [apply Qlt_bool_true in E | apply Qlt_bool_false in E]
  | |- context [Qgt_bool ?a ?b] =>
      let E := fresh "E" in
      destruct (Qgt_bool a b) eqn:E;
      [apply Qgt_bool_true in E | apply Qgt_bool_false in E]
  end.

(** Case analysis on every integer comparison of the goal. *)
Ltac zcases :=
  repeat match goal with
  | |- context [?a >=? ?b] =>
      let E := fresh "E" in destruct (Z.geb_spec a b) as [E|E]
  | |- context [?a >? ?b] =>
      let E := fresh "E" in destruct (Z.gtb_spec a b) as [E|E]
  | |- context [?a <? ?b] =>
      let E := fresh "E" in destruct (Z.ltb_spec a b) as [E|E]
  | |- context [?a =? ?b] =>
      let E := fresh "E" in destruct (Z.eqb_spec a b) as [E|E]
  end.

(** ** Liquidity-lock score *)

Section LockScore.
Import LiquidityLockChecker.

(** The score as the specification words it: a base of 30, then the
    percentage, duration and platform components, capped at 100. *)
Definition percentage_component (p : Q) : Z :=
  if Qge_bool p 90 then 25
  else if Qge_bool p 80 then 20
  else if Qge_bool p 50 then 10
  else 0.

Definition duration_component (d : Z) : Z :=
  if d >=? 365 then 25
  else if d >=? 180 then 20
  else if d >=? 90 then 15
  else if d >=? 30 then 10
  else 0.

Definition platform_component (p : string) : Z :=
  if bool_decide (p = "Team Finance" ∨ p = "Unicrypt" ∨ p = "PinkSale") then 20 else 10.

Definition lock_score_spec (info : LiquidityLockInfo) : Z :=
  if is_locked info then
    Z.min 100
      (30 + percentage_component (locked_percentage info)
          + duration_component (lock_duration_days info)
          + platform_component (platform info))
  else 0.

Lemma str_in_trusted (p : string) :
  str_in p trusted_platforms
  = bool_decide (p = "Team Finance" ∨ p = "Unicrypt" ∨ p = "PinkSale").
Proof.
  unfold str_in, trusted_platforms; simpl.
  destruct (String.eqb_spec p "Team Finance"); simpl.
  { symmetry. apply bool_decide_eq_true. tauto. }
  destruct (String.eqb_spec p "Unicrypt"); simpl.
  { symmetry. apply bool_decide_eq_true. tauto. }
  destruct (String.eqb_spec p "PinkSale"); simpl.
  { symmetry. apply bool_decide_eq_true. tauto. }
  symmetry. apply bool_decide_eq_false. tauto.
Qed.

Lemma get_lock_score_unfold (info : LiquidityLockInfo) :
  get_lock_score info = lock_score_spec info.
Proof.
  unfold get_lock_score, lock_score_spec, percentage_component,
    duration_component, platform_component.
  rewrite str_in_trusted.
  destruct (is_locked info); simpl; [|reflexivity].
  qcases; zcases; case_bool_decide; lia.
Qed.

Lemma percentage_component_mono (p1 p2 : Q) :
  (p1 <= p2)%Q → percentage_component p1 ≤ percentage_component p2.
Proof.
  intros H. unfold percentage_component. qcases; try lia; exfalso; lra.
Qed.

Lemma duration_component_mono (d1 d2 : Z) :
  d1 ≤ d2 → duration_component d1 ≤ duration_component d2.
Proof.
  intros H. unfold duration_component. zcases; lia.
Qed.

(** C3: [get_lock_score] does not decrease when the locked percentage
    grows with every other field fixed, nor when the lock duration grows
    with every other field fixed, and it is 0 for an unlocked pool. *)
Theorem get_lock_score_monotone (info : LiquidityLockInfo) (p1 p2 : Q) (d1 d2 : Z) :
  (p1 <= p2)%Q → d1 ≤ d2 →
  get_lock_score (set_locked_percentage p1 info)
    ≤ get_lock_score (set_locked_percentage p2 info)
  ∧ get_lock_score (set_lock_duration_days d1 info)
    ≤ get_lock_score (set_lock_duration_days d2 info)
  ∧ (is_locked info = false → get_lock_score info = 0).
Proof.
  intros Hp Hd. rewrite !get_lock_score_unfold. unfold lock_score_spec; simpl.
  pose proof (percentage_component_mono _ _ Hp).
  pose proof (duration_component_mono _ _ Hd).
  repeat split.
  - destruct (is_locked info); lia.
  - destruct (is_locked info); lia.
  - intros ->. reflexivity.
Qed.

Lemma get_lock_score_monotone_witness :
  get_lock_score (set_locked_percentage 40 default_lock_info)
    ≤ get_lock_score (set_locked_percentage 95 default_lock_info)
  ∧ get_lock_score (set_lock_duration_days 10 (set_is_locked true default_lock_info))
    ≤ get_lock_score (set_lock_duration_days 400 (set_is_locked true default_lock_info)).
Proof.
  split.
  - apply (get_lock_score_monotone default_lock_info 40 95 0 0); [lra | lia].
  - apply (get_lock_score_monotone (set_is_locked true default_lock_info) 0 0 10 400);
      [lra | lia].
Defined.

(** C4: for a locked pool [get_lock_score] is 30 plus the percentage
    component (25, 20, 10 or 0 at the thresholds 90, 80, 50), the
    duration component (25, 20, 15, 10 or 0 at 365, 180, 90, 30 days)
    and the platform component (20 on the trusted list, else 10), capped
    at 100; for an unlocked pool it is 0 whatever the other fields. *)
Theorem get_lock_score_formula (info : LiquidityLockInfo) :
  get_lock_score info = lock_score_spec info
  ∧ 0 ≤ get_lock_score info ≤ 100.
Proof.
  split; [apply get_lock_score_unfold|].
  rewrite get_lock_score_unfold.
  unfold lock_score_spec, percentage_component, duration_component, platform_component.
  destruct (is_locked info); [|lia].
  qcases; zcases; case_bool_decide; lia.
Qed.

End LockScore.

(** ** Weighted risk score (seturity) *)

Section RiskScore.
Import RiskScoreCalculator.

(** The composite score as the specification words it. *)
Definition weighted_score_spec (token_data : TokenSecurityReport) : Q :=
  ((15 # 100) * calculate_verification_score token_data
   + (20 # 100) * calculate_ownership_score token_data
   + (25 # 100) * calculate_liquidity_score token_data
   + (15 # 100) * calculate_distribution_score token_data
   + (10 # 100) * calculate_trading_score token_data
   + (10 # 100) * calculate_audit_score token_data
   + (5 # 100) * calculate_community_score token_data)%Q.

(** The sum of the weights. *)
Definition weights_total : Q :=
  fold_left (λ acc kw, (acc + snd kw)%Q) weights 0%Q.

(** A per-signal score lies between 0 and 0.9. *)
Definition signal_range (q : Q) : Prop := (0 <= q <= 9 # 10)%Q.

Lemma verification_score_range td : signal_range (calculate_verification_score td).
Proof.
  unfold signal_range, calculate_verification_score.
  destruct (verified _); simpl; zcases; split; lra.
Qed.

Lemma ownership_score_range td : signal_range (calculate_ownership_score td).
Proof.
  unfold signal_range, calculate_ownership_score.
  destruct (renounced _); [|destruct (owner_type _)]; split; lra.
Qed.

Lemma liquidity_score_range td : signal_range (calculate_liquidity_score td).
Proof.
  unfold signal_range, calculate_liquidity_score.
  destruct (liquidity_locked _); [|split; lra].
  destruct (period_over _ 365); [split; lra|].
  destruct (period_over _ 180); split; lra.
Qed.

Lemma distribution_score_range td : signal_range (calculate_distribution_score td).
Proof.
  unfold signal_range, calculate_distribution_score.
  repeat match goal with |- context [if ?b then _ else _] => destruct b end; split; lra.
Qed.

Lemma trading_score_range td : signal_range (calculate_trading_score td).
Proof.
  unfold signal_range, calculate_trading_score.
  repeat match goal with |- context [if ?b then _ else _] => destruct b end; split; lra.
Qed.

Lemma audit_score_range td : signal_range (calculate_audit_score td).
Proof.
  unfold signal_range, calculate_audit_score.
  repeat match goal with |- context [if ?b then _ else _] => destruct b end; split; lra.
Qed.

Lemma community_score_range td : signal_range (calculate_community_score td).
Proof. unfold signal_range, calculate_community_score. split; lra. Qed.

Lemma weighted_sum_compute_scores td :
  weighted_sum 0 (compute_scores td)
  = Some (0 + calculate_verification_score td * (15 # 100)
            + calculate_ownership_score td * (20 # 100)
            + calculate_liquidity_score td * (25 # 100)
            + calculate_distribution_score td * (15 # 100)
            + calculate_trading_score td * (10 # 100)
            + calculate_audit_score td * (10 # 100)
            + calculate_community_score td * (5 # 100))%Q.
Proof. reflexivity. Qed.

(** C8: [calculate_risk_score] returns an assessment whose
    [overall_score] is the weighted sum of the seven per-signal scores
    with the weights 0.15, 0.20, 0.25, 0.15, 0.10, 0.10 and 0.05; the
    weights add up to 1, and the score lies between 0 and 1. *)
Theorem calculate_risk_score_weighted_sum (token_data : TokenSecurityReport) :
  ∃ assessment,
    calculate_risk_score token_data = Some assessment
    ∧ (overall_score assessment == weighted_score_spec token_data)%Q
    ∧ (weights_total == 1)%Q
    ∧ (0 <= overall_score assessment <= 1)%Q.
Proof.
  unfold calculate_risk_score. rewrite weighted_sum_compute_scores.
  eexists; split; [reflexivity|]. simpl overall_score.
  pose proof (verification_score_range token_data) as [? ?].
  pose proof (ownership_score_range token_data) as [? ?].
  pose proof (liquidity_score_range token_data) as [? ?].
  pose proof (distribution_score_range token_data) as [? ?].
  pose proof (trading_score_range token_data) as [? ?].
  pose proof (audit_score_range token_data) as [? ?].
  pose proof (community_score_range token_data) as [? ?].
  unfold weighted_score_spec.
  split; [ring|]. split; [reflexivity|]. split; lra.
Qed.

Lemma Qge_bool_nonneg (q : Q) : (0 <= q)%Q → Qge_bool q 0 = true.
Proof. intros H. by apply Qge_bool_true. Qed.

Lemma calculate_confidence_compute_scores td :
  calculate_confidence (compute_scores td) = 1%Q.
Proof.
  unfold calculate_confidence, compute_scores. simpl fold_left.
  rewrite (Qge_bool_nonneg _ (proj1 (verification_score_range td))).
  rewrite (Qge_bool_nonneg _ (proj1 (ownership_score_range td))).
  rewrite (Qge_bool_nonneg _ (proj1 (liquidity_score_range td))).
  rewrite (Qge_bool_nonneg _ (proj1 (distribution_score_range td))).
  rewrite (Qge_bool_nonneg _ (proj1 (trading_score_range td))).
  rewrite (Qge_bool_nonneg _ (proj1 (audit_score_range td))).
  reflexivity.
Qed.

(** C10: the confidence reported by [calculate_risk_score] is exactly 1
    for every report: the seven scores are never negative, so
    [calculate_confidence] counts 0.5 + 7 * 0.1 and caps it at 1. *)
Theorem confidence_always_one (token_data : TokenSecurityReport) :
  calculate_confidence (compute_scores token_data) = 1%Q
  ∧ ∃ assessment,
      calculate_risk_score token_data = Some assessment
      ∧ confidence assessment = 1%Q.
Proof.
  split; [apply calculate_confidence_compute_scores|].
  unfold calculate_risk_score. rewrite weighted_sum_compute_scores.
  eexists; split; [reflexivity|]. apply calculate_confidence_compute_scores.
Qed.

End RiskScore.

(** ** Risk levels of the token analyzer *)

Section TokenRisk.
Import TokenAnalyzer.

Lemma medium_gate_severity t lf :
  severity (fst lf) ≤ severity (fst (medium_liquidity_gate t lf)).
Proof.
  unfold medium_liquidity_gate. case_decide as Hm; [|lia].
  destruct (Qlt_bool _ _); [|lia]. rewrite Hm. simpl. lia.
Qed.

Lemma high_gate_severity t lf :
  severity (fst lf) ≤ severity (fst (high_liquidity_gate t lf)).
Proof.
  unfold high_liquidity_gate. case_decide as Hm; [|lia].
  destruct (Qlt_bool _ _); [|lia]. rewrite Hm. simpl. lia.
Qed.

Lemma risk_level_calculate config t :
  risk_level (snd (calculate_risk_score config t))
  = fst (high_liquidity_gate t
          (medium_liquidity_gate t
            (level_by_thresholds t (score (collect_score config t))))).
Proof. reflexivity. Qed.

(** C9: after the thresholds have chosen a level, the liquidity gates
    only move it towards "Скам".  A token at "Средний" with less than
    50000 USD of liquidity is moved to "Высокий" by the first gate, a
    token at "Высокий" with less than 25000 USD is moved to "Скам" by
    the second, and a score under 25 with less than 100000 USD of
    liquidity gives "Умеренный". *)
Theorem liquidity_gates_only_downgrade (config : AnalyzerConfig) (t : Token) :
  let chosen := level_by_thresholds t (score (collect_score config t)) in
  let final := risk_level (snd (calculate_risk_score config t)) in
  severity (fst chosen) ≤ severity final
  ∧ (fst chosen = Medium → (liquidity_usd t < 50000)%Q →
       fst (medium_liquidity_gate t chosen) = High
       ∧ final = (if Qlt_bool (liquidity_usd t) 25000 then Scam else High))
  ∧ (∀ lf, fst lf = High → (liquidity_usd t < 25000)%Q →
       fst (high_liquidity_gate t lf) = Scam)
  ∧ (fst chosen = High → (liquidity_usd t < 25000)%Q → final = Scam)
  ∧ (score (collect_score config t) < 25 → (liquidity_usd t < 100000)%Q →
       final = Moderate).
Proof.
  intros chosen final. subst final. rewrite risk_level_calculate. fold chosen.
  split; [|split; [|split; [|split]]].
  - etrans; [apply (medium_gate_severity t)|apply high_gate_severity].
  - intros Hm Hl. apply Qlt_bool_true in Hl.
    unfold medium_liquidity_gate. rewrite decide_True by done. rewrite Hl.
    split; [reflexivity|].
    unfold high_liquidity_gate. simpl. destruct (Qlt_bool _ 25000); reflexivity.
  - intros lf Hh Hl. apply Qlt_bool_true in Hl.
    unfold high_liquidity_gate. rewrite decide_True by done. by rewrite Hl.
  - intros Hh Hl. apply Qlt_bool_true in Hl.
    unfold medium_liquidity_gate. rewrite decide_False by (rewrite Hh; done).
    unfold high_liquidity_gate. rewrite decide_True by done. by rewrite Hl.
  - intros Hs Hl. apply Qlt_bool_true in Hl.
    assert (chosen = (Moderate, [LiquidityTooLowForLow])) as ->.
    { unfold chosen, level_by_thresholds. zcases; try lia. by rewrite Hl. }
    reflexivity.
Qed.

Lemma liquidity_gates_only_downgrade_witness :
  risk_level (snd (calculate_risk_score Scenarios.no_thresholds
                     (set_lock None 100 false None
                        (set_scoring Low 0 [] []
                           {| address := "0xa"; name := "A"; symbol := "A";
                              network := "ethereum"; pair_address := "0xp";
                              liquidity_usd := 60000; volume_24h := 0;
                              price_change_24h := 0; buys_24h := 0; sells_24h := 0;
                              age_hours := 1000;
                              info := {| websites := ["w"]; socials := [] |};
                              risk_score := 0; risk_level := Low; risk_factors := [];
                              score_breakdown := [];
                              liquidity_locked := false;
                              liquidity_lock_period := None;
                              verification_result := None;
                              liquidity_lock_info := None;
                              liquidity_lock_score := None |}))))
  = Moderate.
Proof.
  apply liquidity_gates_only_downgrade; reflexivity.
Defined.


Lemma penalize_score p f t : risk_score (penalize p f t) = risk_score t + p.
Proof. reflexivity. Qed.

Lemma penalize_factors p f t : risk_factors (penalize p f t) = risk_factors t ++ [f].
Proof. reflexivity. Qed.

(** A stage that never lowers the score and never drops a factor. *)
Definition accumulates (stage : Token → Token) : Prop :=
  ∀ t, risk_score t ≤ risk_score (stage t)
       ∧ ∀ f, f ∈ risk_factors t → f ∈ risk_factors (stage t).

Lemma accumulates_id : accumulates (λ t, t).
Proof. intros t. split; [lia|done]. Qed.

Lemma accumulates_penalize p f : 0 ≤ p → accumulates (penalize p f).
Proof.
  intros Hp t. rewrite penalize_score, penalize_factors.
  split; [lia|]. intros g Hg. set_solver.
Qed.

Lemma accumulates_unverified r : accumulates (unverified_penalty r).
Proof.
  intros t. unfold unverified_penalty.
  destruct (negb _); [|apply accumulates_id].
  cbv zeta. destruct (_ && _); apply accumulates_penalize; lia.
Qed.

Lemma accumulates_ownership r : accumulates (ownership_penalty r).
Proof.
  intros t. unfold ownership_penalty.
  destruct (ContractVerifier.can_take_back_ownership r);
    [apply accumulates_penalize; lia|apply accumulates_id].
Qed.

Lemma accumulates_mint r : accumulates (mint_penalty r).
Proof.
  intros t. unfold mint_penalty.
  destruct (ContractVerifier.has_mint_function r);
    [apply accumulates_penalize; lia|apply accumulates_id].
Qed.

Lemma accumulates_blacklist r : accumulates (blacklist_penalty r).
Proof.
  intros t. unfold blacklist_penalty.
  destruct (ContractVerifier.has_blacklist r);
    [apply accumulates_penalize; lia|apply accumulates_id].
Qed.

Lemma accumulates_proxy r : accumulates (proxy_penalty r).
Proof.
  intros t. unfold proxy_penalty.
  destruct (ContractVerifier.is_proxy r);
    [apply accumulates_penalize; lia|apply accumulates_id].
Qed.





End TokenRisk.

(** ** The steps and the coroutines of the verifier *)

Section MonadFacts.
Import ContractVerifier.

Lemma bind_run {A B : Type} (m : M A) (f : A → M B) (w : World) :
  (m ≫= f) w = f (m w).1 (m w).2.
Proof. unfold mbind, M_bind. destruct (m w); reflexivity. Qed.

Lemma await_ret {A : Type} (a : A) (w : World) : await (mret a) w = (a, w).
Proof. reflexivity. Qed.

Lemma await_lift {A : Type} (m : M A) (w : World) : await (lift m) w = m w.
Proof. unfold lift. cbn [await]. rewrite bind_run. by destruct (m w). Qed.

Lemma await_sleep (d : Q) (w : World) : await (asyncio_sleep d) w = sleep d w.
Proof. reflexivity. Qed.

Lemma await_bind {A B : Type} (c : Co A) (f : A → Co B) (w : World) :
  await (c ≫= f) w = await (f (await c w).1) (await c w).2.
Proof.
  unfold mbind, Co_bind. revert w.
  induction c as [a|X m k IH|d k IH|k IH]; intros w; cbn [co_bind await].
  - reflexivity.
  - rewrite !bind_run. apply IH.
  - rewrite !bind_run. apply IH.
  - apply IH.
Qed.

Lemma await_dispatch {A : Type} (api : ApiType) (answer : A) (w : World) :
  await (dispatch api answer) w
  = (answer, {| now := now w; trace := EvDispatch api (now w) :: trace w;
                self := self w |}).
Proof. reflexivity. Qed.

End MonadFacts.

(** ** The steps of the rate limiter *)

Section LimiterSteps.
Import ContractVerifier.

(** The four steps of [_respect_rate_limit] as functions on the world;
    [t] is the clock reading taken on entry. *)
Definition minute_reset (t : Q) (w : World) : World :=
  if Qgt_bool (t - counter_reset_time (self w)) 60 then
    {| now := now w; trace := EvReset t :: trace w;
       self := set_counter_reset_time t (set_request_counters (λ _, 0) (self w)) |}
  else w.

Definition limit_wait (cfg : Config) (api : ApiType) (t : Q) (w : World) : World :=
  if bool_decide (api = goplus)
     && (request_counters (self w) api >=? GOPLUS_RATE_LIMIT cfg) then
    if Qgt_bool (60 - (t - counter_reset_time (self w))) 0 then
      let t' := Qred (now w + (60 - (t - counter_reset_time (self w)))) in
      {| now := t'; trace := EvReset t' :: trace w;
         self := set_counter_reset_time t'
                   (set_request_counters (upd (request_counters (self w)) api 0)
                      (self w)) |}
    else w
  else w.

Definition spacing_wait (api : ApiType) (t : Q) (w : World) : World :=
  match last_request_time (self w) api with
  | Some last =>
      if Qlt_bool (t - last) (request_delays (self w) api) then
        {| now := Qred (now w + (request_delays (self w) api - (t - last)));
           trace := trace w; self := self w |}
      else w
  | None => w
  end.

Definition count_call (api : ApiType) (t : Q) (w : World) : World :=
  {| now := now w; trace := trace w;
     self :=
       set_request_counters
         (upd (request_counters (self w)) api (request_counters (self w) api + 1))
         (set_last_request_time (upd (last_request_time (self w)) api (Some t))
            (self w)) |}.

(** Awaited while nothing else runs, [_respect_rate_limit] is the four
    steps one after the other. *)
Lemma respect_steps cfg api w :
  await (_respect_rate_limit cfg api) w
  = (tt, count_call api (now w)
           (spacing_wait api (now w)
              (limit_wait cfg api (now w) (minute_reset (now w) w)))).
Proof.
  unfold _respect_rate_limit.
  rewrite await_bind, await_lift. cbn [time_time fst snd].
  rewrite await_bind, await_lift.
  match goal with
  | |- context [(get_self ≫= ?f) w] =>
      assert (H1 : (get_self ≫= f) w = (tt, minute_reset (now w) w))
        by (rewrite bind_run; cbn [get_self fst snd]; unfold minute_reset;
            destruct (Qgt_bool _ 60); [rewrite bind_run|]; reflexivity);
      rewrite H1; clear H1
  end.
  cbn [fst snd]. set (w1 := minute_reset (now w) w).
  rewrite await_bind, await_lift. cbn [get_self fst snd].
  rewrite await_bind.
  match goal with
  | |- context [await (if ?c && ?d then ?a else ?b) w1] =>
      assert (H2 : await (if c && d then a else b) w1
                   = (tt, limit_wait cfg api (now w) w1))
        by (unfold limit_wait; destruct (c && d); [|reflexivity];
            cbv zeta; destruct (Qgt_bool _ 0); [|reflexivity];
            rewrite await_bind, await_sleep, await_lift;
            repeat (rewrite bind_run; cbn [fst snd sleep get_self put_self time_time
                                           self now trace]);
            reflexivity);
      rewrite H2; clear H2
  end.
  cbn [fst snd]. set (w2 := limit_wait cfg api (now w) w1).
  rewrite await_bind, await_lift. cbn [get_self fst snd].
  rewrite await_bind.
  match goal with
  | |- context [await (match last_request_time (self w2) api with
                       | Some l => @?a l | None => ?b end) w2] =>
      assert (H3 : await (match last_request_time (self w2) api with
                          | Some l => a l | None => b end) w2
                   = (tt, spacing_wait api (now w) w2))
        by (unfold spacing_wait; destruct (last_request_time (self w2) api);
            [|reflexivity]; cbv zeta; destruct (Qlt_bool _ _); reflexivity);
      rewrite H3; clear H3
  end.
  cbn [fst snd]. set (w3 := spacing_wait api (now w) w2).
  rewrite await_lift.
  repeat (rewrite bind_run; cbn [fst snd get_self put_self self now trace]).
  reflexivity.
Qed.

End LimiterSteps.

(** ** What does not touch the cache *)

Section Blind.
Import ContractVerifier.

(** The world with another cache and another life time of its
    entries. *)
Definition with_cache (c : gmap string (Q * ContractVerificationResult)) (ttl : Q)
    (w : World) : World :=
  {| now := now w; trace := trace w;
     self := {| cache := c; cache_ttl := ttl;
                request_delays := request_delays (self w);
                last_request_time := last_request_time (self w);
                request_counters := request_counters (self w);
                counter_reset_time := counter_reset_time (self w) |} |}.

(** [m] neither reads nor writes the cache and the life time of its
    entries: it does the same in a world that differs in them only. *)
Definition cache_blind {A : Type} (m : M A) : Prop :=
  ∀ w c ttl, m (with_cache c ttl w) = ((m w).1, with_cache c ttl (m w).2).

Lemma with_cache_self w : with_cache (cache (self w)) (cache_ttl (self w)) w = w.
Proof. destruct w as [n tr [c ttl d l k r]]. reflexivity. Qed.

Lemma blind_keeps {A : Type} (m : M A) w :
  cache_blind m →
  cache (self (m w).2) = cache (self w)
  ∧ cache_ttl (self (m w).2) = cache_ttl (self w).
Proof.
  intros H. specialize (H w (cache (self w)) (cache_ttl (self w))).
  rewrite with_cache_self in H.
  apply (f_equal snd) in H. cbn [snd] in H. rewrite H. split; reflexivity.
Qed.

Lemma blind_ret {A : Type} (a : A) : cache_blind (await (mret a)).
Proof. intros w c ttl. reflexivity. Qed.

Lemma blind_bind {A B : Type} (c : Co A) (f : A → Co B) :
  cache_blind (await c) → (∀ a, cache_blind (await (f a))) →
  cache_blind (await (c ≫= f)).
Proof.
  intros Hc Hf w ch ttl. rewrite !await_bind, Hc. cbn [fst snd]. apply Hf.
Qed.

Lemma blind_dispatch {A : Type} api (a : A) : cache_blind (await (dispatch api a)).
Proof. intros w c ttl. reflexivity. Qed.

Lemma blind_respect cfg api : cache_blind (await (_respect_rate_limit cfg api)).
Proof.
  intros w c ttl. rewrite !respect_steps. cbn [fst snd]. f_equal.
  assert (H1 : ∀ t w, minute_reset t (with_cache c ttl w)
                      = with_cache c ttl (minute_reset t w)).
  { intros t w'. unfold minute_reset. cbn. by destruct (Qgt_bool _ _). }
  assert (H2 : ∀ t w, limit_wait cfg api t (with_cache c ttl w)
                      = with_cache c ttl (limit_wait cfg api t w)).
  { intros t w'. unfold limit_wait. cbn. destruct (_ && _); [|done].
    by destruct (Qgt_bool _ _). }
  assert (H3 : ∀ t w, spacing_wait api t (with_cache c ttl w)
                      = with_cache c ttl (spacing_wait api t w)).
  { intros t w'. unfold spacing_wait. cbn.
    destruct (last_request_time (self w') api); [|done]. by destruct (Qlt_bool _ _). }
  cbn [now with_cache]. by rewrite H1, H2, H3.
Qed.

End Blind.

Ltac blind_tac :=
  repeat first
    [ apply blind_ret
    | apply blind_respect
    | apply blind_dispatch
    | apply blind_bind; [|intros ?]
    | match goal with
      | |- cache_blind (ContractVerifier.await (match ?x with _ => _ end)) => destruct x
      end ].

(** ** The two TTL caches *)

Section Caches.

Lemma verifier_lookup_iff (v : ContractVerifier.Verifier) (t : Q) (key : string)
    (r : ContractVerifier.ContractVerificationResult) :
  ContractVerifier.cache_lookup v t key = Some r
  ↔ ∃ cached_time,
      ContractVerifier.cache v !! key = Some (cached_time, r)
      ∧ (t - cached_time < ContractVerifier.cache_ttl v)%Q.
Proof.
  unfold ContractVerifier.cache_lookup.
  destruct (ContractVerifier.cache v !! key) as [[ts r']|]; [|naive_solver].
  destruct (Qlt_bool _ _) eqn:E.
  - apply Qlt_bool_true in E. split.
    + intros [= ->]. eauto.
    + intros (ts' & [= -> ->] & _). reflexivity.
  - apply Qlt_bool_false in E. split; [done|].
    intros (ts' & [= -> ->] & Hlt). exfalso. lra.
Qed.

Lemma checker_lookup_iff (c : LiquidityLockChecker.Checker) (t : Q) (key : string)
    (r : LiquidityLockChecker.LiquidityLockInfo) :
  LiquidityLockChecker.cache_lookup c t key = Some r
  ↔ ∃ timestamp,
      LiquidityLockChecker.cache c !! key = Some (r, timestamp)
      ∧ (t - timestamp < LiquidityLockChecker.cache_ttl c)%Q.
Proof.
  unfold LiquidityLockChecker.cache_lookup.
  destruct (LiquidityLockChecker.cache c !! key) as [[r' ts]|]; [|naive_solver].
  destruct (Qlt_bool _ _) eqn:E.
  - apply Qlt_bool_true in E. split.
    + intros [= ->]. eauto.
    + intros (ts' & [= -> ->] & _). reflexivity.
  - apply Qlt_bool_false in E. split; [done|].
    intros (ts' & [= -> ->] & Hlt). exfalso. lra.
Qed.

Lemma verifier_lookup_stale (v : ContractVerifier.Verifier) (t : Q) (key : string)
    cached_time r :
  ContractVerifier.cache v !! key = Some (cached_time, r) →
  (ContractVerifier.cache_ttl v <= t - cached_time)%Q →
  ContractVerifier.cache_lookup v t key = None.
Proof.
  intros Hk Hstale.
  destruct (ContractVerifier.cache_lookup v t key) as [r'|] eqn:E; [|reflexivity].
  apply verifier_lookup_iff in E as (ts & Hk' & Hlt).
  rewrite Hk in Hk'. injection Hk' as <- <-. exfalso. lra.
Qed.

Lemma checker_lookup_stale (c : LiquidityLockChecker.Checker) (t : Q) (key : string)
    timestamp r :
  LiquidityLockChecker.cache c !! key = Some (r, timestamp) →
  (LiquidityLockChecker.cache_ttl c <= t - timestamp)%Q →
  LiquidityLockChecker.cache_lookup c t key = None.
Proof.
  intros Hk Hstale.
  destruct (LiquidityLockChecker.cache_lookup c t key) as [r'|] eqn:E; [|reflexivity].
  apply checker_lookup_iff in E as (ts & Hk' & Hlt).
  rewrite Hk in Hk'. injection Hk' as <- <-. exfalso. lra.
Qed.

Lemma blind_goplus_security cfg env a c :
  cache_blind (ContractVerifier.await (ContractVerifier._check_goplus_security cfg env a c)).
Proof. unfold ContractVerifier._check_goplus_security. blind_tac. Qed.

Lemma blind_fallback_sources cfg env a c :
  cache_blind (ContractVerifier.await (ContractVerifier._check_fallback_sources cfg env a c)).
Proof.
  unfold ContractVerifier._check_fallback_sources,
    ContractVerifier._check_etherscan_public, ContractVerifier._check_bscscan_public.
  blind_tac.
Qed.

Lemma blind_endpoints env a eps :
  cache_blind (ContractVerifier.await (ContractVerifier.solana_endpoints_loop env a eps)).
Proof.
  induction eps as [|e eps IH]; cbn [ContractVerifier.solana_endpoints_loop]; blind_tac.
  apply IH.
Qed.

Lemma blind_solana_contract cfg env a :
  cache_blind (ContractVerifier.await (ContractVerifier._check_solana_contract cfg env a)).
Proof.
  unfold ContractVerifier._check_solana_contract.
  apply blind_bind; [apply blind_respect|intros _]. apply blind_endpoints.
Qed.

Lemma blind_multi_source_checks cfg env a c :
  cache_blind (ContractVerifier.await (ContractVerifier.multi_source_checks cfg env a c)).
Proof.
  unfold ContractVerifier.multi_source_checks. cbv zeta.
  apply blind_bind; [apply blind_goplus_security|intros g].
  apply blind_bind.
  - destruct (_ || _); [|apply blind_ret].
    apply blind_bind; [apply blind_fallback_sources|intros fb; apply blind_ret].
  - intros r. destruct (String.eqb c "solana"); [|apply blind_ret].
    apply blind_bind; [apply blind_solana_contract|intros s; apply blind_ret].
Qed.

(** The world after [self.cache[key] = (time.time(), r)]. *)
Definition stored (key : string) (r : ContractVerifier.ContractVerificationResult)
    (w : ContractVerifier.World) : ContractVerifier.World :=
  {| ContractVerifier.now := ContractVerifier.now w;
     ContractVerifier.trace := ContractVerifier.trace w;
     ContractVerifier.self :=
       ContractVerifier.cache_store (ContractVerifier.now w) key r
         (ContractVerifier.self w) |}.

(** [verify_contract_multi_source] awaited: the cached result on a hit;
    on a miss the sources are asked and their result is stored. *)
Lemma multi_source_run cfg env a c (w : ContractVerifier.World) :
  ContractVerifier.await (ContractVerifier.verify_contract_multi_source cfg env a c) w
  = match ContractVerifier.cache_lookup (ContractVerifier.self w)
            (ContractVerifier.now w) (ContractVerifier.cache_key c a) with
    | Some r => (r, w)
    | None =>
        let out :=
          ContractVerifier.await (ContractVerifier.multi_source_checks cfg env a c) w in
        (out.1, stored (ContractVerifier.cache_key c a) out.1 out.2)
    end.
Proof.
  unfold ContractVerifier.verify_contract_multi_source. cbv zeta.
  rewrite await_bind, await_lift. cbn [ContractVerifier.time_time fst snd].
  rewrite await_bind, await_lift. cbn [ContractVerifier.get_self fst snd].
  destruct (ContractVerifier.cache_lookup _ _ _); [reflexivity|].
  rewrite await_bind.
  destruct (ContractVerifier.await (ContractVerifier.multi_source_checks cfg env a c) w)
    as [r w1].
  cbn [fst snd]. rewrite await_bind, await_lift.
  unfold ContractVerifier.cache_put. repeat (rewrite bind_run; cbn). reflexivity.
Qed.

(** The world without the cache entry of [key]. *)
Definition without_entry (key : string) (w : ContractVerifier.World)
    : ContractVerifier.World :=
  with_cache (delete key (ContractVerifier.cache (ContractVerifier.self w)))
    (ContractVerifier.cache_ttl (ContractVerifier.self w)) w.

(** The checker without the cache entry of [key]. *)
Definition checker_without_entry (key : string) (c : LiquidityLockChecker.Checker)
    : LiquidityLockChecker.Checker :=
  LiquidityLockChecker.set_cache (delete key (LiquidityLockChecker.cache c)) c.

Lemma multi_source_as_absent cfg env a c (w : ContractVerifier.World) :
  ContractVerifier.cache_lookup (ContractVerifier.self w) (ContractVerifier.now w)
    (ContractVerifier.cache_key c a) = None →
  ContractVerifier.await (ContractVerifier.verify_contract_multi_source cfg env a c) w
  = ContractVerifier.await (ContractVerifier.verify_contract_multi_source cfg env a c)
      (without_entry (ContractVerifier.cache_key c a) w).
Proof.
  intros Hmiss. rewrite !multi_source_run. rewrite Hmiss.
  assert (Hmiss' : ContractVerifier.cache_lookup
                     (ContractVerifier.self (without_entry (ContractVerifier.cache_key c a) w))
                     (ContractVerifier.now (without_entry (ContractVerifier.cache_key c a) w))
                     (ContractVerifier.cache_key c a) = None).
  { unfold ContractVerifier.cache_lookup, without_entry. cbn.
    by rewrite lookup_delete_eq. }
  rewrite Hmiss'. cbv zeta. unfold without_entry.
  rewrite (blind_multi_source_checks cfg env a c w). cbn [fst snd].
  destruct (blind_keeps _ w (blind_multi_source_checks cfg env a c)) as [Hc Ht].
  destruct (ContractVerifier.await (ContractVerifier.multi_source_checks cfg env a c) w)
    as [res [n tr [ch ttl d l k rt]]].
  cbn in Hc, Ht. subst ch ttl.
  unfold stored, with_cache, ContractVerifier.cache_store, ContractVerifier.set_cache.
  cbn. by rewrite insert_delete_eq.
Qed.

Lemma multi_source_miss cfg env a c (w : ContractVerifier.World) :
  ContractVerifier.cache_lookup (ContractVerifier.self w) (ContractVerifier.now w)
    (ContractVerifier.cache_key c a) = None →
  let out :=
    ContractVerifier.await (ContractVerifier.verify_contract_multi_source cfg env a c) w in
  ContractVerifier.cache (ContractVerifier.self out.2)
  = <[ContractVerifier.cache_key c a := (ContractVerifier.now out.2, out.1)]>
      (ContractVerifier.cache (ContractVerifier.self w))
  ∧ ContractVerifier.cache_ttl (ContractVerifier.self out.2)
    = ContractVerifier.cache_ttl (ContractVerifier.self w).
Proof.
  intros Hmiss. cbv zeta. rewrite multi_source_run, Hmiss. cbv zeta. cbn [fst snd].
  destruct (blind_keeps _ w (blind_multi_source_checks cfg env a c)) as [Hc Ht].
  cbn. by rewrite Hc, Ht.
Qed.

Lemma multi_source_hit cfg env a c (w : ContractVerifier.World) cached_time r :
  ContractVerifier.cache (ContractVerifier.self w) !! ContractVerifier.cache_key c a
  = Some (cached_time, r) →
  (ContractVerifier.now w - cached_time
   < ContractVerifier.cache_ttl (ContractVerifier.self w))%Q →
  ContractVerifier.await (ContractVerifier.verify_contract_multi_source cfg env a c) w
  = (r, w).
Proof.
  intros Hk Hfresh. rewrite multi_source_run.
  assert (H : ContractVerifier.cache_lookup (ContractVerifier.self w)
                (ContractVerifier.now w) (ContractVerifier.cache_key c a) = Some r)
    by (apply verifier_lookup_iff; eauto).
  by rewrite H.
Qed.

Lemma checker_as_absent (c : LiquidityLockChecker.Checker) clk a p n :
  LiquidityLockChecker.cache_lookup c (LiquidityLockChecker.t_lookup clk)
    (LiquidityLockChecker.lock_cache_key a p n) = None →
  LiquidityLockChecker.check_liquidity_lock c clk a p n
  = LiquidityLockChecker.check_liquidity_lock
      (checker_without_entry (LiquidityLockChecker.lock_cache_key a p n) c) clk a p n.
Proof.
  intros Hmiss. unfold LiquidityLockChecker.check_liquidity_lock. cbv zeta.
  rewrite Hmiss.
  assert (Hmiss' : LiquidityLockChecker.cache_lookup
                     (checker_without_entry (LiquidityLockChecker.lock_cache_key a p n) c)
                     (LiquidityLockChecker.t_lookup clk)
                     (LiquidityLockChecker.lock_cache_key a p n) = None).
  { unfold LiquidityLockChecker.cache_lookup, checker_without_entry. cbn.
    by rewrite lookup_delete_eq. }
  rewrite Hmiss'.
  assert (Ha : ∀ t i,
            LiquidityLockChecker._analyze_lock_safety
              (checker_without_entry (LiquidityLockChecker.lock_cache_key a p n) c) t i
            = LiquidityLockChecker._analyze_lock_safety c t i) by reflexivity.
  rewrite Ha. f_equal.
  unfold checker_without_entry, LiquidityLockChecker.cache_store,
    LiquidityLockChecker.set_cache.
  cbn [LiquidityLockChecker.cache LiquidityLockChecker.cache_ttl
       LiquidityLockChecker.min_lock_percentage LiquidityLockChecker.min_lock_days
       LiquidityLockChecker.safe_lock_days].
  rewrite insert_delete_eq. reflexivity.
Qed.

(** C5: both caches keep an entry for [cache_ttl] seconds.  For
    [verify_contract_multi_source] and for [check_liquidity_lock]:
    - an entry stored less than [cache_ttl] before the call is returned
      and the call changes nothing (the verifier asks no source);
    - an entry stored [cache_ttl] or more before the call is a miss: the
      call does what it does when the entry is absent;
    - a call that finds no entry to use stores its result under its own
      key with the time of the store, and changes no other entry of the
      cache;
    - the same call made right after such a store, the clock not having
      moved, returns the stored result and changes nothing;
    - no call removes a key: what was cached, stale or not, is still
      cached afterwards. *)
Theorem ttl_cache_correct :
  (∀ cfg env a c w cached_time r,
     ContractVerifier.cache (ContractVerifier.self w) !! ContractVerifier.cache_key c a
     = Some (cached_time, r) →
     (ContractVerifier.now w - cached_time
      < ContractVerifier.cache_ttl (ContractVerifier.self w))%Q →
     ContractVerifier.await (ContractVerifier.verify_contract_multi_source cfg env a c) w
     = (r, w))
  ∧ (∀ cfg env a c w cached_time r,
     ContractVerifier.cache (ContractVerifier.self w) !! ContractVerifier.cache_key c a
     = Some (cached_time, r) →
     (ContractVerifier.cache_ttl (ContractVerifier.self w)
      <= ContractVerifier.now w - cached_time)%Q →
     ContractVerifier.await (ContractVerifier.verify_contract_multi_source cfg env a c) w
     = ContractVerifier.await (ContractVerifier.verify_contract_multi_source cfg env a c)
         (without_entry (ContractVerifier.cache_key c a) w))
  ∧ (∀ cfg env a c w,
     (∀ cached_time r,
        ContractVerifier.cache (ContractVerifier.self w) !! ContractVerifier.cache_key c a
        = Some (cached_time, r) →
        (ContractVerifier.cache_ttl (ContractVerifier.self w)
         <= ContractVerifier.now w - cached_time)%Q) →
     let out :=
       ContractVerifier.await
         (ContractVerifier.verify_contract_multi_source cfg env a c) w in
     ContractVerifier.cache (ContractVerifier.self out.2)
     = <[ContractVerifier.cache_key c a := (ContractVerifier.now out.2, out.1)]>
         (ContractVerifier.cache (ContractVerifier.self w))
     ∧ ((0 < ContractVerifier.cache_ttl (ContractVerifier.self w))%Q →
        ContractVerifier.await
          (ContractVerifier.verify_contract_multi_source cfg env a c) out.2
        = (out.1, out.2)))
  ∧ (∀ cfg env a c w k,
     is_Some (ContractVerifier.cache (ContractVerifier.self w) !! k) →
     is_Some (ContractVerifier.cache (ContractVerifier.self
                (ContractVerifier.await
                   (ContractVerifier.verify_contract_multi_source cfg env a c) w).2) !! k))
  ∧ (∀ c clk a p n timestamp info,
     LiquidityLockChecker.cache c !! LiquidityLockChecker.lock_cache_key a p n
     = Some (info, timestamp) →
     (LiquidityLockChecker.t_lookup clk - timestamp
      < LiquidityLockChecker.cache_ttl c)%Q →
     LiquidityLockChecker.check_liquidity_lock c clk a p n = (info, c))
  ∧ (∀ c clk a p n timestamp info,
     LiquidityLockChecker.cache c !! LiquidityLockChecker.lock_cache_key a p n
     = Some (info, timestamp) →
     (LiquidityLockChecker.cache_ttl c
      <= LiquidityLockChecker.t_lookup clk - timestamp)%Q →
     LiquidityLockChecker.check_liquidity_lock c clk a p n
     = LiquidityLockChecker.check_liquidity_lock
         (checker_without_entry (LiquidityLockChecker.lock_cache_key a p n) c)
         clk a p n)
  ∧ (∀ c clk clk' a p n,
     (∀ timestamp info,
        LiquidityLockChecker.cache c !! LiquidityLockChecker.lock_cache_key a p n
        = Some (info, timestamp) →
        (LiquidityLockChecker.cache_ttl c
         <= LiquidityLockChecker.t_lookup clk - timestamp)%Q) →
     let out := LiquidityLockChecker.check_liquidity_lock c clk a p n in
     LiquidityLockChecker.cache out.2
     = <[LiquidityLockChecker.lock_cache_key a p n
         := (out.1, LiquidityLockChecker.t_store clk)]> (LiquidityLockChecker.cache c)
     ∧ ((0 < LiquidityLockChecker.cache_ttl c)%Q →
        LiquidityLockChecker.t_lookup clk' = LiquidityLockChecker.t_store clk →
        LiquidityLockChecker.check_liquidity_lock out.2 clk' a p n = (out.1, out.2)))
  ∧ (∀ c clk a p n k,
     is_Some (LiquidityLockChecker.cache c !! k) →
     is_Some (LiquidityLockChecker.cache
                (LiquidityLockChecker.check_liquidity_lock c clk a p n).2 !! k)).
Proof.
  assert (Vmiss : ∀ (w : ContractVerifier.World) key,
            (∀ cached_time r,
               ContractVerifier.cache (ContractVerifier.self w) !! key
               = Some (cached_time, r) →
               (ContractVerifier.cache_ttl (ContractVerifier.self w)
                <= ContractVerifier.now w - cached_time)%Q) →
            ContractVerifier.cache_lookup (ContractVerifier.self w)
              (ContractVerifier.now w) key = None).
  { intros w key H.
    destruct (ContractVerifier.cache (ContractVerifier.self w) !! key) as [[ts r]|] eqn:E.
    - eapply verifier_lookup_stale; [exact E|]. by eapply H.
    - unfold ContractVerifier.cache_lookup. by rewrite E. }
  assert (Lmiss : ∀ (c : LiquidityLockChecker.Checker) t key,
            (∀ timestamp info,
               LiquidityLockChecker.cache c !! key = Some (info, timestamp) →
               (LiquidityLockChecker.cache_ttl c <= t - timestamp)%Q) →
            LiquidityLockChecker.cache_lookup c t key = None).
  { intros c t key H.
    destruct (LiquidityLockChecker.cache c !! key) as [[r ts]|] eqn:E.
    - eapply checker_lookup_stale; [exact E|]. by eapply H.
    - unfold LiquidityLockChecker.cache_lookup. by rewrite E. }
  repeat apply conj.
  - intros cfg env a c w ts r Hk Hfresh. by eapply multi_source_hit.
  - intros cfg env a c w ts r Hk Hstale. apply multi_source_as_absent.
    by eapply verifier_lookup_stale.
  - intros cfg env a c w Hnone out. subst out.
    destruct (multi_source_miss cfg env a c w (Vmiss _ _ Hnone)) as [Hc Ht].
    cbv zeta in Hc, Ht. split; [exact Hc|].
    intros Httl. eapply multi_source_hit.
    + rewrite Hc. apply lookup_insert_eq.
    + rewrite Ht. lra.
  - intros cfg env a c w k Hk. rewrite multi_source_run.
    destruct (ContractVerifier.cache_lookup _ _ _) eqn:E; [exact Hk|].
    destruct (multi_source_miss cfg env a c w E) as [Hc _].
    cbv zeta in Hc. rewrite multi_source_run, E in Hc. rewrite Hc.
    destruct (decide (ContractVerifier.cache_key c a = k)) as [->|Hne].
    + rewrite lookup_insert_eq. eauto.
    + by rewrite lookup_insert_ne.
  - intros c clk a p n ts info Hk Hfresh.
    unfold LiquidityLockChecker.check_liquidity_lock. cbv zeta.
    assert (H : LiquidityLockChecker.cache_lookup c (LiquidityLockChecker.t_lookup clk)
                  (LiquidityLockChecker.lock_cache_key a p n) = Some info)
      by (apply checker_lookup_iff; eauto).
    by rewrite H.
  - intros c clk a p n ts info Hk Hstale. apply checker_as_absent.
    by eapply checker_lookup_stale.
  - intros c clk clk' a p n Hnone out. subst out.
    assert (Hfirst : ∃ info,
              LiquidityLockChecker.check_liquidity_lock c clk a p n
              = (info, LiquidityLockChecker.cache_store (LiquidityLockChecker.t_store clk)
                         (LiquidityLockChecker.lock_cache_key a p n) info c)).
    { unfold LiquidityLockChecker.check_liquidity_lock. rewrite (Lmiss _ _ _ Hnone).
      eexists. reflexivity. }
    destruct Hfirst as [info ->]. cbn [fst snd].
    split; [reflexivity|]. intros Httl Hclk.
    assert (Hhit : LiquidityLockChecker.cache_lookup
                     (LiquidityLockChecker.cache_store (LiquidityLockChecker.t_store clk)
                        (LiquidityLockChecker.lock_cache_key a p n) info c)
                     (LiquidityLockChecker.t_lookup clk')
                     (LiquidityLockChecker.lock_cache_key a p n) = Some info).
    { apply checker_lookup_iff. exists (LiquidityLockChecker.t_store clk).
      split; [cbn; apply lookup_insert_eq|]. rewrite Hclk. cbn. lra. }
    unfold LiquidityLockChecker.check_liquidity_lock. rewrite Hhit. reflexivity.
  - intros c clk a p n k Hk. unfold LiquidityLockChecker.check_liquidity_lock.
    destruct (LiquidityLockChecker.cache_lookup _ _ _); [exact Hk|].
    simpl.
    destruct (decide (LiquidityLockChecker.lock_cache_key a p n = k)) as [->|Hne].
    + rewrite lookup_insert_eq. eauto.
    + by rewrite lookup_insert_ne.
Qed.

(** A verifier that cached a result for an address when the clock read 5. *)
Definition cached_world (t : Q) : ContractVerifier.World :=
  {| ContractVerifier.now := t;
     ContractVerifier.trace := [];
     ContractVerifier.self :=
       ContractVerifier.cache_store 5%Q (ContractVerifier.cache_key "ethereum" "0xAbC")
         ContractVerifier.default_result (ContractVerifier.init default_config 0) |}.

Lemma ttl_cache_correct_witness :
  ContractVerifier.await
    (ContractVerifier.verify_contract_multi_source default_config Scenarios.failing_env
       "0xAbC" "ethereum") (cached_world 3604)
  = (ContractVerifier.default_result, cached_world 3604)
  ∧ ContractVerifier.await
      (ContractVerifier.verify_contract_multi_source default_config Scenarios.failing_env
         "0xAbC" "ethereum") (cached_world 3605)
    = ContractVerifier.await
        (ContractVerifier.verify_contract_multi_source default_config Scenarios.failing_env
           "0xAbC" "ethereum")
        (without_entry (ContractVerifier.cache_key "ethereum" "0xAbC") (cached_world 3605)).
Proof.
  split.
  - apply (proj1 ttl_cache_correct default_config Scenarios.failing_env
             "0xAbC" "ethereum" (cached_world 3604) 5%Q ContractVerifier.default_result);
      reflexivity.
  - apply (proj1 (proj2 ttl_cache_correct) default_config Scenarios.failing_env
             "0xAbC" "ethereum" (cached_world 3605) 5%Q ContractVerifier.default_result).
    + reflexivity.
    + cbn. lra.
Defined.

End Caches.

(** ** What a coroutine returns, whatever runs in between *)

Section Yields.
Import ContractVerifier.

(** Every value that [c] can return satisfies [P], whatever state the
    steps of [c] find: the other tasks may have changed it at the
    awaits. *)
Fixpoint yields {A : Type} (P : A → Prop) (c : Co A) : Prop :=
  match c with
  | Done a => P a
  | Act m k => ∀ w, yields P (k (m w).1)
  | Sleep _ k => yields P k
  | Wait k => yields P k
  end.

Lemma yields_ret {A : Type} (P : A → Prop) (a : A) : P a → yields P (mret a).
Proof. intros H. exact H. Qed.

Lemma yields_bind {A B : Type} (Q : A → Prop) (P : B → Prop) (c : Co A) (f : A → Co B) :
  yields Q c → (∀ a, Q a → yields P (f a)) → yields P (c ≫= f).
Proof.
  intros Hc Hf. unfold mbind, Co_bind.
  induction c as [a|X m k IH|d k IH|k IH]; cbn [co_bind yields] in *.
  - by apply Hf.
  - intros w. apply IH, Hc.
  - by apply IH.
  - by apply IH.
Qed.

Lemma yields_mono {A : Type} (P Q : A → Prop) (c : Co A) :
  (∀ a, P a → Q a) → yields P c → yields Q c.
Proof.
  intros HPQ. induction c as [a|X m k IH|d k IH|k IH]; cbn [yields].
  - apply HPQ.
  - intros H w. apply IH, H.
  - apply IH.
  - apply IH.
Qed.

Lemma yields_and {A : Type} (P Q : A → Prop) (c : Co A) :
  yields P c → yields Q c → yields (λ a, P a ∧ Q a) c.
Proof.
  induction c as [a|X m k IH|d k IH|k IH]; cbn [yields]; auto.
Qed.

Lemma yields_forall {A X : Type} (P : X → A → Prop) (c : Co A) :
  (∀ x, yields (P x) c) → yields (λ a, ∀ x, P x a) c.
Proof.
  induction c as [a|Y m k IH|d k IH|k IH]; cbn [yields]; auto.
Qed.

Lemma yields_impl {A : Type} (H : Prop) (P : A → Prop) (c : Co A) :
  (H → yields P c) → yields (λ a, H → P a) c.
Proof.
  induction c as [a|Y m k IH|d k IH|k IH]; cbn [yields]; auto.
Qed.

Lemma yields_true {A : Type} (c : Co A) : yields (λ _, True) c.
Proof. induction c as [a|X m k IH|d k IH|k IH]; cbn [yields]; auto. Qed.

(** After a coroutine of which the value does not matter. *)
Lemma yields_then {A B : Type} (P : B → Prop) (c : Co A) (f : A → Co B) :
  (∀ a, yields P (f a)) → yields P (c ≫= f).
Proof. intros Hf. eapply yields_bind; [apply yields_true|]. intros a _. apply Hf. Qed.

Lemma yields_dispatch {A : Type} (api : ApiType) (answer : A) :
  yields (eq answer) (dispatch api answer).
Proof. intros w. reflexivity. Qed.

Lemma yields_await {A : Type} (P : A → Prop) (c : Co A) (w : World) :
  yields P c → P (await c w).1.
Proof.
  revert w. induction c as [a|X m k IH|d k IH|k IH]; intros w H; cbn [await yields] in *.
  - exact H.
  - rewrite bind_run. apply IH, H.
  - rewrite bind_run. by apply IH.
  - by apply IH.
Qed.

(** The same for a task of the event loop, wherever it stands. *)
Definition task_yields {A : Type} (P : A → Prop) (task : Task A) : Prop :=
  match task with
  | Pending c => yields P c
  | Sleeping _ k => yields P k
  | Waiting k => yields P k
  | Finished a => P a
  end.

Lemma advance_yields {A : Type} (P : A → Prop) (c : Co A) (w : World) :
  yields P c → task_yields P (advance c w).1.
Proof.
  revert w. induction c as [a|X m k IH|d k IH|k IH]; intros w H;
    cbn [advance yields] in *.
  - exact H.
  - rewrite bind_run. apply IH, H.
  - exact H.
  - exact H.
Qed.

Lemma resume_yields {A : Type} (P : A → Prop) (t : Q) (task : Task A) (w : World) :
  task_yields P task → task_yields P (resume t task w).1.
Proof.
  destruct task as [c|wake k|k|a]; cbn [resume task_yields]; intros H.
  - rewrite bind_run. by apply advance_yields.
  - rewrite !bind_run. by apply advance_yields.
  - rewrite bind_run. by apply advance_yields.
  - exact H.
Qed.

Lemma event_loop_steps_yields {A : Type} (Ps : list (A → Prop)) slots steps
    (tasks : list (Task A)) (w : World) :
  Forall2 (λ task P, task_yields P task) tasks Ps →
  Forall2 (λ task P, task_yields P task) (event_loop_steps slots steps tasks w).1 Ps.
Proof.
  revert tasks w. induction steps as [|[i t] steps IH]; intros tasks w H;
    cbn [event_loop_steps].
  - exact H.
  - destruct (tasks !! i) as [task|] eqn:Ei; [|by apply IH].
    destruct (_ && _); [by apply IH|].
    rewrite bind_run. apply IH.
    destruct (Forall2_lookup_l _ _ _ _ _ H Ei) as (P & HP & Hy).
    rewrite <- (list_insert_id Ps i P HP).
    apply Forall2_insert; [exact H|]. by apply resume_yields.
Qed.

Lemma finish_started_yields {A : Type} (Ps : list (A → Prop))
    (tasks : list (Task A)) (w : World) :
  Forall2 (λ task P, task_yields P task) tasks Ps →
  Forall2 (λ task P, task_yields P task) (mmap finish_started tasks w).1 Ps.
Proof.
  intros H. revert w. induction H as [|task P tasks Ps Hy H IH]; intros w; cbn [mmap].
  - constructor.
  - rewrite !bind_run. cbn [mret M_ret fst snd]. constructor; [|apply IH].
    destruct task as [c|wake k|k|a]; cbn [finish_started task_yields] in *.
    + exact Hy.
    + rewrite !bind_run. cbn [mret M_ret fst]. by apply yields_await.
    + rewrite !bind_run. cbn [mret M_ret fst]. by apply yields_await.
    + exact Hy.
Qed.

Lemma finish_yields {A : Type} (Ps : list (A → Prop)) (tasks : list (Task A))
    (w : World) :
  Forall2 (λ task P, task_yields P task) tasks Ps →
  Forall2 (λ a (P : A → Prop), P a) (mmap finish tasks w).1 Ps.
Proof.
  intros H. revert w. induction H as [|task P tasks Ps Hy H IH]; intros w; cbn [mmap].
  - constructor.
  - rewrite !bind_run. cbn [mret M_ret fst snd]. constructor; [|apply IH].
    destruct task as [c|wake k|k|a]; cbn [finish task_yields] in *.
    + by apply yields_await.
    + rewrite bind_run. by apply yields_await.
    + by apply yields_await.
    + exact Hy.
Qed.

(** What every task returns in every state, [gather] returns for it,
    whatever the order of the event loop and the number of slots. *)
Lemma gather_yields {A : Type} (Ps : list (A → Prop)) slots steps
    (tasks : list (Co A)) (w : World) :
  Forall2 (λ c P, yields P c) tasks Ps →
  Forall2 (λ a (P : A → Prop), P a) (gather slots steps tasks w).1 Ps.
Proof.
  intros H. unfold gather. rewrite !bind_run.
  apply finish_yields, finish_started_yields, event_loop_steps_yields.
  apply Forall2_fmap_l. exact H.
Qed.

(** A coroutine returns one value, whatever runs in between. *)
Definition constant {A : Type} (c : Co A) : Prop := ∃ v, yields (eq v) c.

Lemma constant_ret {A : Type} (a : A) : constant (mret a).
Proof. by exists a. Qed.

Lemma constant_bind {A B : Type} (c : Co A) (f : A → Co B) :
  constant c → (∀ a, constant (f a)) → constant (c ≫= f).
Proof.
  intros [v Hv] Hf. destruct (Hf v) as [v' Hv']. exists v'.
  eapply yields_bind; [exact Hv|]. by intros a <-.
Qed.

Lemma constant_unit (c : Co unit) : constant c.
Proof.
  exists tt. eapply yields_mono; [|apply yields_true]. by intros [] _.
Qed.

Lemma constant_dispatch {A : Type} (api : ApiType) (answer : A) :
  constant (dispatch api answer).
Proof. exists answer. apply yields_dispatch. Qed.

Lemma constant_value {A : Type} (c : Co A) (w : World) :
  constant c → yields (eq (await c w).1) c.
Proof.
  intros [v Hv]. by rewrite <- (yields_await (eq v) c w Hv).
Qed.

End Yields.

Ltac constant_tac :=
  repeat first
    [ apply constant_ret
    | apply constant_unit
    | apply constant_dispatch
    | apply constant_bind; [|intros ?]
    | match goal with
      | |- constant (match ?x with _ => _ end) => destruct x
      end ].

(** ** Completeness of the batch verification *)

Section Batch.
Import ContractVerifier.

Abbreviation Results := (gmap string ContractVerificationResult).

(** The loop of [_process_batch_goplus] gets past [address]: the
    address is not listed in [goplus_result], or it is listed with a
    dictionary of which the creator or owner address is falsy or can be
    sliced for the log. *)
Definition entry_ok (goplus_result : JVal) (address : string) : bool :=
  match jcontains goplus_result (lower address) with
  | Returned true =>
      match jitem goplus_result (lower address) with
      | Returned (JObj token_info) =>
          negb (truthy (owner_address (goplus_result_of token_info)))
          || sliceable (owner_address (goplus_result_of token_info))
      | _ => false
      end
  | Returned false => true
  | Raised _ => false
  end.

(** The decoded body is a dictionary, and when it reports success the
    loop gets past every address of the batch. *)
Definition body_ok (addresses : list string) (data : JVal) : bool :=
  match goplus_success data with
  | Returned (Some goplus_result) => forallb (entry_ok goplus_result) addresses
  | Returned None => true
  | Raised _ => false
  end.

(** The batch of [addresses] on [chain] is answered: the chain is not
    served by GoPlus and goes to the fallback, or GoPlus answers the
    request with status 200 and a body that decodes and is [body_ok]. *)
Definition batch_answered (env : Env) (chain : string) (addresses : list string) : bool :=
  match chain_id chain with
  | None => true
  | Some cid =>
      match json_of (goplus_token_security env cid addresses) with
      | Returned (Some data) => body_ok addresses data
      | _ => false
      end
  end.

(** What the loop binds an address to. *)
Definition batch_entry (goplus_result : JVal) (address : string)
    : ContractVerificationResult :=
  match jcontains goplus_result (lower address), jitem goplus_result (lower address) with
  | Returned true, Returned (JObj token_info) =>
      set_verification_source "GoPlus Security" (goplus_result_of token_info)
  | _, _ => set_verification_source "GoPlus Security (не найден)" default_result
  end.

(** What a decoded body binds an address of the batch to. *)
Definition answer_entry (data : JVal) (address : string) : ContractVerificationResult :=
  match goplus_success data with
  | Returned (Some goplus_result) => batch_entry goplus_result address
  | _ => set_verification_source "GoPlus Security (ошибка API)" default_result
  end.

(** The addresses of a request, as a set. *)
Definition requested (contracts : list (string * string)) : gset string :=
  list_to_set (map fst contracts).

(** The batches that [verify_contracts_batch] makes of the contracts,
    each with its chain, in the order of its two loops. *)
Definition sent (cfg : Config) (contracts : list (string * string))
    : list (string * list string) :=
  flat_map (λ '(chain, addresses),
              map (λ batch, (chain, batch)) (batches (GOPLUS_BATCH_SIZE cfg) addresses))
    (group_by_chain contracts).

(** The task that [verify_contracts_batch] makes of a batch. *)
Definition batch_task (cfg : Config) (env : Env) (chain : string) (batch : list string)
    : Co (PyResult Results) :=
  _process_batch_with_progress
    (r ← _process_batch_goplus cfg env batch chain; mret (Returned r)).

Lemma yields_mfold_dom (f : Results → string → Co Results) l acc :
  (∀ acc a, yields (λ r, dom r = {[a]} ∪ dom acc) (f acc a)) →
  yields (λ r, dom r = list_to_set l ∪ dom acc) (mfold f l acc).
Proof.
  intros Hf. revert acc. induction l as [|a l IH]; intros acc; cbn [mfold].
  - apply yields_ret. set_solver.
  - eapply yields_bind; [apply Hf|]. intros acc' Hacc'. cbn beta in Hacc'.
    eapply yields_mono; [|apply IH]. intros r Hr. cbn beta in Hr.
    rewrite Hr, Hacc'. set_solver.
Qed.

Lemma yields_mfold_invariant {A S : Type} (I : S → Prop) (f : S → A → Co S) l acc :
  (∀ acc a, I acc → yields I (f acc a)) → I acc → yields I (mfold f l acc).
Proof.
  intros Hf. revert acc. induction l as [|a l IH]; intros acc Hacc; cbn [mfold].
  - exact Hacc.
  - eapply yields_bind; [by apply Hf|]. intros acc' Hacc'. by apply IH.
Qed.

Lemma fold_left_insert_lookup (r : ContractVerificationResult) l (acc : Results) a :
  fold_left (λ results address, <[address := r]> results) l acc !! a
  = if decide (a ∈ l) then Some r else acc !! a.
Proof.
  revert acc. induction l as [|b l IH]; intros acc; cbn [fold_left].
  - rewrite decide_False by apply not_elem_of_nil. reflexivity.
  - rewrite IH. destruct (decide (a ∈ l)) as [Hin|Hnin].
    + rewrite decide_True by (by right). reflexivity.
    + destruct (decide (a = b)) as [->|Hne].
      * rewrite decide_True by left. apply lookup_insert_eq.
      * rewrite decide_False by (intros H; apply elem_of_cons in H as [?|?]; done).
        by rewrite lookup_insert_ne.
Qed.

(** A dictionary that binds the addresses of a batch, and these only. *)
Lemma dom_of_lookup (d : Results) (l : list string)
    (g : string → ContractVerificationResult) :
  (∀ a, d !! a = if decide (a ∈ l) then Some (g a) else None) →
  dom d = list_to_set l.
Proof.
  intros H. apply set_eq. intros a. rewrite elem_of_dom, H, elem_of_list_to_set.
  destruct (decide (a ∈ l)); split; try done.
Qed.

Lemma fallback_dom cfg env addresses chain :
  yields (λ d, dom d = list_to_set addresses)
    (_process_batch_fallback cfg env addresses chain).
Proof.
  unfold _process_batch_fallback.
  eapply yields_mono; [|apply yields_mfold_dom].
  - intros d Hd. cbn beta in Hd. rewrite Hd. set_solver.
  - intros acc a. apply yields_then. intros result. apply yields_then. intros _.
    apply yields_ret. apply dom_insert_L.
Qed.

(** The value of the loop of [_process_batch_goplus]: the dictionary of
    all the addresses when the loop gets past each of them, an exception
    otherwise. *)
Lemma goplus_loop_yields chain goplus_result l (acc : Results) :
  yields (λ r, match r with
               | Returned d =>
                   forallb (entry_ok goplus_result) l = true
                   ∧ ∀ a, d !! a = if decide (a ∈ l)
                                   then Some (batch_entry goplus_result a)
                                   else acc !! a
               | Raised _ => forallb (entry_ok goplus_result) l = false
               end)
    (goplus_loop chain goplus_result l acc).
Proof.
  revert acc. induction l as [|address rest IH]; intros acc;
    cbn [goplus_loop forallb].
  - apply yields_ret. split; [reflexivity|]. intros a.
    rewrite decide_False by apply not_elem_of_nil. reflexivity.
  - assert (Hstep : ∀ res,
              batch_entry goplus_result address = res →
              entry_ok goplus_result address = true →
              yields (λ r, match r with
                | Returned d =>
                    true && forallb (entry_ok goplus_result) rest = true
                    ∧ ∀ a, d !! a = if decide (a ∈ address :: rest)
                                    then Some (batch_entry goplus_result a)
                                    else acc !! a
                | Raised _ => true && forallb (entry_ok goplus_result) rest = false
                end)
                (goplus_loop chain goplus_result rest (<[address := res]> acc))).
    { intros res Hres Hok. eapply yields_mono; [|apply IH].
      intros [d|e]; [|done]. intros [Hall Hd]. split; [exact Hall|].
      intros a. rewrite Hd.
      destruct (decide (a ∈ rest)) as [Hin|Hnin].
      - rewrite decide_True by (by right). reflexivity.
      - destruct (decide (a = address)) as [->|Hne].
        + rewrite decide_True by left. rewrite lookup_insert_eq. by rewrite Hres.
        + rewrite decide_False by (intros H; apply elem_of_cons in H as [?|?]; done).
          by rewrite lookup_insert_ne. }
    unfold entry_ok at 1 3.
    destruct (jcontains goplus_result (lower address)) as [[|]|e] eqn:Ec.
    + destruct (jitem goplus_result (lower address)) as [token_info|e] eqn:Ei;
        cbn [mbind PyResult_bind]; [|by apply yields_ret].
      destruct token_info as [| | | | |d]; cbn [goplus_fields]; try by apply yields_ret.
      cbv zeta. apply yields_then. intros _.
      change (owner_address (set_verification_source "GoPlus Security" (goplus_result_of d)))
        with (owner_address (goplus_result_of d)).
      destruct (negb (truthy (owner_address (goplus_result_of d)))
                || sliceable (owner_address (goplus_result_of d))) eqn:E.
      * apply Hstep.
        -- unfold batch_entry. by rewrite Ec, Ei.
        -- unfold entry_ok. by rewrite Ec, Ei.
      * by apply yields_ret.
    + cbv zeta. apply Hstep.
      * unfold batch_entry. by rewrite Ec.
      * unfold entry_ok. by rewrite Ec.
    + by apply yields_ret.
Qed.

(** The value of the [try] of [_process_batch_goplus]. *)
Lemma goplus_batch_of_yields chain addresses data :
  yields (λ r, match r with
               | Returned d =>
                   body_ok addresses data = true
                   ∧ ∀ a, d !! a = if decide (a ∈ addresses)
                                   then Some (answer_entry data a) else None
               | Raised _ => body_ok addresses data = false
               end)
    (goplus_batch_of chain addresses data).
Proof.
  unfold goplus_batch_of, body_ok, answer_entry.
  destruct (goplus_success data) as [[goplus_result|]|e].
  - eapply yields_mono; [|apply goplus_loop_yields].
    intros [d|e]; [|done]. intros [Hall Hd]. split; [exact Hall|].
    intros a. rewrite Hd. by destruct (decide (a ∈ addresses)).
  - apply yields_ret. split; [reflexivity|]. intros a.
    rewrite fold_left_insert_lookup. by destruct (decide (a ∈ addresses)).
  - by apply yields_ret.
Qed.

(** The two ways of [_process_batch_goplus]. *)
Lemma process_batch_goplus_cases cfg env addresses chain (P : Results → Prop) :
  (chain_id chain = None → yields P (_process_batch_fallback cfg env addresses chain)) →
  (∀ cid, chain_id chain = Some cid →
     match json_of (goplus_token_security env cid addresses) with
     | Returned (Some data) =>
         yields (λ r, P (match r with Returned d => d | Raised _ => ∅ end))
           (goplus_batch_of chain addresses data)
     | _ => P ∅
     end) →
  yields P (_process_batch_goplus cfg env addresses chain).
Proof.
  intros Hfb Hgp. unfold _process_batch_goplus. apply yields_then. intros _.
  destruct (chain_id chain) as [cid|]; [|by apply Hfb].
  specialize (Hgp cid eq_refl).
  eapply yields_bind; [apply yields_dispatch|]. intros o <-.
  destruct (json_of (goplus_token_security env cid addresses)) as [[data|]|e].
  - eapply yields_bind; [exact Hgp|]. intros r Hr. by apply yields_ret.
  - by apply yields_ret.
  - by apply yields_ret.
Qed.

(** The key set of one batch: all of its addresses when the batch is
    answered, none otherwise. *)
Lemma process_batch_goplus_dom cfg env addresses chain :
  yields (λ d, dom d = if batch_answered env chain addresses
                       then list_to_set addresses else ∅)
    (_process_batch_goplus cfg env addresses chain).
Proof.
  apply process_batch_goplus_cases.
  - intros Hc. unfold batch_answered. rewrite Hc. apply fallback_dom.
  - intros cid Hc. unfold batch_answered. rewrite Hc.
    destruct (json_of (goplus_token_security env cid addresses)) as [[data|]|e];
      [|apply dom_empty_L..].
    eapply yields_mono; [|apply goplus_batch_of_yields].
    intros [d|e].
    + intros [-> Hd]. by eapply dom_of_lookup.
    + intros ->. apply dom_empty_L.
Qed.

(** What a batch that GoPlus answers binds its addresses to. *)
Lemma process_batch_goplus_entries cfg env addresses chain cid data :
  chain_id chain = Some cid →
  goplus_token_security env cid addresses = HttpResponse 200 (Returned data) →
  body_ok addresses data = true →
  yields (λ d, ∀ a, d !! a = if decide (a ∈ addresses)
                             then Some (answer_entry data a) else None)
    (_process_batch_goplus cfg env addresses chain).
Proof.
  intros Hc Hg Hok. apply process_batch_goplus_cases; [congruence|].
  intros cid' Hc'. assert (cid' = cid) as -> by congruence.
  rewrite Hg. cbn.
  eapply yields_mono; [|apply goplus_batch_of_yields].
  intros [d|e]; [by intros [_ Hd]|]. intros He. congruence.
Qed.

(** A task of the batch verification returns the dictionary of its
    batch. *)
Lemma batch_task_yields cfg env chain batch (P : Results → Prop) :
  yields P (_process_batch_goplus cfg env batch chain) →
  yields (λ r, ∃ d, r = Returned d ∧ P d) (batch_task cfg env chain batch).
Proof.
  intros H. unfold batch_task, _process_batch_with_progress.
  eapply yields_bind.
  - eapply yields_bind; [exact H|]. intros d Hd.
    apply (yields_ret (λ r, ∃ d, r = Returned d ∧ P d)). eauto.
  - intros r (d & -> & Hd). apply yields_ret. eauto.
Qed.

Lemma merge_results_returned (results : Results) (ds : list Results) :
  merge_results results (map Returned ds) = fold_left (λ acc d, d ∪ acc) ds results.
Proof.
  unfold merge_results. revert results.
  induction ds as [|d ds IH]; intros results; cbn [map fold_left]; [reflexivity|].
  apply IH.
Qed.

Lemma returned_list {A B : Type} (P : A → B → Prop) (l : list A) (rs : list (PyResult B)) :
  Forall2 (λ r x, ∃ d, r = Returned d ∧ P x d) rs l →
  ∃ ds, rs = map Returned ds ∧ Forall2 P l ds.
Proof.
  induction 1 as [|r x rs l (d & -> & Hd) _ (ds & -> & Hds)].
  - exists []. split; [reflexivity|constructor].
  - exists (d :: ds). split; [reflexivity|by constructor].
Qed.

(** The dictionaries of the batches of one chain, gathered. *)
Lemma gather_batches cfg env chain (P : list string → Results → Prop)
    (bs : list (list string)) slots steps w :
  (∀ b, yields (P b) (_process_batch_goplus cfg env b chain)) →
  ∃ ds, (gather slots steps
           (map (λ batch,
                   _process_batch_with_progress
                     (r ← _process_batch_goplus cfg env batch chain; mret (Returned r)))
              bs) w).1
        = map Returned ds
        ∧ Forall2 P bs ds.
Proof.
  intros HP. apply returned_list.
  pose proof (gather_yields
                (map (λ b (r : PyResult Results), ∃ d, r = Returned d ∧ P b d) bs)
                slots steps
                (map (batch_task cfg env chain) bs) w) as H.
  assert (Hpre : Forall2 (λ c (Q : PyResult Results → Prop), yields Q c)
                   (map (batch_task cfg env chain) bs)
                   (map (λ b (r : PyResult Results), ∃ d, r = Returned d ∧ P b d) bs)).
  { apply Forall2_fmap, Forall_Forall2_diag, Forall_forall. intros b _.
    apply (batch_task_yields cfg env chain b (P b)), HP. }
  specialize (H Hpre). apply Forall2_fmap_r in H.
  eapply Forall2_impl; [exact H|]. intros r b Hr. exact Hr.
Qed.

(** The dictionary returned by [verify_contracts_batch] is the one of
    each batch sent, merged in the order of the batches. *)
Lemma verify_contracts_batch_merge cfg env contracts w
    (P : string → list string → Results → Prop) :
  (∀ chain b, yields (P chain b) (_process_batch_goplus cfg env b chain)) →
  ∃ ds, Forall2 (λ cb d, P cb.1 cb.2 d) (sent cfg contracts) ds
        ∧ (verify_contracts_batch cfg env contracts w).1
          = fold_left (λ acc d, d ∪ acc) ds ∅.
Proof.
  intros HP. unfold verify_contracts_batch, verify_contracts_batch_over, sent.
  destruct contracts as [|c0 contracts]; [exists []; split; [constructor|reflexivity]|].
  generalize (group_by_chain (c0 :: contracts)). intros groups.
  generalize (∅ : Results). revert w.
  induction groups as [|[chain addresses] groups IH]; intros w acc;
    cbn [mfold_steps flat_map].
  - exists []. split; [constructor|reflexivity].
  - rewrite !bind_run. cbn [mret M_ret fst snd].
    destruct (gather_batches cfg env chain (P chain)
                (batches (GOPLUS_BATCH_SIZE cfg) addresses)
                (Pos.to_nat (GOPLUS_CONCURRENCY cfg)) (event_loop env chain) w (HP chain))
      as (ds1 & Hds1 & F1).
    rewrite Hds1, merge_results_returned.
    match goal with
    | |- context [mfold_steps ?f groups ?acc' ?w'] =>
        destruct (IH w' acc') as (ds2 & F2 & Hds2)
    end.
    exists (ds1 ++ ds2). split.
    + apply Forall2_app; [|exact F2]. by apply Forall2_fmap_l.
    + rewrite Hds2, fold_left_app. reflexivity.
Qed.

Lemma fold_union_dom (ds : list Results) (acc : Results) :
  dom (fold_left (λ acc d, d ∪ acc) ds acc) = ⋃ (dom <$> ds) ∪ dom acc.
Proof.
  revert acc. induction ds as [|d ds IH]; intros acc; cbn [fold_left].
  - set_solver.
  - rewrite IH, dom_union_L. cbn. set_solver.
Qed.

Lemma concat_chunks {A : Type} (n : nat) (l : list A) (k m : nat) :
  concat (map (λ i, take n (drop (i * n) l)) (seq k m))
  = take (m * n) (drop (k * n) l).
Proof.
  revert k. induction m as [|m IH]; intros k; [reflexivity|].
  cbn [seq map concat]. rewrite IH.
  replace (S k * n)%nat with (k * n + n)%nat by lia.
  replace (S m * n)%nat with (n + m * n)%nat by lia.
  rewrite <- drop_drop. apply take_take_drop.
Qed.

(** The batches of a list put together give the list back. *)
Lemma concat_batches (size : positive) (l : list string) :
  concat (batches size l) = l.
Proof.
  unfold batches. rewrite concat_chunks. simpl. rewrite drop_0.
  apply take_ge.
  set (n := Pos.to_nat size). assert (0 < n)%nat by (unfold n; lia).
  pose proof (Nat.div_mod (length l + n - 1) n ltac:(lia)) as Hd.
  pose proof (Nat.mod_upper_bound (length l + n - 1) n ltac:(lia)) as Hm.
  nia.
Qed.

Lemma group_insert_permutation chain a g :
  concat (map snd (group_insert chain a g)) ≡ₚ a :: concat (map snd g).
Proof.
  induction g as [|[c l] g IH]; cbn [group_insert map snd concat]; [done|].
  destruct (String.eqb chain c); cbn [map snd concat].
  - rewrite <- app_assoc. cbn [app]. by rewrite <- Permutation_middle.
  - rewrite IH. by rewrite <- Permutation_middle.
Qed.

(** The groups hold the requested addresses, each as often as it is
    requested. *)
Lemma group_by_chain_permutation contracts :
  concat (map snd (group_by_chain contracts)) ≡ₚ map fst contracts.
Proof.
  unfold group_by_chain.
  assert (H : ∀ g,
    concat (map snd (fold_left (λ g '(contract_address, chain),
                        group_insert chain contract_address g) contracts g))
    ≡ₚ concat (map snd g) ++ map fst contracts).
  { induction contracts as [|[a c] contracts IH]; intros g; cbn [fold_left map fst].
    - by rewrite app_nil_r.
    - rewrite IH, group_insert_permutation. by rewrite <- Permutation_middle. }
  rewrite H. reflexivity.
Qed.

(** So do the batches sent. *)
Lemma sent_addresses cfg contracts :
  concat (map snd (sent cfg contracts)) ≡ₚ map fst contracts.
Proof.
  rewrite <- group_by_chain_permutation. unfold sent.
  generalize (group_by_chain contracts). intros groups.
  induction groups as [|[chain addresses] groups IH]; cbn [flat_map map snd concat];
    [done|].
  rewrite map_app, concat_app, IH, map_map. cbn [snd].
  rewrite map_id, concat_batches. reflexivity.
Qed.

Lemma group_by_chain_addresses contracts :
  list_to_set (C := gset string) (concat (map snd (group_by_chain contracts)))
  = requested contracts.
Proof.
  unfold requested. apply set_eq. intros a. rewrite !elem_of_list_to_set.
  by rewrite group_by_chain_permutation.
Qed.

Lemma sent_requested cfg contracts a :
  a ∈ requested contracts ↔ ∃ chain batch, (chain, batch) ∈ sent cfg contracts ∧ a ∈ batch.
Proof.
  unfold requested. rewrite elem_of_list_to_set, <- (sent_addresses cfg).
  rewrite list_elem_of_In, in_concat. split.
  - intros (b & Hb & Ha). apply in_map_iff in Hb as ([chain b'] & <- & Hcb).
    exists chain, b'. by rewrite !list_elem_of_In.
  - intros (chain & b & Hcb & Ha). exists b. rewrite <- !list_elem_of_In.
    split; [|done]. apply list_elem_of_In, in_map_iff. exists (chain, b).
    by rewrite <- list_elem_of_In.
Qed.

(** An address that no batch holds keeps what it was bound to. *)
Lemma fold_union_skip (S : list (string * list string)) (ds : list Results)
    (acc : Results) a :
  Forall2 (λ cb d, dom d ⊆ list_to_set cb.2) S ds →
  (∀ cb, cb ∈ S → a ∉ cb.2) →
  fold_left (λ acc d, d ∪ acc) ds acc !! a = acc !! a.
Proof.
  intros H. revert acc. induction H as [|cb d S ds Hd H IH]; intros acc Hno;
    cbn [fold_left]; [reflexivity|].
  rewrite IH by (intros cb' Hcb'; apply Hno; by right).
  rewrite lookup_union.
  assert (Hnone : d !! a = None).
  { apply not_elem_of_dom. intros Hin. apply Hd in Hin.
    apply elem_of_list_to_set in Hin. by apply (Hno cb); [left|]. }
  rewrite Hnone. by destruct (acc !! a).
Qed.

(** An address that is requested once is bound by its batch alone. *)
Lemma fold_union_lookup (Q : string * list string → Results → Prop)
    (S : list (string * list string)) (ds : list Results) (acc : Results) a cb :
  Forall2 (λ cb d, dom d ⊆ list_to_set cb.2 ∧ Q cb d) S ds →
  count_occ string_dec (concat (map snd S)) a = 1%nat →
  acc !! a = None →
  cb ∈ S → a ∈ cb.2 →
  ∃ d, Q cb d ∧ fold_left (λ acc d, d ∪ acc) ds acc !! a = d !! a.
Proof.
  intros H. revert acc. induction H as [|cb0 d0 S ds [Hd0 HQ0] H IH];
    intros acc Hone Hacc Hcb Ha; [by apply elem_of_nil in Hcb|].
  cbn [map snd concat] in Hone. rewrite count_occ_app in Hone.
  cbn [fold_left].
  assert (Hdom : Forall2 (λ cb d, dom d ⊆ list_to_set cb.2) S ds).
  { eapply Forall2_impl; [exact H|]. by intros ? ? [? _]. }
  assert (Hin_concat : ∀ cb', cb' ∈ S → a ∈ cb'.2 → In a (concat (map snd S))).
  { intros cb' Hcb' Ha'. apply in_concat. exists cb'.2.
    split; [|by apply list_elem_of_In].
    apply in_map. by apply list_elem_of_In. }
  destruct (decide (a ∈ cb0.2)) as [Ha0|Hna0].
  - assert (Hrest : ¬ In a (concat (map snd S))).
    { apply (count_occ_not_In string_dec).
      apply list_elem_of_In, (count_occ_In string_dec) in Ha0. lia. }
    assert (cb = cb0) as ->.
    { apply elem_of_cons in Hcb as [?|Hcb]; [done|].
      exfalso. apply Hrest. by eapply Hin_concat. }
    exists d0. split; [exact HQ0|].
    rewrite (fold_union_skip S ds); [|exact Hdom|].
    + rewrite lookup_union, Hacc. by destruct (d0 !! a).
    + intros cb' Hcb' Ha'. apply Hrest. by eapply Hin_concat.
  - apply elem_of_cons in Hcb as [->|Hcb]; [done|].
    apply IH; try done.
    + assert (Hz : count_occ string_dec cb0.2 a = 0%nat).
      { apply (count_occ_not_In string_dec). by rewrite <- list_elem_of_In. }
      lia.
    + rewrite lookup_union, Hacc.
      assert (Hnone : d0 !! a = None).
      { apply not_elem_of_dom. intros Hin. apply Hd0 in Hin.
        by apply elem_of_list_to_set in Hin. }
      by rewrite Hnone.
Qed.

(** The address is requested once, on one chain. *)
Definition requested_once (a : string) (contracts : list (string * string)) : Prop :=
  count_occ string_dec (map fst contracts) a = 1%nat.

Lemma sent_once cfg contracts a :
  requested_once a contracts →
  count_occ string_dec (concat (map snd (sent cfg contracts))) a = 1%nat.
Proof.
  unfold requested_once. intros <-.
  by apply (Permutation_count_occ string_dec), sent_addresses.
Qed.

(** What [verify_contracts_batch] binds an address that is requested
    once to: what its batch binds it to. *)
Lemma verify_contracts_batch_lookup cfg env contracts w
    (P : string → list string → Results → Prop) chain batch a :
  (∀ chain b, yields (P chain b) (_process_batch_goplus cfg env b chain)) →
  requested_once a contracts →
  (chain, batch) ∈ sent cfg contracts → a ∈ batch →
  ∃ d, P chain batch d ∧ (verify_contracts_batch cfg env contracts w).1 !! a = d !! a.
Proof.
  intros HP Hnd Hcb Ha.
  destruct (verify_contracts_batch_merge cfg env contracts w
              (λ chain b d, dom d ⊆ list_to_set b ∧ P chain b d))
    as (ds & F & ->).
  { intros c b. apply yields_and; [|apply HP].
    eapply yields_mono; [|apply process_batch_goplus_dom].
    intros d ->. destruct (batch_answered env c b); set_solver. }
  destruct (fold_union_lookup (λ cb d, P cb.1 cb.2 d) (sent cfg contracts) ds ∅ a
              (chain, batch)) as (d & Hd & Hl); try done.
  - by apply sent_once.
  - by exists d.
Qed.

(** The keys of the map returned by [verify_contracts_batch]: the
    addresses of the batches sent that are answered. *)
Lemma verify_contracts_batch_dom cfg env contracts w a :
  a ∈ dom (verify_contracts_batch cfg env contracts w).1
  ↔ ∃ chain batch, (chain, batch) ∈ sent cfg contracts ∧ a ∈ batch
                   ∧ batch_answered env chain batch = true.
Proof.
  destruct (verify_contracts_batch_merge cfg env contracts w
              (λ chain b d, dom d = if batch_answered env chain b
                                    then list_to_set b else ∅))
    as (ds & F & ->); [intros; apply process_batch_goplus_dom|].
  rewrite fold_union_dom, dom_empty_L, elem_of_union, elem_of_union_list.
  split.
  - intros [(X & HX & Ha)|Ha]; [|by apply elem_of_empty in Ha].
    apply list_elem_of_fmap in HX as (d & -> & Hd).
    apply list_elem_of_lookup in Hd as [i Hi].
    destruct (Forall2_lookup_r _ _ _ _ _ F Hi) as ([chain b] & Hcb & Hdom).
    cbn [fst snd] in Hdom. rewrite Hdom in Ha.
    destruct (batch_answered env chain b) eqn:E; [|by apply elem_of_empty in Ha].
    exists chain, b. split; [by eapply list_elem_of_lookup_2|].
    split; [by apply elem_of_list_to_set in Ha|exact E].
  - intros (chain & b & Hcb & Ha & E). left.
    apply list_elem_of_lookup in Hcb as [i Hi].
    destruct (Forall2_lookup_l _ _ _ _ _ F Hi) as (d & Hd & Hdom).
    cbn [fst snd] in Hdom. rewrite E in Hdom.
    exists (dom d). split; [apply list_elem_of_fmap; exists d; split;
                             [reflexivity|by eapply list_elem_of_lookup_2]|].
    rewrite Hdom. by apply elem_of_list_to_set.
Qed.

(** C1 as amended: the map returned by [verify_contracts_batch] never
    holds an address that was not requested, and it holds an address
    exactly when one of the batches sent with it is answered: the chain
    is not served by GoPlus (the fallback binds every address), or
    GoPlus answers the batch with status 200 and a body that decodes to
    a dictionary and, when it reports success, lists each address of the
    batch with a dictionary whose creator or owner address can be
    logged, or not at all.  A batch that is not answered contributes
    nothing.  So the map holds every requested address when every batch
    sent is answered.  An address requested once that a successful
    answer does not list is bound to the default result whose source
    reads "GoPlus Security (не найден)".  All of this holds for every
    order in which the event loop runs the batches. *)
Theorem verify_contracts_batch_keys (cfg : Config) (env : Env)
    (contracts : list (string * string)) (w : World) :
  let results := (verify_contracts_batch cfg env contracts w).1 in
  dom results ⊆ requested contracts
  ∧ (∀ a, a ∈ dom results
          ↔ ∃ chain batch, (chain, batch) ∈ sent cfg contracts ∧ a ∈ batch
                           ∧ batch_answered env chain batch = true)
  ∧ ((∀ chain batch, (chain, batch) ∈ sent cfg contracts →
                     batch_answered env chain batch = true) →
       dom results = requested contracts)
  ∧ (∀ chain batch cid data goplus_result a,
       requested_once a contracts →
       (chain, batch) ∈ sent cfg contracts → a ∈ batch →
       chain_id chain = Some cid →
       goplus_token_security env cid batch = HttpResponse 200 (Returned data) →
       body_ok batch data = true →
       goplus_success data = Returned (Some goplus_result) →
       jcontains goplus_result (lower a) = Returned false →
       results !! a
       = Some (set_verification_source "GoPlus Security (не найден)" default_result)).
Proof.
  cbv zeta.
  pose proof (verify_contracts_batch_dom cfg env contracts w) as Hiff.
  split; [|split; [exact Hiff|split]].
  - intros a Ha. apply Hiff in Ha as (chain & b & Hcb & Ha & _).
    apply (sent_requested cfg). eauto.
  - intros Hall. apply set_eq. intros a. rewrite Hiff, (sent_requested cfg).
    split.
    + intros (chain & b & ? & ? & _). eauto.
    + intros (chain & b & Hcb & Ha). exists chain, b. auto.
  - intros chain batch cid data goplus_result a Hnd Hcb Ha Hc Hg Hok Hs Hj.
    destruct (verify_contracts_batch_lookup cfg env contracts w
                (λ chain b d, ∀ cid data,
                   chain_id chain = Some cid ∧
                   goplus_token_security env cid b = HttpResponse 200 (Returned data) ∧
                   body_ok b data = true →
                   ∀ a, d !! a = if decide (a ∈ b)
                                 then Some (answer_entry data a) else None)
                chain batch a) as (d & Hd & ->); try done.
    { intros c b. apply yields_forall. intros cid'. apply yields_forall. intros data'.
      apply yields_impl. intros (? & ? & ?).
      by eapply process_batch_goplus_entries. }
    rewrite (Hd cid data) by done. rewrite decide_True by done.
    unfold answer_entry, batch_entry. by rewrite Hs, Hj.
Qed.

Lemma verify_contracts_batch_keys_witness :
  dom (verify_contracts_batch default_config Scenarios.honeypot_env
         [(Scenarios.honeypot_address, "ethereum"); ("0xabc", "solana")]
         Scenarios.world0).1
  = requested [(Scenarios.honeypot_address, "ethereum"); ("0xabc", "solana")].
Proof.
  apply verify_contracts_batch_keys.
  intros chain batch Hin.
  change (sent default_config
            [(Scenarios.honeypot_address, "ethereum"); ("0xabc", "solana")])
    with [("ethereum", [Scenarios.honeypot_address]); ("solana", ["0xabc"])]%string in Hin.
  apply elem_of_cons in Hin as [Hin|Hin]; [by injection Hin as -> ->|].
  apply list_elem_of_singleton in Hin. by injection Hin as -> ->.
Defined.

(** C1 fails on the code: when GoPlus answers with status 500 the
    requested address is left out of the returned map. *)
Lemma verify_contracts_batch_omits_failed :
  dom (verify_contracts_batch default_config Scenarios.failing_env
         [("0xabc", "ethereum")] Scenarios.world0).1
  ≠ requested [("0xabc", "ethereum")].
Proof.
  assert (H : (verify_contracts_batch default_config Scenarios.failing_env
                 [("0xabc", "ethereum")] Scenarios.world0).1 = ∅)
    by (vm_compute; reflexivity).
  rewrite H. unfold requested. simpl. set_solver.
Qed.

End Batch.

(** ** The rate limiter *)

Section RateLimit.
Import ContractVerifier Pacing.

Lemma request_steps cfg api w :
  (request cfg api w).2
  = let w' := count_call api (now w)
                (spacing_wait api (now w)
                   (limit_wait cfg api (now w) (minute_reset (now w) w))) in
    {| now := now w'; trace := EvDispatch api (now w') :: trace w'; self := self w' |}.
Proof.
  unfold request. rewrite await_bind, respect_steps. reflexivity.
Qed.

(** What a sequential run keeps true of the verifier created at [t0]:
    the [goplus] counter is the number of [goplus] requests since the
    last reset and is within the limit, so is every earlier count of the
    log, the reset time is that of the newest reset, and resets are
    spaced. *)
Definition paced (cfg : Config) (t0 : Q) (w : World) : Prop :=
  request_counters (self w) goplus = since_reset (trace w)
  ∧ since_reset (trace w) ≤ GOPLUS_RATE_LIMIT cfg
  ∧ window_bounded (GOPLUS_RATE_LIMIT cfg) (trace w)
  ∧ (counter_reset_time (self w) == hd t0 (resets (trace w)))%Q
  ∧ spaced t0 (resets (trace w)).

Lemma paced_fresh cfg t0 : 0 < GOPLUS_RATE_LIMIT cfg → paced cfg t0 (fresh cfg t0).
Proof. intros H. unfold paced; simpl. repeat split; try lia; try reflexivity. Qed.

Lemma paced_minute_reset cfg t0 t w :
  0 < GOPLUS_RATE_LIMIT cfg → paced cfg t0 w → paced cfg t0 (minute_reset t w).
Proof.
  intros HN (Hc & Hle & Hwb & Hr & Hsp). unfold minute_reset.
  destruct (Qgt_bool _ _) eqn:E; [|by repeat split].
  apply Qgt_bool_true in E. unfold paced. cbn.
  repeat split; try lia; try done. lra.
Qed.

Lemma paced_limit_wait cfg t0 api w :
  0 < GOPLUS_RATE_LIMIT cfg → paced cfg t0 w →
  paced cfg t0 (limit_wait cfg api (now w) w)
  ∧ (api = goplus →
     (now w - counter_reset_time (self w) <= 60)%Q →
     ¬ at_edge cfg w →
     since_reset (trace (limit_wait cfg api (now w) w)) < GOPLUS_RATE_LIMIT cfg).
Proof.
  intros HN (Hc & Hle & Hwb & Hr & Hsp). unfold limit_wait, at_edge.
  destruct (bool_decide_reflect (api = goplus)) as [->|Hne]; cbn [andb].
  2:{ split; [by repeat split|done]. }
  destruct (Z.geb_spec (request_counters (self w) goplus) (GOPLUS_RATE_LIMIT cfg)) as [Hge|Hlt].
  2:{ split; [by repeat split|]. intros _ _ _. lia. }
  destruct (Qgt_bool _ 0) eqn:E.
  - apply Qgt_bool_true in E. split.
    + unfold paced. cbn. repeat split; try lia; try done.
      rewrite Qred_correct. lra.
    + intros _ _ _. cbn. lia.
  - apply Qgt_bool_false in E. split; [by repeat split|].
    intros _ Hle60 Hedge. exfalso. apply Hedge. split; [lia|lra].
Qed.

Lemma minute_reset_facts cfg t w :
  0 < GOPLUS_RATE_LIMIT cfg →
  now (minute_reset t w) = now w
  ∧ (t - counter_reset_time (self (minute_reset t w)) <= 60)%Q
  ∧ (t = now w → ¬ at_edge cfg w → ¬ at_edge cfg (minute_reset t w)).
Proof.
  intros HN. unfold minute_reset, at_edge.
  destruct (Qgt_bool _ _) eqn:E.
  - cbn. repeat split; [lra|]. intros _ _ [H _]. lia.
  - apply Qgt_bool_false in E. repeat split; [exact E|]. intros _ H; exact H.
Qed.

Lemma paced_request cfg t0 api w :
  0 < GOPLUS_RATE_LIMIT cfg →
  paced cfg t0 w → ¬ at_edge cfg w → paced cfg t0 (request cfg api w).2.
Proof.
  intros HN Hp Hedge. rewrite request_steps. cbn zeta.
  pose proof (minute_reset_facts cfg (now w) w HN) as (Hnow & Hle60 & Hedge1).
  specialize (Hedge1 eq_refl Hedge).
  pose proof (paced_minute_reset cfg t0 (now w) w HN Hp) as Hp1.
  set (w1 := minute_reset (now w) w) in *.
  rewrite <- Hnow in Hle60 |- *.
  pose proof (paced_limit_wait cfg t0 api w1 HN Hp1) as [Hp2 Hlt].
  set (w2 := limit_wait cfg api (now w1) w1) in *.
  assert (Hp3 : paced cfg t0 (spacing_wait api (now w1) w2)
                ∧ trace (spacing_wait api (now w1) w2) = trace w2).
  { unfold spacing_wait. destruct (last_request_time _ _); [|done].
    destruct (Qlt_bool _ _); done. }
  destruct Hp3 as [(Hc & Hle & Hwb & Hr & Hsp) Htr].
  set (w3 := spacing_wait api (now w1) w2) in *.
  rewrite <- Htr in Hlt.
  unfold paced. cbn.
  destruct api; cbn; unfold upd; case_decide; try done;
    try specialize (Hlt eq_refl Hle60 Hedge1);
    repeat split; try lia; done.
Qed.

Lemma paced_run cfg t0 schedule w :
  0 < GOPLUS_RATE_LIMIT cfg →
  paced cfg t0 w → edge_free cfg schedule w → paced cfg t0 (run cfg schedule w).2.
Proof.
  intros HN. revert w. induction schedule as [|[api gap] rest IH]; intros w Hp Hfree.
  - exact Hp.
  - cbn [run]. rewrite bind_run. cbn [fst snd]. rewrite bind_run.
    destruct Hfree as [Hedge Hfree]. apply IH; [|exact Hfree].
    apply paced_request; [exact HN| |exact Hedge]. exact Hp.
Qed.

(** What the limiter does keep: for a caller of a fresh verifier that
    makes its requests one after the other, at most [GOPLUS_RATE_LIMIT]
    [goplus] requests are handed over between two resets of the counter,
    and two resets are at least 60 seconds apart, as long as no request
    arrives with the counter full exactly 60 seconds after the last
    reset. *)
Theorem goplus_limit_per_counting_window (cfg : Config) (t0 : Q)
    (schedule : list (ApiType * Q)) :
  0 < GOPLUS_RATE_LIMIT cfg →
  edge_free cfg schedule (fresh cfg t0) →
  let w := (run cfg schedule (fresh cfg t0)).2 in
  window_bounded (GOPLUS_RATE_LIMIT cfg) (trace w)
  ∧ spaced t0 (resets (trace w)).
Proof.
  intros HN Hfree.
  pose proof (paced_run cfg t0 schedule (fresh cfg t0) HN (paced_fresh cfg t0 HN) Hfree)
    as (_ & _ & Hwb & _ & Hsp).
  split; assumption.
Qed.

(** A test for [at_edge] and for [edge_free] that computes. *)
Definition at_edgeb (cfg : Config) (w : World) : bool :=
  (GOPLUS_RATE_LIMIT cfg <=? request_counters (self w) goplus)
  && Qeq_bool (now w - counter_reset_time (self w)) 60.

Fixpoint edge_freeb (cfg : Config) (schedule : list (ApiType * Q)) (w : World) : bool :=
  match schedule with
  | [] => true
  | (api, gap) :: rest =>
      let w1 := (sleep gap w).2 in
      negb (at_edgeb cfg w1) && edge_freeb cfg rest (request cfg api w1).2
  end.

Lemma edge_freeb_sound cfg schedule w :
  edge_freeb cfg schedule w = true → edge_free cfg schedule w.
Proof.
  revert w. induction schedule as [|[api gap] rest IH]; intros w H; [exact I|].
  cbn [edge_freeb] in H. apply andb_true_iff in H as [H1 H2].
  split; [|by apply IH].
  intros [Hc Ht]. apply negb_true_iff in H1. unfold at_edgeb in H1.
  apply andb_false_iff in H1 as [H1|H1].
  - apply Z.leb_gt in H1. lia.
  - apply Qeq_bool_neq in H1. contradiction.
Qed.

Lemma goplus_limit_per_counting_window_witness :
  let w := (run default_config burst (fresh default_config 0)).2 in
  window_bounded (GOPLUS_RATE_LIMIT default_config) (trace w)
  ∧ spaced 0 (resets (trace w)).
Proof.
  apply (goplus_limit_per_counting_window default_config 0 burst).
  - reflexivity.
  - apply edge_freeb_sound. vm_compute. reflexivity.
Defined.

(** C6 fails on the code.  Thirty-three back-to-back requests of a
    fresh verifier with the default limit of 30 per minute put 31
    requests in the 60 seconds that start at time 2.  The spacing of
    60/30 = 2 seconds is not kept: [last_request_time] gets the time at
    which the call entered the limiter, not the time after its sleep, so
    a request that slept is followed by one that does not wait, and the
    requests leave in pairs, at 0, 2, 2, 4, 4 and so on. *)
Lemma goplus_rolling_window_exceeded :
  GOPLUS_RATE_LIMIT default_config = 30
  ∧ dispatched_in goplus 2 62
      (trace (run default_config burst (fresh default_config 0)).2) = 31%nat
  ∧ take 5 (dispatch_times goplus
              (trace (run default_config burst (fresh default_config 0)).2))
    = [0; 2; 2; 4; 4]%Q.
Proof. split; [reflexivity|]. split; vm_compute; reflexivity. Qed.

(** Batches that run at the same time fare no better: of four batches
    of one address each that the event loop starts together, the first
    is handed to the network at once and the other three together two
    seconds later. *)
Lemma concurrent_batches_leave_together :
  dispatch_times goplus
    (trace (verify_contracts_batch Scenarios.one_by_one Scenarios.eager_env
              [("0xa", "ethereum"); ("0xb", "ethereum");
               ("0xc", "ethereum"); ("0xd", "ethereum")] Scenarios.world0).2)
  = [0; 2; 2; 2]%Q.
Proof. vm_compute. reflexivity. Qed.

End RateLimit.

(** ** Failures are turned into empty results *)

Section Failures.
Import TokenScanner.

Context {Dict : Type} (empty_dict : Dict).

(** An attempt that ends without a usable answer: a network error, a
    timeout or another exception, a status 429, an error status, or a
    body that does not decode. *)
Definition failed (a : Attempt Dict) : Prop :=
  match a with
  | ClientError _ | OtherError _ => True
  | Cancelled => False
  | Response status body => status = 429 ∨ 400 ≤ status ∨ ∃ e, body = Raised e
  end.

Lemma attempts_exhausted (net : Net Dict) (remaining : nat) (attempt : Z)
    (s : Scanner) (slept : list Q) :
  max_retries s = attempt + Z.of_nat remaining →
  (∀ i, attempt ≤ i < max_retries s → failed (attempt_outcome net i)) →
  value (attempts empty_dict net remaining attempt s slept) = Returned empty_dict.
Proof.
  revert attempt s slept.
  induction remaining as [|rest IH]; intros attempt s slept Hmax Hall; [reflexivity|].
  cbn [attempts].
  assert (Hrec : ∀ s' slept', max_retries s' = max_retries s →
            value (if attempt =? max_retries s' - 1
                   then {| value := Returned empty_dict; scanner := s'; sleeps := slept |}
                   else attempts empty_dict net rest (attempt + 1) s' slept')
            = Returned empty_dict).
  { intros s' slept' Hs'. destruct (Z.eqb_spec attempt (max_retries s' - 1)); [reflexivity|].
    apply IH; [lia|]. intros i Hi. apply Hall. lia. }
  pose proof (Hall attempt ltac:(lia)) as Hf.
  destruct (attempt_outcome net attempt) as [e|e| |status body]; cbn in Hf.
  - by apply Hrec.
  - by apply Hrec.
  - done.
  - destruct (Z.eqb_spec status 429) as [->|Hne].
    + cbn [max_retries set_adaptive_delay count_request].
      destruct (Z.ltb_spec attempt (max_retries s - 1)); [|reflexivity].
      apply IH; [cbn; lia|]. intros i Hi. apply Hall. cbn in Hi. lia.
    + destruct (Z.leb_spec 400 status) as [Hge|Hlt].
      * apply Hrec. by destruct (status =? 200).
      * destruct body as [d|e].
        -- exfalso. destruct Hf as [?|[?|[e [=]]]]; lia.
        -- apply Hrec. by destruct (status =? 200).
Qed.

End Failures.

Section Isolation.
Import ContractVerifier.

Lemma constant_mfold {A S : Type} (f : S → A → Co S) l acc :
  (∀ acc a, constant (f acc a)) → constant (mfold f l acc).
Proof.
  intros Hf. revert acc. induction l as [|a l IH]; intros acc; cbn [mfold].
  - apply constant_ret.
  - apply constant_bind; [apply Hf|]. intros acc'. apply IH.
Qed.

Lemma constant_endpoints env a eps : constant (solana_endpoints_loop env a eps).
Proof.
  induction eps as [|e eps IH]; cbn [solana_endpoints_loop]; constant_tac. apply IH.
Qed.

Lemma constant_solana_contract cfg env a : constant (_check_solana_contract cfg env a).
Proof.
  unfold _check_solana_contract.
  apply constant_bind; [apply constant_unit|intros _; apply constant_endpoints].
Qed.

Lemma constant_solana_token_basic cfg env a :
  constant (_check_solana_token_basic cfg env a).
Proof.
  unfold _check_solana_token_basic.
  apply constant_bind; [apply constant_unit|intros _].
  apply constant_bind; [apply constant_dispatch|intros o].
  destruct (checked _); [apply constant_ret|apply constant_solana_contract].
Qed.

Lemma constant_fallback_sources cfg env a c : constant (_check_fallback_sources cfg env a c).
Proof.
  unfold _check_fallback_sources, _check_etherscan_public, _check_bscscan_public.
  destruct (String.eqb c "ethereum"); [constant_tac|].
  destruct (String.eqb c "bsc"); constant_tac.
Qed.

Lemma constant_fallback cfg env addresses chain :
  constant (_process_batch_fallback cfg env addresses chain).
Proof.
  unfold _process_batch_fallback. apply constant_mfold. intros acc a.
  apply constant_bind; [|intros r; constant_tac].
  destruct (String.eqb chain "solana").
  { apply constant_bind; [apply constant_solana_token_basic|intros r; constant_tac]. }
  destruct (String.eqb chain "ton"); [apply constant_ret|].
  destruct (String.eqb chain "sonic"); [apply constant_ret|].
  apply constant_bind; [apply constant_fallback_sources|intros r; constant_tac].
Qed.

Lemma constant_goplus_loop chain goplus_result l acc :
  constant (goplus_loop chain goplus_result l acc).
Proof.
  revert acc. induction l as [|address rest IH]; intros acc; cbn [goplus_loop].
  - apply constant_ret.
  - destruct (jcontains goplus_result (lower address)) as [[|]|e].
    + destruct (_ ≫= _) as [result|e]; [|apply constant_ret].
      cbv zeta. apply constant_bind; [apply constant_unit|intros _].
      destruct (_ || _); [apply IH|apply constant_ret].
    + apply IH.
    + apply constant_ret.
Qed.

(** A batch returns one dictionary, whatever the other tasks do at its
    awaits and whatever state it starts in. *)
Lemma constant_process_batch_goplus cfg env addresses chain :
  constant (_process_batch_goplus cfg env addresses chain).
Proof.
  unfold _process_batch_goplus.
  apply constant_bind; [apply constant_unit|intros _].
  destruct (chain_id chain) as [cid|]; [|apply constant_fallback].
  apply constant_bind; [apply constant_dispatch|intros o].
  destruct (json_of o) as [[data|]|e]; [|apply constant_ret..].
  apply constant_bind; [|intros r; apply constant_ret].
  unfold goplus_batch_of.
  destruct (goplus_success data) as [[goplus_result|]|e];
    [apply constant_goplus_loop|apply constant_ret..].
Qed.

(** C7: a request that fails for good leaves an empty result and no
    exception, and the other requests are not touched by it.
    - When every attempt of [_make_async_request] fails (network error,
      timeout, status 429 or an error status, undecodable body) the call
      returns the empty dictionary.
    - [_process_batch_with_progress] returns a dictionary whatever the
      batch does, the empty one when the batch raises.
    - A batch that is not answered (the request raises, the status is
      not 200, the body does not decode or cannot be processed) returns
      the empty dictionary.
    - Every address of an answered batch is in the map returned by
      [verify_contracts_batch], whatever happens to the other batches.
    - What [verify_contracts_batch] binds an address requested once to
      is what its batch binds it to when it runs alone, from any state:
      neither the other batches, nor their failures, nor the order in
      which the event loop runs them change it. *)
Theorem exhausted_requests_return_empty :
  (∀ (Dict : Type) (empty_dict : Dict) (net : TokenScanner.Net Dict)
     (s : TokenScanner.Scanner),
     (∀ i, 0 ≤ i < TokenScanner.max_retries s →
           failed (TokenScanner.attempt_outcome net i)) →
     TokenScanner.value (TokenScanner._make_async_request empty_dict net s)
     = Returned empty_dict)
  ∧ (∀ inner,
       yields (λ r, ∃ d, r = Returned d) (_process_batch_with_progress inner))
  ∧ (∀ inner,
       yields (λ r, ∃ e, r = Raised e) inner →
       yields (eq (Returned ∅)) (_process_batch_with_progress inner))
  ∧ (∀ cfg env chain batch,
       batch_answered env chain batch = false →
       yields (eq (Returned ∅)) (batch_task cfg env chain batch))
  ∧ (∀ cfg env contracts w chain batch a,
       (chain, batch) ∈ sent cfg contracts → a ∈ batch →
       batch_answered env chain batch = true →
       is_Some ((verify_contracts_batch cfg env contracts w).1 !! a))
  ∧ (∀ cfg env contracts w chain batch a w',
       requested_once a contracts →
       (chain, batch) ∈ sent cfg contracts → a ∈ batch →
       (verify_contracts_batch cfg env contracts w).1 !! a
       = (await (_process_batch_goplus cfg env batch chain) w').1 !! a).
Proof.
  repeat apply conj.
  - intros Dict empty_dict net s Hall. unfold TokenScanner._make_async_request.
    destruct (Z.le_gt_cases 0 (TokenScanner.max_retries s)).
    + apply attempts_exhausted; [lia|]. intros i Hi. apply Hall. lia.
    + replace (Z.to_nat (TokenScanner.max_retries s)) with 0%nat by lia. reflexivity.
  - intros inner. unfold _process_batch_with_progress. apply yields_then.
    intros [d|e]; apply yields_ret; eauto.
  - intros inner Hinner. unfold _process_batch_with_progress.
    eapply yields_bind; [exact Hinner|]. intros r [e ->]. by apply yields_ret.
  - intros cfg env chain batch Hfail.
    pose proof (batch_task_yields cfg env chain batch _
                  (process_batch_goplus_dom cfg env batch chain)) as H.
    eapply yields_mono; [|exact H]. intros r (d & -> & Hd).
    rewrite Hfail in Hd. apply dom_empty_inv_L in Hd. by rewrite Hd.
  - intros cfg env contracts w chain batch a Hcb Ha Hok.
    apply elem_of_dom, verify_contracts_batch_dom. eauto.
  - intros cfg env contracts w chain batch a w' Hnd Hcb Ha.
    destruct (verify_contracts_batch_lookup cfg env contracts w
                (λ chain b d, d = (await (_process_batch_goplus cfg env b chain) w').1)
                chain batch a) as (d & -> & ->); try done.
    intros c b. eapply yields_mono; [|apply constant_value, constant_process_batch_goplus].
    intros d Hd. symmetry. exact Hd.
Qed.

Lemma exhausted_requests_return_empty_witness :
  TokenScanner.value
    (TokenScanner._make_async_request (∅ : gmap string string)
       {| TokenScanner.attempt_outcome := λ i,
            if i =? 0 then TokenScanner.Response 429 (Returned ∅)
            else if i =? 1 then TokenScanner.OtherError "TimeoutError"
            else TokenScanner.Response 500 (Raised "not JSON");
          TokenScanner.first_draw := 1 # 2;
          TokenScanner.draw := λ _, 1 # 2 |}
       {| TokenScanner.max_retries := 3;
          TokenScanner.request_count := 0;
          TokenScanner._adaptive_delay := None |})
  = Returned ∅.
Proof.
  apply (proj1 exhausted_requests_return_empty).
  intros i Hi. cbn in Hi.
  assert (Hcases : i = 0 ∨ i = 1 ∨ i = 2) by lia.
  destruct Hcases as [Hi0 | [Hi1 | Hi2]]; subst i; cbn.
  - left; reflexivity.
  - exact I.
  - right; left; lia.
Defined.

End Isolation.

(** * Further properties *)

(** ** More on the liquidity-lock checker *)

Section LockChecker.
Import LiquidityLockChecker.

(** The fields that [get_lock_score] reads. *)
Definition same_lock (i j : LiquidityLockInfo) : Prop :=
  is_locked i = is_locked j
  ∧ locked_percentage i = locked_percentage j
  ∧ lock_duration_days i = lock_duration_days j
  ∧ platform i = platform j
  ∧ unlock_date i = unlock_date j.

Lemma same_lock_refl i : same_lock i i.
Proof. by repeat split. Qed.

Lemma same_lock_add_warning w i : same_lock (add_warning w i) i.
Proof. by repeat split. Qed.

Lemma analyze_lock_safety_fields (c : Checker) (now : Q) (i : LiquidityLockInfo) :
  same_lock (_analyze_lock_safety c now i) i
  ∧ warnings i `prefix_of` warnings (_analyze_lock_safety c now i)
  ∧ get_lock_score (_analyze_lock_safety c now i) = get_lock_score i.
Proof.
  assert (H : same_lock (_analyze_lock_safety c now i) i
              ∧ warnings i `prefix_of` warnings (_analyze_lock_safety c now i)).
  { unfold _analyze_lock_safety.
    destruct (negb (is_locked i)).
    { split; [apply same_lock_add_warning|]. by apply prefix_app_r. }
    set (i1 := if Qlt_bool _ _ then _ else i).
    assert (H1 : same_lock i1 i ∧ warnings i `prefix_of` warnings i1).
    { unfold i1. destruct (Qlt_bool _ _); [|done].
      split; [apply same_lock_add_warning|]. by apply prefix_app_r. }
    clearbody i1.
    set (i2 := if lock_duration_days i1 <? _ then _ else _).
    assert (H2 : same_lock i2 i ∧ warnings i `prefix_of` warnings i2).
    { destruct H1 as [S1 P1]. unfold i2.
      destruct (_ <? _); [|destruct (_ >=? _)]; try done;
        (split; [by destruct S1 as (?&?&?&?&?); repeat split
                |simpl; etrans; [exact P1|by apply prefix_app_r]]). }
    clearbody i2. clear H1 i1.
    set (i3 := if negb _ then _ else i2).
    assert (H3 : same_lock i3 i ∧ warnings i `prefix_of` warnings i3).
    { destruct H2 as [S2 P2]. unfold i3. destruct (negb _); [|done].
      split; [by destruct S2 as (?&?&?&?&?); repeat split
             |simpl; etrans; [exact P2|by apply prefix_app_r]]. }
    clearbody i3. clear H2 i2. destruct H3 as [S3 P3].
    destruct (unlock_date i3); [|done].
    destruct (Qlt_bool _ _); [|done].
    split; [by destruct S3 as (?&?&?&?&?); repeat split
           |simpl; etrans; [exact P3|by apply prefix_app_r]]. }
  destruct H as [S P]. split; [exact S|]. split; [exact P|].
  destruct S as (Hl & Hp & Hd & Hpl & _).
  unfold get_lock_score. rewrite Hl, Hp, Hd, Hpl. reflexivity.
Qed.

(** X1: [_analyze_lock_safety] only appends warnings: the lock data are
    untouched, the warnings already present stay in front, and the score
    of the lock is the same before and after the analysis. *)
Theorem analyze_lock_safety_only_warns (c : Checker) (now : Q) (i : LiquidityLockInfo) :
  same_lock (_analyze_lock_safety c now i) i
  ∧ warnings i `prefix_of` warnings (_analyze_lock_safety c now i)
  ∧ get_lock_score (_analyze_lock_safety c now i) = get_lock_score i.
Proof. exact (analyze_lock_safety_fields c now i). Qed.

End LockChecker.

Section LockAnswers.
Import LiquidityLockChecker.

Lemma analyze_locked_no_critical c now i :
  is_locked i = true → WNotLocked ∉ warnings i →
  WNotLocked ∉ warnings (_analyze_lock_safety c now i).
Proof.
  intros Hl Hw. unfold _analyze_lock_safety. rewrite Hl. cbn [negb].
  repeat match goal with
  | |- context [if ?b then _ else _] => destruct b
  | |- context [match ?x with Some _ => _ | None => _ end] => destruct x
  end; cbn; set_solver.
Qed.

Lemma known_locked_trusted net addr pct d p :
  assoc addr (default [] (assoc net known_locked_tokens)) = Some (pct, d, p) →
  str_in p trusted_platforms = true.
Proof.
  unfold known_locked_tokens. cbn [assoc]. intros H.
  repeat (case_match; simplify_eq/=); reflexivity.
Qed.

(** What the lock data are before the analysis, on a miss. *)
Lemma fresh_lock_data (c : Checker) clk a p n :
  cache_lookup c (t_lookup clk) (lock_cache_key a p n) = None →
  ∃ i0, (check_liquidity_lock c clk a p n).1 = _analyze_lock_safety c (t_analyze clk) i0
        ∧ (is_locked i0 = true →
             warnings i0 = []
             ∧ unlock_date i0 = Some (t_unlock clk + days (lock_duration_days i0))%Q
             ∧ str_in (platform i0) trusted_platforms = true)
        ∧ (is_locked i0 = false → WNotLocked ∉ warnings i0).
Proof.
  intros Hmiss. unfold check_liquidity_lock. rewrite Hmiss.
  destruct (assoc (lower a) _) as [[[pct d] pl]|] eqn:E.
  - eexists. split; [reflexivity|]. cbn. split; [|done].
    intros _. repeat split. by eapply known_locked_trusted.
  - eexists. split; [reflexivity|].
    unfold _check_external_sources.
    repeat match goal with
    | |- context [if startswith_any ?x ?y then _ else _] => destruct (startswith_any x y)
    end; cbn; (split; [|intros; set_solver]); try done; intros _; by repeat split.
Qed.

(** X2: on a cache miss [check_liquidity_lock] reports a pool as
    unlocked exactly when it attaches the critical "not locked" warning,
    an unlocked pool scores 0, and every lock it reports is on a trusted
    platform with an unlock date of [lock_duration_days] days after the
    lookup. *)
Theorem fresh_lock_answer (c : Checker) (clk : Readings) (a p n : string) :
  cache_lookup c (t_lookup clk) (lock_cache_key a p n) = None →
  let info := (check_liquidity_lock c clk a p n).1 in
  (is_locked info = false ↔ WNotLocked ∈ warnings info)
  ∧ (is_locked info = false → get_lock_score info = 0)
  ∧ (is_locked info = true →
       unlock_date info = Some (t_unlock clk + days (lock_duration_days info))%Q
       ∧ str_in (platform info) trusted_platforms = true).
Proof.
  intros Hmiss info. subst info.
  destruct (fresh_lock_data c clk a p n Hmiss) as (i0 & -> & Hlocked & Hunlocked).
  destruct (analyze_lock_safety_fields c (t_analyze clk) i0)
    as ((Hl & Hp & Hd & Hpl & Hu) & Hpre & Hscore).
  rewrite Hl, Hd, Hpl, Hu, Hscore.
  split; [|split].
  - destruct (is_locked i0) eqn:E.
    + split; [done|]. intros Hin. exfalso.
      revert Hin. apply analyze_locked_no_critical; [exact E|].
      destruct (Hlocked eq_refl) as (-> & _). set_solver.
    + split; [|done]. intros _. unfold _analyze_lock_safety. rewrite E. cbn. set_solver.
  - intros E. unfold get_lock_score. by rewrite E.
  - intros E. destruct (Hlocked E) as (_ & ? & ?). done.
Qed.

Lemma fresh_lock_answer_witness :
  get_lock_score
    (check_liquidity_lock init (Scenarios.still_clock 0) "0xabc" "0xpair" "ethereum").1
  = 0.
Proof.
  apply (fresh_lock_answer init (Scenarios.still_clock 0) "0xabc" "0xpair" "ethereum");
    reflexivity.
Defined.

(** X3: a second lookup of the same token, pair and network made less
    than [cache_ttl] after the first was stored returns the first answer
    and leaves the cache as it is. *)
Theorem repeated_lock_lookup (c : Checker) (clk1 clk2 : Readings) (a p n : string) :
  cache_lookup c (t_lookup clk1) (lock_cache_key a p n) = None →
  (t_lookup clk2 - t_store clk1 < cache_ttl c)%Q →
  let first := check_liquidity_lock c clk1 a p n in
  check_liquidity_lock first.2 clk2 a p n = (first.1, first.2).
Proof.
  intros Hmiss Httl first.
  assert (Hfirst : ∃ info,
            first = (info, cache_store (t_store clk1) (lock_cache_key a p n) info c)).
  { subst first. unfold check_liquidity_lock. rewrite Hmiss. eexists. reflexivity. }
  destruct Hfirst as [info ->]. cbn [fst snd].
  assert (Hhit : cache_lookup (cache_store (t_store clk1) (lock_cache_key a p n) info c)
                   (t_lookup clk2) (lock_cache_key a p n) = Some info).
  { apply checker_lookup_iff. exists (t_store clk1). split; [|exact Httl].
    cbn. apply lookup_insert_eq. }
  unfold check_liquidity_lock. rewrite Hhit. reflexivity.
Qed.

Lemma repeated_lock_lookup_witness :
  check_liquidity_lock
    (check_liquidity_lock init (Scenarios.still_clock 0) "0x1a" "0xp" "bsc").2
    (Scenarios.still_clock 1) "0x1a" "0xp" "bsc"
  = ((check_liquidity_lock init (Scenarios.still_clock 0) "0x1a" "0xp" "bsc").1,
     (check_liquidity_lock init (Scenarios.still_clock 0) "0x1a" "0xp" "bsc").2).
Proof.
  apply (repeated_lock_lookup init (Scenarios.still_clock 0) (Scenarios.still_clock 1));
    reflexivity.
Defined.

End LockAnswers.

(** ** More on the batch verification *)

Section BatchShape.
Import ContractVerifier.

(** X4: [batches] cuts the address list into consecutive chunks: put
    together they give the list back, none is empty and none is longer
    than the batch size. *)
Theorem batches_chunks (size : positive) (addresses : list string) :
  concat (batches size addresses) = addresses
  ∧ Forall (λ b, (0 < length b ≤ Pos.to_nat size)%nat) (batches size addresses).
Proof.
  split; [apply concat_batches|].
  unfold batches. set (n := Pos.to_nat size).
  assert (Hn : (0 < n)%nat) by (unfold n; lia).
  apply Forall_forall. intros b Hb.
  apply list_elem_of_fmap in Hb as (k & -> & Hk).
  apply elem_of_seq in Hk. rewrite length_take, length_drop.
  pose proof (Nat.div_mod (length addresses + n - 1) n ltac:(lia)) as Hd.
  pose proof (Nat.mod_upper_bound (length addresses + n - 1) n ltac:(lia)) as Hm.
  split; [|lia].
  assert (k * n < length addresses)%nat by nia. lia.
Qed.

(** The (address, chain) pairs that a grouping stands for. *)
Definition grouped (g : list (string * list string)) (a c : string) : Prop :=
  ∃ l, (c, l) ∈ g ∧ a ∈ l.

Lemma group_insert_grouped chain address g a c :
  grouped (group_insert chain address g) a c
  ↔ (a = address ∧ c = chain) ∨ grouped g a c.
Proof.
  unfold grouped. induction g as [|[c' l'] g IH]; cbn [group_insert].
  - split.
    + intros (l & Hl & Ha). apply list_elem_of_singleton in Hl as [= -> ->].
      apply list_elem_of_singleton in Ha. auto.
    + intros [[-> ->]|(l & Hl & _)]; [|by apply elem_of_nil in Hl].
      exists [address]. split; apply list_elem_of_singleton; reflexivity.
  - destruct (String.eqb_spec chain c') as [->|Hne].
    + split.
      * intros (l & Hl & Ha). apply elem_of_cons in Hl as [[= -> ->]|Hl].
        -- apply elem_of_app in Ha as [Ha|Ha].
           ++ right. exists l'. split; [left|done].
           ++ apply list_elem_of_singleton in Ha. auto.
        -- right. exists l. split; [by right|done].
      * intros [[-> ->]|(l & Hl & Ha)].
        -- exists (l' ++ [address]). split; [left|]. set_solver.
        -- apply elem_of_cons in Hl as [[= -> ->]|Hl].
           ++ exists (l' ++ [address]). split; [left|]. set_solver.
           ++ exists l. split; [by right|done].
    + split.
      * intros (l & Hl & Ha). apply elem_of_cons in Hl as [[= -> ->]|Hl].
        -- right. exists l'. split; [left|done].
        -- destruct (proj1 IH (ex_intro _ l (conj Hl Ha))) as [?|(l2 & ? & ?)]; [auto|].
           right. exists l2. split; [by right|done].
      * intros [Heq|(l & Hl & Ha)].
        -- destruct (proj2 IH (or_introl Heq)) as (l2 & ? & ?).
           exists l2. split; [by right|done].
        -- apply elem_of_cons in Hl as [[= -> ->]|Hl].
           ++ exists l'. split; [left|done].
           ++ destruct (proj2 IH (or_intror (ex_intro _ l (conj Hl Ha)))) as (l2 & ? & ?).
              exists l2. split; [by right|done].
Qed.

Lemma group_insert_chains chain address g :
  map fst (group_insert chain address g)
  = if bool_decide (chain ∈ map fst g) then map fst g else map fst g ++ [chain].
Proof.
  induction g as [|[c l] g IH]; cbn [group_insert map fst].
  - rewrite bool_decide_eq_false_2 by apply not_elem_of_nil. reflexivity.
  - destruct (String.eqb_spec chain c) as [->|Hne]; cbn [map fst].
    + rewrite bool_decide_eq_true_2 by left. reflexivity.
    + rewrite IH. destruct (bool_decide_reflect (chain ∈ map fst g)) as [Hin|Hnin].
      * rewrite bool_decide_eq_true_2 by (by right). reflexivity.
      * rewrite bool_decide_eq_false_2; [reflexivity|].
        intros Hc. apply elem_of_cons in Hc as [?|?]; done.
Qed.

Lemma group_insert_nonempty chain address g :
  Forall (λ cl, cl.2 ≠ []) g → Forall (λ cl, cl.2 ≠ []) (group_insert chain address g).
Proof.
  induction 1 as [|[c l] g Hl Hg IH]; cbn [group_insert].
  - by repeat constructor.
  - destruct (String.eqb chain c); constructor; try done.
    cbn. by destruct l.
Qed.

(** X5: [group_by_chain] keeps every requested pair and adds none, lists
    each chain once, and makes no empty group. *)
Theorem group_by_chain_partition (contracts : list (string * string)) :
  (∀ a c, grouped (group_by_chain contracts) a c ↔ (a, c) ∈ contracts)
  ∧ NoDup (map fst (group_by_chain contracts))
  ∧ Forall (λ cl, cl.2 ≠ []) (group_by_chain contracts).
Proof.
  unfold group_by_chain.
  assert (H : ∀ g,
    NoDup (map fst g) → Forall (λ cl, cl.2 ≠ []) g →
    let g' := fold_left (λ g '(contract_address, chain),
                           group_insert chain contract_address g) contracts g in
    (∀ a c, grouped g' a c ↔ (a, c) ∈ contracts ∨ grouped g a c)
    ∧ NoDup (map fst g') ∧ Forall (λ cl, cl.2 ≠ []) g').
  { induction contracts as [|[a0 c0] contracts IH]; intros g Hnd Hne; cbn [fold_left].
    - split; [|done]. intros a c. split; [auto|]. intros [H|H]; [|done].
      by apply elem_of_nil in H.
    - destruct (IH (group_insert c0 a0 g)) as (I1 & I2 & I3).
      + rewrite group_insert_chains. case_bool_decide; [done|].
        apply NoDup_app. split; [done|]. split; [|apply NoDup_singleton].
        intros x Hx Hx'. apply list_elem_of_singleton in Hx' as ->. done.
      + by apply group_insert_nonempty.
      + split; [|done]. intros a c. rewrite I1, group_insert_grouped, elem_of_cons.
        split; [intros [?|[[-> ->]|?]]|intros [[[= -> ->]|?]|?]]; auto. }
  destruct (H [] (NoDup_nil_2) (Forall_nil_2 _)) as (H1 & H2 & H3).
  split; [|done]. intros a c. rewrite H1. split; [intros [?|(l & Hl & _)]|auto]; [done|].
  by apply elem_of_nil in Hl.
Qed.

End BatchShape.

Section BatchCache.
Import ContractVerifier.

Lemma append_cancel (s x y : string) : (s ++ x)%string = (s ++ y)%string → x = y.
Proof. induction s as [|c s IH]; cbn; [done|]. intros [= H]. auto. Qed.

Lemma cache_key_lower chain a b :
  cache_key chain a = cache_key chain b → lower a = lower b.
Proof.
  unfold cache_key. intros H. apply append_cancel in H.
  by apply (append_cancel "_") in H.
Qed.

(** The result that a GoPlus entry gives in a batch. *)
Definition goplus_entry (token_info : list (string * JVal)) : ContractVerificationResult :=
  set_verification_source "GoPlus Security" (goplus_result_of token_info).

Lemma await_mfold_cons {A S : Type} (f : S → A → Co S) x l acc w :
  await (mfold f (x :: l) acc) w
  = await (mfold f l (await (f acc x) w).1) (await (f acc x) w).2.
Proof. cbn [mfold]. apply await_bind. Qed.

(** An entry that is a dictionary is listed. *)
Lemma jitem_listed goplus_result k token_info :
  jitem goplus_result k = Returned token_info →
  jcontains goplus_result k = Returned true.
Proof.
  destruct goplus_result as [| | | | |d]; cbn; try done.
  by destruct (assoc k d).
Qed.

(** The world after the loop of [_process_batch_goplus], when the loop
    gets past every address: the clock and the log are as before, and
    every listed address is cached with the clock reading. *)
Lemma goplus_loop_world chain goplus_result l acc w :
  forallb (entry_ok goplus_result) l = true →
  let out := await (goplus_loop chain goplus_result l acc) w in
  now out.2 = now w
  ∧ trace out.2 = trace w
  ∧ cache_ttl (self out.2) = cache_ttl (self w)
  ∧ ∀ a ti, jitem goplus_result (lower a) = Returned (JObj ti) →
      a ∈ l ∨ cache (self w) !! cache_key chain a = Some (now w, goplus_entry ti) →
      cache (self out.2) !! cache_key chain a = Some (now w, goplus_entry ti).
Proof.
  revert acc w. induction l as [|b l IH]; intros acc w Hall; cbn [goplus_loop].
  - cbn. repeat split. intros a ti _ [H|H]; [by apply elem_of_nil in H|done].
  - cbn [forallb] in Hall. apply andb_true_iff in Hall as [Hb Hall].
    unfold entry_ok in Hb.
    destruct (jcontains goplus_result (lower b)) as [[|]|e] eqn:Ec; [| |done].
    + destruct (jitem goplus_result (lower b)) as [[| | | | |tb]|e] eqn:Eb; try done.
      cbn [mbind PyResult_bind goplus_fields]. cbv zeta.
      rewrite await_bind, await_lift.
      unfold cache_put at 1 2. repeat (rewrite bind_run; cbn [fst snd time_time get_self put_self]).
      change (owner_address (set_verification_source "GoPlus Security" (goplus_result_of tb)))
        with (owner_address (goplus_result_of tb)).
      rewrite Hb.
      match goal with
      | |- context [await (goplus_loop chain goplus_result l ?acc') ?w'] =>
          destruct (IH acc' w' Hall) as (I1 & I2 & I3 & I4);
          set (out := await (goplus_loop chain goplus_result l acc') w') in *
      end.
      cbn [now trace self cache_store set_cache cache cache_ttl] in I1, I2, I3, I4.
      repeat split; try done.
      intros a ti Ha Hor. apply (I4 a ti Ha).
      destruct (decide (a ∈ l)) as [?|Hnl]; [by left|right].
      destruct (decide (cache_key chain b = cache_key chain a)) as [Hk|Hk].
      * rewrite Hk, lookup_insert_eq.
        apply cache_key_lower in Hk. rewrite Hk, Ha in Eb. by injection Eb as ->.
      * rewrite lookup_insert_ne by done.
        destruct Hor as [Hin|?]; [|done].
        apply elem_of_cons in Hin as [->|?]; done.
    + cbv zeta.
      match goal with
      | |- context [await (goplus_loop chain goplus_result l ?acc') w] =>
          destruct (IH acc' w Hall) as (I1 & I2 & I3 & I4)
      end.
      repeat split; try done.
      intros a ti Ha Hor. apply (I4 a ti Ha).
      destruct Hor as [Hin|?]; [|by right].
      apply elem_of_cons in Hin as [->|?]; [|by left].
      apply jitem_listed in Ha. congruence.
Qed.

(** X6: an address that a GoPlus batch answer lists is cached by the
    batch: asking [verify_contract_multi_source] for it right afterwards
    returns the batch's result and leaves the world as it is, so no
    request is made and no rate-limit slot is used.  The answer is one
    that the loop of the batch can process to its end. *)
Theorem batch_result_is_cached cfg env addresses chain cid data goplus_result a
    token_info w :
  chain_id chain = Some cid →
  goplus_token_security env cid addresses = HttpResponse 200 (Returned data) →
  body_ok addresses data = true →
  goplus_success data = Returned (Some goplus_result) →
  a ∈ addresses → jitem goplus_result (lower a) = Returned (JObj token_info) →
  (0 < cache_ttl (self w))%Q →
  let out := await (_process_batch_goplus cfg env addresses chain) w in
  out.1 !! a = Some (goplus_entry token_info)
  ∧ await (verify_contract_multi_source cfg env a chain) out.2
    = (goplus_entry token_info, out.2).
Proof.
  intros Hc Hg Hok Hs Hin Hr Httl out.
  assert (Hall : forallb (entry_ok goplus_result) addresses = true).
  { unfold body_ok in Hok. by rewrite Hs in Hok. }
  split.
  - pose proof (yields_await _ _ w
                  (process_batch_goplus_entries cfg env addresses chain cid data Hc Hg Hok))
      as Hv.
    cbn beta in Hv. fold out in Hv. rewrite Hv, decide_True by done.
    unfold answer_entry, batch_entry. rewrite Hs, (jitem_listed _ _ _ Hr), Hr.
    reflexivity.
  - assert (Hout : ∃ w1, cache_ttl (self w1) = cache_ttl (self w)
                         ∧ out.2 = (await (goplus_loop chain goplus_result addresses ∅) w1).2).
    { subst out. unfold _process_batch_goplus. rewrite await_bind.
      destruct (blind_keeps _ w (blind_respect cfg goplus)) as [_ Hk].
      destruct (await (_respect_rate_limit cfg goplus) w) as [[] w1]. cbn [fst snd] in *.
      rewrite Hc, await_bind, await_dispatch. cbn [fst snd].
      rewrite Hg. cbn [json_of Z.eqb Pos.eqb mbind PyResult_bind mret PyResult_ret].
      rewrite await_bind. unfold goplus_batch_of. rewrite Hs.
      eexists. split; [|reflexivity]. exact Hk. }
    destruct Hout as (w1 & Hk & Hout).
    destruct (goplus_loop_world chain goplus_result addresses ∅ w1 Hall)
      as (N1 & _ & N3 & N4).
    cbv zeta in N1, N3, N4. rewrite <- Hout in N1, N3, N4.
    eapply multi_source_hit.
    + apply (N4 a token_info Hr). by left.
    + rewrite N1, N3, Hk. lra.
Qed.

Lemma batch_result_is_cached_witness :
  await (verify_contract_multi_source default_config Scenarios.honeypot_env
           Scenarios.honeypot_address "ethereum")
    (await (_process_batch_goplus default_config Scenarios.honeypot_env
              [Scenarios.honeypot_address] "ethereum") Scenarios.world0).2
  = (goplus_entry Scenarios.honeypot_info,
     (await (_process_batch_goplus default_config Scenarios.honeypot_env
               [Scenarios.honeypot_address] "ethereum") Scenarios.world0).2).
Proof.
  apply (batch_result_is_cached default_config Scenarios.honeypot_env
           [Scenarios.honeypot_address] "ethereum" 1
           Scenarios.honeypot_body
           (JObj [(Scenarios.honeypot_address, JObj Scenarios.honeypot_info)])
           Scenarios.honeypot_address Scenarios.honeypot_info Scenarios.world0);
    try reflexivity.
  apply list_elem_of_singleton. reflexivity.
Defined.

End BatchCache.

Section Fallback.
Import ContractVerifier.

(** The result given to every token of a network taken on trust. *)
Definition trusted_network_result (source : string) : ContractVerificationResult :=
  set_verification_source source (set_is_verified true default_result).

Lemma await_mfold_lookup
    (f : gmap string ContractVerificationResult → string
         → Co (gmap string ContractVerificationResult))
    (g : string → ContractVerificationResult) l acc w a :
  (∀ acc a w, (await (f acc a) w).1 = <[a := g a]> acc) →
  a ∈ l → (await (mfold f l acc) w).1 !! a = Some (g a).
Proof.
  intros Hf. revert acc w.
  assert (Hkeep : ∀ l acc w, acc !! a = Some (g a) →
                             (await (mfold f l acc) w).1 !! a = Some (g a)).
  { clear l. induction l as [|b l IH]; intros acc w Hacc; [done|].
    rewrite await_mfold_cons. apply IH. rewrite Hf.
    destruct (decide (b = a)) as [->|Hne];
      [apply lookup_insert_eq | by rewrite lookup_insert_ne]. }
  induction l as [|b l IH]; intros acc w Hin; [by apply elem_of_nil in Hin|].
  rewrite await_mfold_cons.
  destruct (decide (a = b)) as [->|Hne].
  - apply Hkeep. rewrite Hf. apply lookup_insert_eq.
  - apply IH. set_solver.
Qed.

(** X7: for the networks "ton" and "sonic" the fallback asks no service:
    every address is reported as verified with the network as source,
    the clock does not move and nothing is handed to the network. *)
Theorem trusted_networks_need_no_request cfg env (addresses : list string)
    (chain source : string) (w : World) :
  chain = "ton" ∧ source = "TON Network" ∨ chain = "sonic" ∧ source = "Sonic Network" →
  let out := await (_process_batch_fallback cfg env addresses chain) w in
  (∀ a, a ∈ addresses → out.1 !! a = Some (trusted_network_result source))
  ∧ dom out.1 = list_to_set addresses
  ∧ now out.2 = now w
  ∧ trace out.2 = trace w.
Proof.
  intros Hchain out. subst out.
  pose proof (yields_await _ _ w (fallback_dom cfg env addresses chain)) as Hdom.
  cbn beta in Hdom. unfold _process_batch_fallback in *.
  set (f := λ (results : gmap string ContractVerificationResult) (address : string), _)
    in *.
  assert (Hstep : ∀ acc b w',
            await (f acc b) w'
            = (<[b := trusted_network_result source]> acc,
               {| now := now w'; trace := trace w';
                  self := cache_store (now w') (cache_key chain b)
                            (trusted_network_result source) (self w') |})).
  { intros acc b w'. unfold f.
    destruct Hchain as [[-> ->]|[-> ->]]; cbn [String.eqb Ascii.eqb Bool.eqb];
      rewrite await_bind, await_ret; cbn [fst snd]; rewrite await_bind, await_lift;
      unfold cache_put; repeat (rewrite bind_run; cbn); reflexivity. }
  clearbody f.
  assert (Hworld : ∀ l acc w', now (await (mfold f l acc) w').2 = now w'
                               ∧ trace (await (mfold f l acc) w').2 = trace w').
  { induction l as [|b l IH]; intros acc w'; [done|].
    rewrite await_mfold_cons, Hstep. cbn [fst snd].
    by rewrite !(proj1 (IH _ _)), !(proj2 (IH _ _)). }
  split; [|split; [exact Hdom|apply Hworld]].
  intros a Ha.
  apply (await_mfold_lookup f (λ _, trusted_network_result source)); [|done].
  intros acc b w'. by rewrite Hstep.
Qed.

Lemma trusted_networks_need_no_request_witness :
  (await (_process_batch_fallback default_config Scenarios.failing_env
            ["EQabc"; "EQdef"] "ton") Scenarios.world0).1 !! "EQdef"
  = Some (trusted_network_result "TON Network").
Proof.
  apply (trusted_networks_need_no_request default_config Scenarios.failing_env
           ["EQabc"; "EQdef"] "ton" "TON Network" Scenarios.world0).
  - left. split; reflexivity.
  - apply elem_of_cons. right. apply list_elem_of_singleton. reflexivity.
Defined.

End Fallback.

Section LimiterClock.
Import ContractVerifier Pacing.

Lemma limit_wait_clock cfg api t w :
  (now w <= now (limit_wait cfg api t w))%Q
  ∧ last_request_time (self (limit_wait cfg api t w)) = last_request_time (self w)
  ∧ request_delays (self (limit_wait cfg api t w)) = request_delays (self w).
Proof.
  unfold limit_wait. destruct (_ && _); [|split; [lra|done]].
  destruct (Qgt_bool _ _) eqn:E; [|split; [lra|done]].
  apply Qgt_bool_true in E. cbn. rewrite Qred_correct. split; [lra|done].
Qed.

(** X8: [_respect_rate_limit] never turns the clock back, and it lets
    a request through no earlier than [request_delays] after the
    previous call for the same service entered the limiter. *)
Theorem respect_rate_limit_clock (cfg : Config) (api : ApiType) (w : World) :
  let w' := (await (_respect_rate_limit cfg api) w).2 in
  (now w <= now w')%Q
  ∧ (∀ last, last_request_time (self w) api = Some last →
       (last + request_delays (self w) api <= now w')%Q)
  ∧ last_request_time (self w') api = Some (now w).
Proof.
  cbn zeta. rewrite respect_steps. cbn [snd].
  assert (H1 : now (minute_reset (now w) w) = now w
               ∧ last_request_time (self (minute_reset (now w) w))
                 = last_request_time (self w)
               ∧ request_delays (self (minute_reset (now w) w))
                 = request_delays (self w)).
  { unfold minute_reset. destruct (Qgt_bool _ _); done. }
  destruct H1 as (A1 & A2 & A3).
  set (w1 := minute_reset (now w) w) in *.
  destruct (limit_wait_clock cfg api (now w) w1) as (B1 & B2 & B3).
  set (w2 := limit_wait cfg api (now w) w1) in *.
  rewrite A1 in B1. rewrite A2 in B2. rewrite A3 in B3.
  unfold count_call, spacing_wait. cbn [now self].
  rewrite B2, B3.
  split; [|split].
  - destruct (last_request_time (self w) api) as [l|]; [|exact B1].
    destruct (Qlt_bool _ _) eqn:E; [|exact B1].
    apply Qlt_bool_true in E. cbn. rewrite Qred_correct. lra.
  - intros last Hlast. rewrite Hlast.
    destruct (Qlt_bool _ _) eqn:E.
    + cbn. rewrite Qred_correct. lra.
    + apply Qlt_bool_false in E. lra.
  - destruct (last_request_time (self w) api); [destruct (Qlt_bool _ _)|];
      cbn; unfold upd; by rewrite decide_True.
Qed.

Lemma respect_rate_limit_clock_witness :
  (0 + request_delays
         (self (await (_respect_rate_limit default_config goplus) Scenarios.world0).2)
         goplus
   <= now (await (_respect_rate_limit default_config goplus)
             (await (_respect_rate_limit default_config goplus) Scenarios.world0).2).2)%Q.
Proof.
  apply (respect_rate_limit_clock default_config goplus
           (await (_respect_rate_limit default_config goplus) Scenarios.world0).2).
  reflexivity.
Defined.

(** X9: the edge of the per-minute limit.  A [goplus] call that arrives
    with the counter full exactly 60 seconds after the last reset is
    neither held back nor does it reset the counter: it is counted on
    top of the limit. *)
Theorem full_counter_passes_at_the_edge (cfg : Config) (w : World) :
  at_edge cfg w →
  let w' := (await (_respect_rate_limit cfg goplus) w).2 in
  request_counters (self w') goplus = request_counters (self w) goplus + 1
  ∧ GOPLUS_RATE_LIMIT cfg < request_counters (self w') goplus
  ∧ counter_reset_time (self w') = counter_reset_time (self w)
  ∧ trace w' = trace w.
Proof.
  intros [Hfull Hedge]. cbn zeta. rewrite respect_steps. cbn [snd].
  assert (H1 : minute_reset (now w) w = w).
  { unfold minute_reset. destruct (Qgt_bool _ _) eqn:E; [|done].
    apply Qgt_bool_true in E. exfalso. lra. }
  rewrite H1.
  assert (H2 : limit_wait cfg goplus (now w) w = w).
  { unfold limit_wait. destruct (_ && _); [|done].
    destruct (Qgt_bool _ _) eqn:E; [|done].
    apply Qgt_bool_true in E. exfalso. lra. }
  rewrite H2.
  unfold count_call, spacing_wait.
  destruct (last_request_time (self w) goplus); [destruct (Qlt_bool _ _)|];
    cbn; unfold upd; rewrite decide_True by done; repeat split; lia.
Qed.

Lemma full_counter_passes_at_the_edge_witness :
  request_counters
    (self (await (_respect_rate_limit default_config goplus)
             {| now := 60; trace := [];
                self := set_request_counters (λ _, 30) (init default_config 0) |}).2)
    goplus = 31.
Proof.
  apply (full_counter_passes_at_the_edge default_config
           {| now := 60; trace := [];
              self := set_request_counters (λ _, 30) (init default_config 0) |}).
  split; [cbn; lia|reflexivity].
Defined.

End LimiterClock.

Section Statistics.
Import ContractVerifier.

Lemma count_cached_le p (c : gmap string (Q * ContractVerificationResult)) :
  (count_cached p c ≤ size c)%nat.
Proof.
  unfold count_cached. rewrite <- (length_map_to_list c). apply length_filter.
Qed.

Lemma ratio_percent (v t : nat) :
  (v ≤ t)%nat → (0 < t)%nat →
  (0 <= inject_Z (Z.of_nat v) / inject_Z (Z.of_nat t) * 100 <= 100)%Q.
Proof.
  intros Hvt Ht.
  assert (Ht' : (0 < inject_Z (Z.of_nat t))%Q).
  { change 0%Q with (inject_Z 0). rewrite <- Zlt_Qlt. lia. }
  assert (Hv' : (0 <= inject_Z (Z.of_nat v))%Q).
  { change 0%Q with (inject_Z 0). rewrite <- Zle_Qle. lia. }
  assert (Hvt' : (inject_Z (Z.of_nat v) <= inject_Z (Z.of_nat t))%Q).
  { rewrite <- Zle_Qle. lia. }
  assert (H0 : (0 <= inject_Z (Z.of_nat v) / inject_Z (Z.of_nat t))%Q).
  { apply Qle_shift_div_l; [exact Ht'|]. lra. }
  assert (H1 : (inject_Z (Z.of_nat v) / inject_Z (Z.of_nat t) <= 1)%Q).
  { apply Qle_shift_div_r; [exact Ht'|]. lra. }
  split; lra.
Qed.

(** X10: in the statistics of the verifier the verified and the
    honeypot contracts are counted among the cached ones, the
    verification rate is a percentage, and an empty cache gives a rate
    of 0 instead of a division by zero. *)
Theorem verification_stats_bounds (v : Verifier) :
  let stats := get_verification_stats v in
  total_contracts_checked stats = size (cache v)
  ∧ (verified_contracts stats ≤ total_contracts_checked stats)%nat
  ∧ (honeypot_contracts stats ≤ total_contracts_checked stats)%nat
  ∧ (0 <= verification_rate stats <= 100)%Q
  ∧ (cache v = ∅ → verification_rate stats = 0%Q).
Proof.
  cbn zeta. unfold get_verification_stats.
  cbn [total_contracts_checked verified_contracts honeypot_contracts verification_rate].
  split; [reflexivity|]. split; [apply count_cached_le|].
  split; [apply count_cached_le|]. split.
  - destruct (Nat.ltb_spec 0 (size (cache v))); [|lra].
    apply ratio_percent; [apply count_cached_le|done].
  - intros ->. reflexivity.
Qed.

Lemma verification_stats_bounds_witness :
  verification_rate (get_verification_stats (init default_config 0)) = 0%Q.
Proof.
  apply (verification_stats_bounds (init default_config 0)). reflexivity.
Defined.

End Statistics.

Section Sources.
Import ContractVerifier.

(** The result names where it comes from. *)
Definition sourced (r : ContractVerificationResult) : Prop :=
  verification_source r ≠ ""%string.

Lemma append_nonempty (s t : string) : t ≠ ""%string → (s ++ t)%string ≠ ""%string.
Proof. destruct s; cbn; [done|]. intros _ [=]. Qed.

Lemma chain_id_none_not_explorer chain :
  chain_id chain = None →
  String.eqb chain "ethereum" = false ∧ String.eqb chain "bsc" = false.
Proof.
  intros H. split.
  - destruct (String.eqb_spec chain "ethereum") as [->|]; [discriminate H|done].
  - destruct (String.eqb_spec chain "bsc") as [->|]; [discriminate H|done].
Qed.

Lemma fallback_sourced cfg env addresses chain :
  chain_id chain = None →
  yields (map_Forall (λ _, sourced)) (_process_batch_fallback cfg env addresses chain).
Proof.
  intros Hc. destruct (chain_id_none_not_explorer chain Hc) as [He Hb].
  unfold _process_batch_fallback.
  apply yields_mfold_invariant; [|apply map_Forall_empty].
  intros acc a Hacc.
  eapply (yields_bind sourced).
  - destruct (String.eqb chain "solana").
    { apply yields_then. intros [r|]; by apply yields_ret. }
    destruct (String.eqb chain "ton"); [by apply yields_ret|].
    destruct (String.eqb chain "sonic"); [by apply yields_ret|].
    unfold _check_fallback_sources. rewrite He, Hb.
    apply yields_ret. unfold sourced. cbn. by apply append_nonempty.
  - intros result Hres. apply yields_then. intros _. apply yields_ret.
    by apply map_Forall_insert_2.
Qed.

Lemma answer_entry_sourced data a : sourced (answer_entry data a).
Proof.
  unfold answer_entry, batch_entry.
  destruct (goplus_success data) as [[goplus_result|]|e]; try done.
  destruct (jcontains goplus_result (lower a)) as [[|]|e]; try done.
  by destruct (jitem goplus_result (lower a)) as [[| | | | |ti]|e].
Qed.

Lemma goplus_batch_sourced cfg env addresses chain :
  yields (map_Forall (λ _, sourced)) (_process_batch_goplus cfg env addresses chain).
Proof.
  apply process_batch_goplus_cases; [apply fallback_sourced|].
  intros cid Hc.
  destruct (json_of (goplus_token_security env cid addresses)) as [[data|]|e];
    [|apply map_Forall_empty..].
  eapply yields_mono; [|apply goplus_batch_of_yields].
  intros [d|e]; [|intros _; apply map_Forall_empty].
  intros [_ Hd] a r Har. rewrite Hd in Har.
  destruct (decide (a ∈ addresses)); [|done].
  injection Har as <-. apply answer_entry_sourced.
Qed.

(** X11: every entry of the map returned by [verify_contracts_batch]
    names its source: no result is returned with an empty
    [verification_source]. *)
Theorem batch_results_name_their_source (cfg : Config) (env : Env)
    (contracts : list (string * string)) (w : World) :
  map_Forall (λ _ r, verification_source r ≠ ""%string)
    (verify_contracts_batch cfg env contracts w).1.
Proof.
  destruct (verify_contracts_batch_merge cfg env contracts w
              (λ _ _, map_Forall (λ _, sourced))) as (ds & F & ->).
  { intros chain b. apply goplus_batch_sourced. }
  assert (Hds : Forall (map_Forall (λ _, sourced)) ds).
  { apply Forall_forall. intros d Hd. apply list_elem_of_lookup in Hd as [i Hi].
    by destruct (Forall2_lookup_r _ _ _ _ _ F Hi) as (cb & _ & H). }
  clear F. generalize (map_Forall_empty (M := gmap string) (λ _, sourced)).
  generalize (∅ : gmap string ContractVerificationResult).
  induction Hds as [|d ds Hd Hds IH]; intros acc Hacc; cbn [fold_left]; [exact Hacc|].
  apply IH. by apply map_Forall_union_2.
Qed.

End Sources.

Section MultiSource.
Import ContractVerifier.

(** X12: on a cache miss for a chain other than Solana, a contract that
    GoPlus reports as open source is returned as verified by
    [verify_contract_multi_source]: the explorers can add a verification
    but cannot take one away. *)
Theorem goplus_verification_is_kept cfg env (a chain : string) (w : World)
    (g : ContractVerificationResult) :
  cache_lookup (self w) (now w) (cache_key chain a) = None →
  chain ≠ "solana"%string →
  (await (_check_goplus_security cfg env a chain) w).1 = Some g →
  is_verified g = true →
  is_verified (await (verify_contract_multi_source cfg env a chain) w).1 = true.
Proof.
  intros Hmiss Hsol Hg Hv. rewrite multi_source_run, Hmiss. cbv zeta. cbn [fst].
  unfold multi_source_checks. cbv zeta. rewrite await_bind.
  destruct (await (_check_goplus_security cfg env a chain) w) as [g' w1].
  cbn [fst snd] in *. subst g'. rewrite await_bind.
  match goal with
  | |- context [await ?c w1] =>
      assert (H2 : is_verified (await c w1).1 = true); [|destruct (await c w1) as [r2 w2]]
  end.
  { change (is_verified (set_verification_source "GoPlus Security" g))
      with (is_verified g).
    rewrite Hv. cbn [negb orb].
    destruct (str_in chain _); [|exact Hv].
    rewrite await_bind.
    destruct (await (_check_fallback_sources cfg env a chain) w1) as [[fb|] w2];
      cbn [fst snd]; rewrite await_ret; cbn [fst]; [|exact Hv].
    by destruct (String.eqb _ _). }
  cbn [fst snd] in *.
  destruct (String.eqb_spec chain "solana"); [done|].
  rewrite await_ret. exact H2.
Qed.

Lemma goplus_verification_is_kept_witness :
  is_verified
    (await (verify_contract_multi_source default_config Scenarios.honeypot_env
              Scenarios.honeypot_address "ethereum") Scenarios.world0).1 = true.
Proof.
  apply (goplus_verification_is_kept default_config Scenarios.honeypot_env
           Scenarios.honeypot_address "ethereum" Scenarios.world0
           (goplus_result_of Scenarios.honeypot_info)); try reflexivity.
  discriminate.
Defined.

End MultiSource.

(** ** More on the retry loop of the scanner *)

Section Retry.
Import TokenScanner.

Context {Dict : Type} (empty_dict : Dict).

(** The range in which the adaptive delay is kept. *)
Definition delay_in_range (d : Q) : Prop := (2 <= d <= 15)%Q.

Lemma py_min_range d : (2 <= d)%Q → delay_in_range (py_min (d * 2) 15).
Proof.
  intros H. unfold delay_in_range, py_min.
  destruct (Qlt_bool _ _) eqn:E; [split; lra|].
  apply Qlt_bool_false in E. split; lra.
Qed.

Lemma py_max_range d : (d <= 15)%Q → delay_in_range (py_max (d * (95 # 100)) 2).
Proof.
  intros H. unfold delay_in_range, py_max.
  destruct (Qgt_bool _ _) eqn:E; [split; lra|].
  apply Qgt_bool_false in E. split; lra.
Qed.

Lemma attempts_delay_in_range (net : Net Dict) remaining attempt s slept :
  delay_in_range (adaptive_delay s) →
  delay_in_range (adaptive_delay (scanner (attempts empty_dict net remaining attempt s slept))).
Proof.
  revert attempt s slept. induction remaining as [|rest IH]; intros attempt s slept Hs;
    [exact Hs|].
  cbn [attempts].
  assert (Hh : ∀ s' slept', delay_in_range (adaptive_delay s') →
            delay_in_range (adaptive_delay (scanner
              (if attempt =? max_retries s' - 1
               then {| value := Returned empty_dict; scanner := s'; sleeps := slept |}
               else attempts empty_dict net rest (attempt + 1) s' slept')))).
  { intros s' slept' Hs'. destruct (attempt =? _); [exact Hs'|by apply IH]. }
  destruct (attempt_outcome net attempt) as [e|e| |status body];
    [by apply Hh|by apply Hh|exact Hs|].
  assert (Hc : adaptive_delay (count_request s) = adaptive_delay s) by reflexivity.
  destruct (status =? 429).
  - assert (Hr : delay_in_range (adaptive_delay
                   (set_adaptive_delay (py_min (adaptive_delay (count_request s) * 2) 15)
                      (count_request s)))).
    { cbn [adaptive_delay set_adaptive_delay _adaptive_delay default].
      apply py_min_range. rewrite Hc. apply Hs. }
    destruct (attempt <? _); [by apply IH|exact Hr].
  - assert (Hr : delay_in_range (adaptive_delay
                   (if status =? 200
                    then set_adaptive_delay
                           (py_max (adaptive_delay (count_request s) * (95 # 100)) 2)
                           (count_request s)
                    else count_request s))).
    { destruct (status =? 200); [|by rewrite Hc].
      cbn [adaptive_delay set_adaptive_delay _adaptive_delay default].
      apply py_max_range. rewrite Hc. apply Hs. }
    destruct (400 <=? status); [by apply Hh|].
    destruct body; [exact Hr|by apply Hh].
Qed.

(** X13: the adaptive delay stays between 2 and 15 seconds: whatever
    the answers of the service, a call of [_make_async_request] that
    starts with a delay in that range (or with none set, which reads as
    2) ends with a delay in that range. *)
Theorem adaptive_delay_stays_in_range (net : Net Dict) (s : Scanner) :
  delay_in_range (adaptive_delay s) →
  delay_in_range (adaptive_delay (scanner (_make_async_request empty_dict net s))).
Proof. intros Hs. by apply attempts_delay_in_range. Qed.

(** An attempt that brings a usable answer. *)
Definition succeeds (a : Attempt Dict) (d : Dict) : Prop :=
  ∃ status, a = Response status (Returned d) ∧ status ≠ 429 ∧ status < 400.

Lemma attempts_first_success (net : Net Dict) remaining attempt s slept k d :
  max_retries s = attempt + Z.of_nat remaining →
  attempt ≤ k < max_retries s →
  (∀ i, attempt ≤ i < k → failed (attempt_outcome net i)) →
  succeeds (attempt_outcome net k) d →
  value (attempts empty_dict net remaining attempt s slept) = Returned d.
Proof.
  revert attempt s slept.
  induction remaining as [|rest IH]; intros attempt s slept Hmax Hk Hfail Hsucc; [lia|].
  cbn [attempts].
  destruct (Z.eq_dec attempt k) as [->|Hne].
  - destruct Hsucc as (status & -> & H429 & H400).
    destruct (Z.eqb_spec status 429); [done|].
    destruct (Z.leb_spec 400 status); [lia|]. reflexivity.
  - assert (Hrec : ∀ s' slept', max_retries s' = max_retries s →
              value (if attempt =? max_retries s' - 1
                     then {| value := Returned empty_dict; scanner := s'; sleeps := slept |}
                     else attempts empty_dict net rest (attempt + 1) s' slept')
              = Returned d).
    { intros s' slept' Hs'. destruct (Z.eqb_spec attempt (max_retries s' - 1)); [lia|].
      apply IH; [lia|lia| |exact Hsucc]. intros i Hi. apply Hfail. lia. }
    pose proof (Hfail attempt ltac:(lia)) as Hf.
    destruct (attempt_outcome net attempt) as [e|e| |status body]; cbn in Hf;
      [by apply Hrec|by apply Hrec|done|].
    destruct (Z.eqb_spec status 429) as [->|H429].
    + cbn [max_retries set_adaptive_delay count_request].
      destruct (Z.ltb_spec attempt (max_retries s - 1)); [|lia].
      apply IH; [cbn; lia|cbn; lia| |exact Hsucc]. intros i Hi. apply Hfail. lia.
    + destruct (Z.leb_spec 400 status).
      * apply Hrec. by destruct (status =? 200).
      * destruct body as [d'|e].
        -- exfalso. destruct Hf as [?|[?|[e [=]]]]; lia.
        -- apply Hrec. by destruct (status =? 200).
Qed.

(** X14: [_make_async_request] returns the body of the first attempt
    that brings a usable answer, when the attempts before it failed and
    it is within [max_retries]. *)
Theorem first_usable_answer_is_returned (net : Net Dict) (s : Scanner) (k : Z) (d : Dict) :
  0 ≤ k < max_retries s →
  (∀ i, 0 ≤ i < k → failed (attempt_outcome net i)) →
  succeeds (attempt_outcome net k) d →
  value (_make_async_request empty_dict net s) = Returned d.
Proof.
  intros Hk Hfail Hsucc. unfold _make_async_request.
  apply (attempts_first_success net _ 0 s _ k d); [lia|lia|exact Hfail|exact Hsucc].
Qed.

Lemma attempts_effort (net : Net Dict) remaining attempt s slept :
  max_retries s = attempt + Z.of_nat remaining →
  let out := attempts empty_dict net remaining attempt s slept in
  request_count s ≤ request_count (scanner out) ≤ request_count s + Z.of_nat remaining
  ∧ (length (sleeps out) ≤ length slept + pred remaining)%nat
  ∧ max_retries (scanner out) = max_retries s.
Proof.
  revert attempt s slept.
  induction remaining as [|rest IH]; intros attempt s slept Hmax; cbn zeta.
  { cbn. lia. }
  cbn [attempts].
  assert (Hrec : ∀ s' slept',
            max_retries s' = max_retries s →
            request_count s ≤ request_count s' ≤ request_count s + 1 →
            length slept' = S (length slept) →
            let out := if attempt =? max_retries s' - 1
                       then {| value := Returned empty_dict; scanner := s'; sleeps := slept |}
                       else attempts empty_dict net rest (attempt + 1) s' slept' in
            request_count s ≤ request_count (scanner out)
              ≤ request_count s + Z.of_nat (S rest)
            ∧ (length (sleeps out) ≤ length slept + pred (S rest))%nat
            ∧ max_retries (scanner out) = max_retries s).
  { intros s' slept' Hs' Hc Hl. cbn zeta.
    destruct (Z.eqb_spec attempt (max_retries s' - 1)); [cbn; lia|].
    destruct (IH (attempt + 1) s' slept' ltac:(lia)) as (I1 & I2 & I3).
    destruct rest; [lia|]. cbn [pred] in *. lia. }
  destruct (attempt_outcome net attempt) as [e|e| |status body].
  - apply Hrec; [done|lia|]. rewrite length_app. cbn. lia.
  - apply Hrec; [done|lia|]. rewrite length_app. cbn. lia.
  - cbn. lia.
  - destruct (status =? 429).
    + cbn [max_retries set_adaptive_delay count_request].
      destruct (Z.ltb_spec attempt (max_retries s - 1)); [|cbn; lia].
      match goal with
      | |- context [attempts _ _ rest ?a ?s' ?sl] =>
          assert (Hc : request_count s' = request_count s + 1) by reflexivity;
          assert (Hm : max_retries s' = max_retries s) by reflexivity;
          assert (Hl : length sl = S (length slept))
            by (rewrite length_app; cbn [length]; lia);
          generalize dependent s'; generalize dependent sl
      end.
      intros sl Hl s' Hc Hm.
      destruct (IH (attempt + 1) s' sl ltac:(lia)) as (I1 & I2 & I3).
      destruct rest; [lia|]. cbn [pred] in *. lia.
    + destruct (400 <=? status).
      * apply Hrec; [by destruct (status =? 200)|destruct (status =? 200); cbn; lia|].
        rewrite length_app. cbn. lia.
      * destruct body.
        -- destruct (status =? 200); cbn; lia.
        -- apply Hrec; [by destruct (status =? 200)|destruct (status =? 200); cbn; lia|].
           rewrite length_app. cbn. lia.
Qed.

(** X15: a call of [_make_async_request] makes at most [max_retries]
    requests and sleeps at most [max_retries] times (once when
    [max_retries] is not positive): the retries are bounded. *)
Theorem retries_are_bounded (net : Net Dict) (s : Scanner) :
  let out := _make_async_request empty_dict net s in
  request_count s ≤ request_count (scanner out)
    ≤ request_count s + Z.max 0 (max_retries s)
  ∧ Z.of_nat (length (sleeps out)) ≤ Z.max 1 (max_retries s)
  ∧ max_retries (scanner out) = max_retries s.
Proof.
  cbn zeta. unfold _make_async_request.
  destruct (Z.le_gt_cases (max_retries s) 0) as [Hle|Hgt].
  - replace (Z.to_nat (max_retries s)) with 0%nat by lia. cbn. lia.
  - destruct (attempts_effort net (Z.to_nat (max_retries s)) 0 s
                [uniform (adaptive_delay s) (adaptive_delay s * 2) (first_draw net)]
                ltac:(lia)) as (I1 & I2 & I3).
    cbn [length] in I2. split; [lia|]. split; [|exact I3].
    assert (pred (Z.to_nat (max_retries s)) = Z.to_nat (max_retries s - 1)) by lia.
    lia.
Qed.

End Retry.

Section RetryWitness.
Import TokenScanner.

Lemma adaptive_delay_stays_in_range_witness :
  delay_in_range
    (adaptive_delay
       (scanner
          (_make_async_request (∅ : gmap string string)
             {| attempt_outcome := λ _, Response 429 (Returned ∅);
                first_draw := 1 # 2; draw := λ _, 1 # 2 |}
             {| max_retries := 5; request_count := 0; _adaptive_delay := None |}))).
Proof.
  apply adaptive_delay_stays_in_range. unfold delay_in_range. cbn. lra.
Defined.

Lemma first_usable_answer_is_returned_witness :
  value
    (_make_async_request (∅ : gmap string string)
       {| attempt_outcome := λ i,
            if i =? 0 then Response 429 (Returned ∅)
            else Response 200 (Returned {[ "pairs" := "p" ]});
          first_draw := 1 # 2; draw := λ _, 1 # 2 |}
       {| max_retries := 3; request_count := 0; _adaptive_delay := None |})
  = Returned {[ "pairs" := "p" ]}.
Proof.
  apply (first_usable_answer_is_returned (∅ : gmap string string) _ _ 1).
  - cbn. lia.
  - intros i Hi. assert (i = 0) as -> by lia. cbn. left. reflexivity.
  - exists 200. cbn. repeat split; lia.
Defined.

End RetryWitness.

(** ** More on the composite risk score *)

Section RiskScoreShape.
Import RiskScoreCalculator.

(** The position of a level on the scale, safest first. *)
Definition level_rank (l : RiskLevel) : Z :=
  match l with
  | LOW => 0
  | MEDIUM => 1
  | HIGH => 2
  | CRITICAL => 3
  end.

Lemma get_risk_level_monotone (s1 s2 : Q) :
  (s1 <= s2)%Q → level_rank (get_risk_level s1) ≤ level_rank (get_risk_level s2).
Proof.
  intros H. unfold get_risk_level. qcases; cbn; try lia; lra.
Qed.

(** The safest and the most dangerous report the model can express. *)
Definition safest_report : TokenSecurityReport :=
  {| token_address := "0x0"; chain := "ethereum";
     contract_analysis :=
       {| verified := true;
          audit_results := {| critical := 0; high := 0; medium := 0; low := 0 |};
          dangerous_functions := []; honeypot_probability := 0 |};
     ownership := {| owner := ""; owner_type := RENOUNCED; renounced := true |};
     distribution :=
       {| top_10_holders_percent := 10; gini_coefficient := 2 # 10;
          total_holders := 1000; liquidity_locked := true;
          liquidity_lock_period := Some 400 |};
     trading :=
       {| unique_buyers_24h := 100; unique_sellers_24h := 100;
          wash_trading_score := 0; organic_volume_ratio := 1 |} |}.

Definition riskiest_report : TokenSecurityReport :=
  {| token_address := "0x0"; chain := "ethereum";
     contract_analysis :=
       {| verified := true;
          audit_results := {| critical := 1; high := 0; medium := 0; low := 0 |};
          dangerous_functions := []; honeypot_probability := 9 # 10 |};
     ownership := {| owner := "0x1"; owner_type := EOA; renounced := false |};
     distribution :=
       {| top_10_holders_percent := 90; gini_coefficient := 9 # 10;
          total_holders := 10; liquidity_locked := false;
          liquidity_lock_period := None |};
     trading :=
       {| unique_buyers_24h := 1; unique_sellers_24h := 1;
          wash_trading_score := 9 # 10; organic_volume_ratio := 1 # 10 |} |}.

Lemma verification_score_tight td :
  (1 # 10 <= calculate_verification_score td <= 9 # 10)%Q.
Proof.
  unfold calculate_verification_score.
  destruct (verified _); simpl; zcases; split; lra.
Qed.

Lemma liquidity_score_tight td :
  (1 # 10 <= calculate_liquidity_score td <= 9 # 10)%Q.
Proof.
  unfold calculate_liquidity_score.
  destruct (liquidity_locked _); [|split; lra].
  destruct (period_over _ 365); [split; lra|].
  destruct (period_over _ 180); split; lra.
Qed.

Lemma distribution_score_tight td :
  (2 # 10 <= calculate_distribution_score td <= 9 # 10)%Q.
Proof.
  unfold calculate_distribution_score.
  repeat match goal with |- context [if ?b then _ else _] => destruct b end; split; lra.
Qed.

Lemma trading_score_tight td :
  (2 # 10 <= calculate_trading_score td <= 9 # 10)%Q.
Proof.
  unfold calculate_trading_score.
  repeat match goal with |- context [if ?b then _ else _] => destruct b end; split; lra.
Qed.

Lemma audit_score_tight td :
  (1 # 10 <= calculate_audit_score td <= 9 # 10)%Q.
Proof.
  unfold calculate_audit_score.
  repeat match goal with |- context [if ?b then _ else _] => destruct b end; split; lra.
Qed.

Lemma overall_score_eq td :
  ∃ a, calculate_risk_score td = Some a
       ∧ risk_level a = get_risk_level (overall_score a)
       ∧ recommendations a = generate_recommendations (compute_scores td) td
       ∧ (overall_score a == weighted_score_spec td)%Q.
Proof.
  unfold calculate_risk_score. rewrite weighted_sum_compute_scores.
  eexists; split; [reflexivity|]. split; [reflexivity|]. split; [reflexivity|].
  simpl overall_score. unfold weighted_score_spec. ring.
Qed.

(** X16: the composite score of [calculate_risk_score] never leaves the
    interval from 0.115 to 0.87: no report is rated free of risk, none
    reaches 1, and both ends are reached by some report. *)
Theorem overall_score_tight_bounds :
  (∀ td, ∃ a, calculate_risk_score td = Some a
              ∧ (115 # 1000 <= overall_score a <= 87 # 100)%Q)
  ∧ (∃ a, calculate_risk_score safest_report = Some a
          ∧ (overall_score a == 115 # 1000)%Q ∧ risk_level a = LOW)
  ∧ (∃ a, calculate_risk_score riskiest_report = Some a
          ∧ (overall_score a == 87 # 100)%Q ∧ risk_level a = CRITICAL).
Proof.
  split; [|split].
  - intros td. destruct (overall_score_eq td) as (a & Ha & _ & _ & Hs).
    exists a. split; [exact Ha|]. rewrite Hs. unfold weighted_score_spec.
    pose proof (verification_score_tight td) as [? ?].
    pose proof (ownership_score_range td) as [? ?].
    pose proof (liquidity_score_tight td) as [? ?].
    pose proof (distribution_score_tight td) as [? ?].
    pose proof (trading_score_tight td) as [? ?].
    pose proof (audit_score_tight td) as [? ?].
    unfold calculate_community_score. split; lra.
  - eexists. split; [reflexivity|]. split; reflexivity.
  - eexists. split; [reflexivity|]. split; reflexivity.
Qed.

(** The report after the owner has renounced the contract. *)
Definition renounce (td : TokenSecurityReport) : TokenSecurityReport :=
  {| token_address := token_address td; chain := chain td;
     contract_analysis := contract_analysis td;
     ownership := {| owner := owner (ownership td);
                     owner_type := owner_type (ownership td);
                     renounced := true |};
     distribution := distribution td;
     trading := trading td |}.

(** The report after the liquidity has been locked for [period] days. *)
Definition lock_liquidity (period : Z) (td : TokenSecurityReport) : TokenSecurityReport :=
  {| token_address := token_address td; chain := chain td;
     contract_analysis := contract_analysis td;
     ownership := ownership td;
     distribution :=
       {| top_10_holders_percent := top_10_holders_percent (distribution td);
          gini_coefficient := gini_coefficient (distribution td);
          total_holders := total_holders (distribution td);
          liquidity_locked := true;
          liquidity_lock_period := Some period |};
     trading := trading td |}.

Lemma period_over_monotone p q n :
  p ≤ q → period_over (Some p) n = true → 0 ≤ n → period_over (Some q) n = true.
Proof.
  unfold period_over. intros Hpq H Hn.
  apply andb_true_iff in H as [H1 H2].
  apply andb_true_iff. split.
  - apply negb_true_iff, Z.eqb_neq. apply Z.gtb_gt in H2. lia.
  - apply Z.gtb_gt. apply Z.gtb_gt in H2. lia.
Qed.

(** X17: the risk level follows the composite score, and the safeguards
    pay off: renouncing ownership never raises the composite score or
    the level of a report, and neither does locking the liquidity of a
    report whose liquidity was not locked. *)
Theorem safeguards_never_raise_the_risk (td : TokenSecurityReport) (period : Z) :
  ∃ a a_renounced a_locked,
    calculate_risk_score td = Some a
    ∧ calculate_risk_score (renounce td) = Some a_renounced
    ∧ (overall_score a_renounced <= overall_score a)%Q
    ∧ level_rank (risk_level a_renounced) ≤ level_rank (risk_level a)
    ∧ calculate_risk_score (lock_liquidity period td) = Some a_locked
    ∧ (liquidity_locked (distribution td) = false →
         (overall_score a_locked <= overall_score a)%Q
         ∧ level_rank (risk_level a_locked) ≤ level_rank (risk_level a)).
Proof.
  destruct (overall_score_eq td) as (a & Ha & La & _ & Hs).
  destruct (overall_score_eq (renounce td)) as (ar & Har & Lar & _ & Hsr).
  destruct (overall_score_eq (lock_liquidity period td)) as (al & Hal & Lal & _ & Hsl).
  exists a, ar, al.
  assert (Hr : (overall_score ar <= overall_score a)%Q).
  { rewrite Hs, Hsr. unfold weighted_score_spec.
    change (calculate_verification_score (renounce td))
      with (calculate_verification_score td).
    change (calculate_liquidity_score (renounce td))
      with (calculate_liquidity_score td).
    change (calculate_distribution_score (renounce td))
      with (calculate_distribution_score td).
    change (calculate_trading_score (renounce td))
      with (calculate_trading_score td).
    change (calculate_audit_score (renounce td))
      with (calculate_audit_score td).
    change (calculate_ownership_score (renounce td)) with 0%Q.
    unfold calculate_community_score.
    pose proof (ownership_score_range td) as [? ?]. lra. }
  split; [exact Ha|]. split; [exact Har|]. split; [exact Hr|].
  split; [rewrite La, Lar; by apply get_risk_level_monotone|].
  split; [exact Hal|]. intros Hunlocked.
  assert (Hl : (overall_score al <= overall_score a)%Q).
  { rewrite Hs, Hsl. unfold weighted_score_spec.
    change (calculate_verification_score (lock_liquidity period td))
      with (calculate_verification_score td).
    change (calculate_ownership_score (lock_liquidity period td))
      with (calculate_ownership_score td).
    change (calculate_distribution_score (lock_liquidity period td))
      with (calculate_distribution_score td).
    change (calculate_trading_score (lock_liquidity period td))
      with (calculate_trading_score td).
    change (calculate_audit_score (lock_liquidity period td))
      with (calculate_audit_score td).
    unfold calculate_community_score.
    pose proof (liquidity_score_tight (lock_liquidity period td)) as [_ Hup].
    assert (Hlq : (calculate_liquidity_score (lock_liquidity period td) <= 5 # 10)%Q).
    { unfold calculate_liquidity_score. cbn [liquidity_locked distribution lock_liquidity
        liquidity_lock_period].
      destruct (period_over _ 365); [lra|]. destruct (period_over _ 180); lra. }
    assert (Hun : calculate_liquidity_score td = (9 # 10)%Q).
    { unfold calculate_liquidity_score. by rewrite Hunlocked. }
    rewrite Hun. lra. }
  split; [exact Hl|]. rewrite La, Lal. by apply get_risk_level_monotone.
Qed.

(** X18: two of the texts of [generate_recommendations] are never
    produced by [calculate_risk_score]: the ownership score exceeds 0.5
    only for a contract that is not renounced, and the liquidity score
    only for liquidity that is not locked, so the branches that would
    report a suspicious owner or a short lock period are never taken.
    The list always has five entries. *)
Theorem unreachable_recommendations (td : TokenSecurityReport) :
  ∃ a, calculate_risk_score td = Some a
       ∧ length (recommendations a) = 5%nat
       ∧ ("⚠️ Подозрительный владелец" ∉ recommendations a)
       ∧ ("⚠️ Короткий период блокировки ликвидности" ∉ recommendations a).
Proof.
  destruct (overall_score_eq td) as (a & Ha & _ & Hrec & _).
  exists a. split; [exact Ha|]. rewrite Hrec.
  unfold generate_recommendations, compute_scores, score_of. cbn [assoc String.eqb
    Ascii.eqb Bool.eqb default app length]. unfold id.
  split; [reflexivity|].
  assert (Hown : negb (renounced (ownership td)) = false →
            Qgt_bool (calculate_ownership_score td) (5 # 10) = false).
  { intros H. unfold calculate_ownership_score.
    destruct (renounced _); [reflexivity|discriminate]. }
  assert (Hliq : negb (liquidity_locked (distribution td)) = false →
            Qgt_bool (calculate_liquidity_score td) (5 # 10) = false).
  { intros H. unfold calculate_liquidity_score.
    destruct (liquidity_locked _); [|discriminate].
    destruct (period_over _ 365); [reflexivity|].
    destruct (period_over _ 180); reflexivity. }
  destruct (renounced (ownership td)) eqn:E1;
    [rewrite (Hown eq_refl)|];
    (destruct (liquidity_locked (distribution td)) eqn:E2;
      [rewrite (Hliq eq_refl)|]);
    cbn [negb];
    (split; repeat (apply not_elem_of_cons; split));
    try apply not_elem_of_nil;
    repeat match goal with |- context [if ?b then _ else _] => destruct b end;
    apply String.eqb_neq; reflexivity.
Qed.

End RiskScoreShape.

(** ** More on the risk score of a token *)

Section TokenScore.
Import TokenAnalyzer.

(** The nine checks of [Token.calculate_risk_score] before a level is
    chosen, one function per [if] of the source, in source order. *)
Definition price_stage (config : AnalyzerConfig) (t : Token) (s : Scoring) : Scoring :=
  if Qgt_bool (price_change_24h t) (default 1000%Q (price_change_suspicious_min config))
  then add 30 (AbnormalPriceGrowth (price_change_24h t)) s else s.

Definition age_stage (t : Token) (s : Scoring) : Scoring :=
  if Qlt_bool (age_hours t) 24 then add 50 (NewToken (age_hours t)) s
  else if Qlt_bool (age_hours t) 168 then add 20 (YoungToken (age_hours t)) s
  else s.

Definition liquidity_stage (config : AnalyzerConfig) (t : Token) (s : Scoring) : Scoring :=
  if Qlt_bool (liquidity_usd t) (default 1000%Q (liquidity_high_risk config))
  then add 15 (LowLiquidity (liquidity_usd t)) s else s.

Definition ratio_stage (config : AnalyzerConfig) (t : Token) (s : Scoring) : Scoring :=
  if Qgt_bool (volume_ratio t) (default 5%Q (volume_liquidity_suspicious_min config))
  then add 25 (SuspiciousVolumeRatio (volume_ratio t)) s else s.

Definition presence_stage (t : Token) (s : Scoring) : Scoring :=
  if negb (negb (bool_decide (websites (info t) = [])))
     && negb (negb (bool_decide (socials (info t) = [])))
  then add 20 NoWebsiteNoSocials s else s.

Definition sells_stage (t : Token) (s : Scoring) : Scoring :=
  if buys_24h t + sells_24h t >? 0 then
    if Qgt_bool (inject_Z (sells_24h t) / inject_Z (buys_24h t + sells_24h t)) (8 # 10)
    then add 25
           (HighSellShare (inject_Z (sells_24h t) / inject_Z (buys_24h t + sells_24h t))) s
    else s
  else s.

Definition lock_stage (t : Token) (s : Scoring) : Scoring :=
  match liquidity_lock_score t with
  | Some lock_score =>
      if lock_score =? 0 then add 60 LiquidityNotLocked s
      else if lock_score <? 30 then add 40 (LowLockLevel lock_score) s
      else if lock_score <? 60 then add 20 (MediumLockLevel lock_score) s
      else s
  | None =>
      if Qge_bool (liquidity_usd t) 100000 && Qge_bool (age_hours t) 720
      then add 10 LockUncheckedLargeMature s
      else add 20 LockUnchecked s
  end.

Definition volume_stage (t : Token) (s : Scoring) : Scoring :=
  if Qgt_bool (volume_ratio t) 20
  then add_with_breakdown "V/L>20" 25 VolumeRatioManipulation s
  else if Qgt_bool (volume_ratio t) 5
  then add_with_breakdown "V/L>5" 10 VolumeRatioVolatile s
  else s.

Definition growth_stage (t : Token) (s : Scoring) : Scoring :=
  if Qgt_bool (price_change_24h t) 500
  then add_with_breakdown "Рост>500%" 30 ExtremeGrowth s
  else s.

(** The points each check contributes. *)
Definition price_points (config : AnalyzerConfig) (t : Token) : Z :=
  if Qgt_bool (price_change_24h t) (default 1000%Q (price_change_suspicious_min config))
  then 30 else 0.

Definition age_points (t : Token) : Z :=
  if Qlt_bool (age_hours t) 24 then 50
  else if Qlt_bool (age_hours t) 168 then 20 else 0.

Definition liquidity_points (config : AnalyzerConfig) (t : Token) : Z :=
  if Qlt_bool (liquidity_usd t) (default 1000%Q (liquidity_high_risk config))
  then 15 else 0.

Definition ratio_points (config : AnalyzerConfig) (t : Token) : Z :=
  if Qgt_bool (volume_ratio t) (default 5%Q (volume_liquidity_suspicious_min config))
  then 25 else 0.

Definition presence_points (t : Token) : Z :=
  if bool_decide (websites (info t) = []) && bool_decide (socials (info t) = [])
  then 20 else 0.

Definition sells_points (t : Token) : Z :=
  if buys_24h t + sells_24h t >? 0 then
    if Qgt_bool (inject_Z (sells_24h t) / inject_Z (buys_24h t + sells_24h t)) (8 # 10)
    then 25 else 0
  else 0.

Definition lock_points (t : Token) : Z :=
  match liquidity_lock_score t with
  | Some lock_score =>
      if lock_score =? 0 then 60
      else if lock_score <? 30 then 40
      else if lock_score <? 60 then 20
      else 0
  | None =>
      if Qge_bool (liquidity_usd t) 100000 && Qge_bool (age_hours t) 720
      then 10 else 20
  end.

Definition volume_points (t : Token) : Z :=
  if Qgt_bool (volume_ratio t) 20 then 25
  else if Qgt_bool (volume_ratio t) 5 then 10 else 0.

Definition growth_points (t : Token) : Z :=
  if Qgt_bool (price_change_24h t) 500 then 30 else 0.

(** The score as a sum of the nine contributions. *)
Definition risk_points (config : AnalyzerConfig) (t : Token) : Z :=
  price_points config t + age_points t + liquidity_points config t
  + ratio_points config t + presence_points t + sells_points t
  + lock_points t + volume_points t + growth_points t.

(** The entries of [risk_factors] that speak about the lock score, each
    with the lock score that produces it. *)
Definition lock_factor_ok (t : Token) (f : RiskFactor) : Prop :=
  match f with
  | LiquidityNotLocked => liquidity_lock_score t = Some 0
  | LowLockLevel n => liquidity_lock_score t = Some n ∧ n ≠ 0 ∧ n < 30
  | MediumLockLevel n => liquidity_lock_score t = Some n ∧ 30 ≤ n < 60
  | LockUnchecked | LockUncheckedLargeMature => liquidity_lock_score t = None
  | _ => True
  end.

(** A check that adds [p] points, appends entries to [risk_factors] and
    to the breakdown, and does nothing else. *)
Definition stage_adds (t : Token) (p : Z) (stage : Scoring → Scoring) : Prop :=
  ∃ new bd,
    Forall (lock_factor_ok t) new
    ∧ ∀ s, stage s = {| score := score s + p;
                        factors := factors s ++ new;
                        breakdown := breakdown s ++ bd |}.

Lemma stage_adds_id t : stage_adds t 0 (λ s, s).
Proof.
  exists [], []. split; [constructor|]. intros [sc fs bd]. cbn.
  by rewrite Z.add_0_r, !app_nil_r.
Qed.

Lemma stage_adds_add t p f : lock_factor_ok t f → stage_adds t p (add p f).
Proof.
  intros Hf. exists [f], []. split; [by repeat constructor|].
  intros [sc fs bd]. unfold add. cbn. by rewrite app_nil_r.
Qed.

Lemma stage_adds_breakdown t label p f :
  lock_factor_ok t f → stage_adds t p (add_with_breakdown label p f).
Proof.
  intros Hf. exists [f], [(label, p)]. split; [by repeat constructor|].
  intros [sc fs bd]. reflexivity.
Qed.

Lemma stage_adds_compose t p q f g :
  stage_adds t p f → stage_adds t q g → stage_adds t (p + q) (λ s, g (f s)).
Proof.
  intros (n1 & b1 & F1 & H1) (n2 & b2 & F2 & H2).
  exists (n1 ++ n2), (b1 ++ b2). split; [by apply Forall_app|].
  intros s. rewrite H1, H2. cbn. by rewrite Z.add_assoc, !app_assoc.
Qed.

Lemma price_stage_adds config t :
  stage_adds t (price_points config t) (price_stage config t).
Proof.
  unfold price_points, price_stage. destruct (Qgt_bool _ _).
  - by apply stage_adds_add.
  - apply stage_adds_id.
Qed.

Lemma age_stage_adds t : stage_adds t (age_points t) (age_stage t).
Proof.
  unfold age_points, age_stage. destruct (Qlt_bool _ 24); [by apply stage_adds_add|].
  destruct (Qlt_bool _ 168); [by apply stage_adds_add|apply stage_adds_id].
Qed.

Lemma liquidity_stage_adds config t :
  stage_adds t (liquidity_points config t) (liquidity_stage config t).
Proof.
  unfold liquidity_points, liquidity_stage. destruct (Qlt_bool _ _).
  - by apply stage_adds_add.
  - apply stage_adds_id.
Qed.

Lemma ratio_stage_adds config t :
  stage_adds t (ratio_points config t) (ratio_stage config t).
Proof.
  unfold ratio_points, ratio_stage. destruct (Qgt_bool _ _).
  - by apply stage_adds_add.
  - apply stage_adds_id.
Qed.

Lemma presence_stage_adds t : stage_adds t (presence_points t) (presence_stage t).
Proof.
  unfold presence_points, presence_stage. rewrite !negb_involutive.
  destruct (_ && _); [by apply stage_adds_add|apply stage_adds_id].
Qed.

Lemma sells_stage_adds t : stage_adds t (sells_points t) (sells_stage t).
Proof.
  unfold sells_points, sells_stage. destruct (_ >? 0); [|apply stage_adds_id].
  destruct (Qgt_bool _ _); [by apply stage_adds_add|apply stage_adds_id].
Qed.

Lemma lock_stage_adds t : stage_adds t (lock_points t) (lock_stage t).
Proof.
  unfold lock_points, lock_stage.
  destruct (liquidity_lock_score t) as [n|] eqn:E.
  - destruct (Z.eqb_spec n 0) as [->|Hn]; [by apply stage_adds_add|].
    destruct (Z.ltb_spec n 30).
    { apply stage_adds_add. cbn. done. }
    destruct (Z.ltb_spec n 60); [|apply stage_adds_id].
    apply stage_adds_add. cbn. split; [done|lia].
  - destruct (_ && _); by apply stage_adds_add.
Qed.

Lemma volume_stage_adds t : stage_adds t (volume_points t) (volume_stage t).
Proof.
  unfold volume_points, volume_stage.
  destruct (Qgt_bool _ 20); [by apply stage_adds_breakdown|].
  destruct (Qgt_bool _ 5); [by apply stage_adds_breakdown|apply stage_adds_id].
Qed.

Lemma growth_stage_adds t : stage_adds t (growth_points t) (growth_stage t).
Proof.
  unfold growth_points, growth_stage.
  destruct (Qgt_bool _ 500); [by apply stage_adds_breakdown|apply stage_adds_id].
Qed.

(** The nine checks in a row. *)
Definition all_stages (config : AnalyzerConfig) (t : Token) (s : Scoring) : Scoring :=
  growth_stage t (volume_stage t (lock_stage t (sells_stage t (presence_stage t
    (ratio_stage config t (liquidity_stage config t (age_stage t
      (price_stage config t s)))))))).

Lemma collect_score_stages config t :
  collect_score config t
  = all_stages config t {| score := 0; factors := risk_factors t; breakdown := [] |}.
Proof. reflexivity. Qed.

Lemma all_stages_set_scoring config lvl sc fs bd t s :
  all_stages config (set_scoring lvl sc fs bd t) s = all_stages config t s.
Proof. reflexivity. Qed.

Lemma all_stages_adds config t :
  stage_adds t (risk_points config t) (all_stages config t).
Proof.
  unfold risk_points, all_stages.
  apply (stage_adds_compose t _ _
           (λ s, volume_stage t (lock_stage t (sells_stage t (presence_stage t
              (ratio_stage config t (liquidity_stage config t (age_stage t
                (price_stage config t s)))))))) (growth_stage t));
    [|apply growth_stage_adds].
  apply (stage_adds_compose t _ _
           (λ s, lock_stage t (sells_stage t (presence_stage t
              (ratio_stage config t (liquidity_stage config t (age_stage t
                (price_stage config t s))))))) (volume_stage t));
    [|apply volume_stage_adds].
  apply (stage_adds_compose t _ _
           (λ s, sells_stage t (presence_stage t
              (ratio_stage config t (liquidity_stage config t (age_stage t
                (price_stage config t s)))))) (lock_stage t));
    [|apply lock_stage_adds].
  apply (stage_adds_compose t _ _
           (λ s, presence_stage t
              (ratio_stage config t (liquidity_stage config t (age_stage t
                (price_stage config t s))))) (sells_stage t));
    [|apply sells_stage_adds].
  apply (stage_adds_compose t _ _
           (λ s, ratio_stage config t (liquidity_stage config t (age_stage t
                (price_stage config t s)))) (presence_stage t));
    [|apply presence_stage_adds].
  apply (stage_adds_compose t _ _
           (λ s, liquidity_stage config t (age_stage t (price_stage config t s)))
           (ratio_stage config t));
    [|apply ratio_stage_adds].
  apply (stage_adds_compose t _ _
           (λ s, age_stage t (price_stage config t s)) (liquidity_stage config t));
    [|apply liquidity_stage_adds].
  apply (stage_adds_compose t _ _ (price_stage config t) (age_stage t));
    [apply price_stage_adds|apply age_stage_adds].
Qed.

Lemma collect_score_score config t : score (collect_score config t) = risk_points config t.
Proof.
  rewrite collect_score_stages.
  destruct (all_stages_adds config t) as (new & bd & _ & H). rewrite H. reflexivity.
Qed.

Lemma points_ranges config t :
  0 ≤ price_points config t ≤ 30 ∧ 0 ≤ age_points t ≤ 50
  ∧ 0 ≤ liquidity_points config t ≤ 15 ∧ 0 ≤ ratio_points config t ≤ 25
  ∧ 0 ≤ presence_points t ≤ 20 ∧ 0 ≤ sells_points t ≤ 25
  ∧ 0 ≤ lock_points t ≤ 60 ∧ 0 ≤ volume_points t ≤ 25
  ∧ 0 ≤ growth_points t ≤ 30.
Proof.
  assert (0 ≤ price_points config t ≤ 30)
    by (unfold price_points; destruct (Qgt_bool _ _); lia).
  assert (0 ≤ age_points t ≤ 50)
    by (unfold age_points; destruct (Qlt_bool _ 24); [|destruct (Qlt_bool _ 168)]; lia).
  assert (0 ≤ liquidity_points config t ≤ 15)
    by (unfold liquidity_points; destruct (Qlt_bool _ _); lia).
  assert (0 ≤ ratio_points config t ≤ 25)
    by (unfold ratio_points; destruct (Qgt_bool _ _); lia).
  assert (0 ≤ presence_points t ≤ 20)
    by (unfold presence_points; destruct (_ && _); lia).
  assert (0 ≤ sells_points t ≤ 25)
    by (unfold sells_points; destruct (_ >? 0); [destruct (Qgt_bool _ _)|]; lia).
  assert (0 ≤ lock_points t ≤ 60).
  { unfold lock_points. destruct (liquidity_lock_score t); [zcases; lia|].
    destruct (_ && _); lia. }
  assert (0 ≤ volume_points t ≤ 25)
    by (unfold volume_points; destruct (Qgt_bool _ 20); [|destruct (Qgt_bool _ 5)]; lia).
  assert (0 ≤ growth_points t ≤ 30)
    by (unfold growth_points; destruct (Qgt_bool _ _); lia).
  tauto.
Qed.

Lemma risk_points_range config t : 0 ≤ risk_points config t ≤ 280.
Proof. pose proof (points_ranges config t). unfold risk_points. lia. Qed.

(** X19: the score of [Token.calculate_risk_score] is the sum of nine
    contributions, one per check (price growth, age, liquidity, volume
    to liquidity, web presence, share of sells, liquidity lock, volume
    ratio, extreme growth); it is stored in [risk_score], and lies
    between 0 and 280. *)
Theorem risk_score_is_sum_of_points (config : AnalyzerConfig) (t : Token) :
  fst (calculate_risk_score config t) = risk_points config t
  ∧ risk_score (snd (calculate_risk_score config t)) = risk_points config t
  ∧ 0 ≤ fst (calculate_risk_score config t) ≤ 280.
Proof.
  unfold calculate_risk_score. cbn [fst snd risk_score set_scoring].
  rewrite collect_score_score.
  split; [reflexivity|]. split; [reflexivity|]. apply risk_points_range.
Qed.

(** What [calculate_risk_score] leaves in the token, for the token as
    it is and for the same token with other analysis fields. *)
Lemma collect_score_shape config t :
  ∃ new bd,
    Forall (lock_factor_ok t) new
    ∧ collect_score config t
      = {| score := risk_points config t;
           factors := risk_factors t ++ new; breakdown := bd |}
    ∧ ∀ lvl sc fs bd0,
        collect_score config (set_scoring lvl sc fs bd0 t)
        = {| score := risk_points config t; factors := fs ++ new; breakdown := bd |}.
Proof.
  destruct (all_stages_adds config t) as (new & bd & F & H).
  exists new, bd. split; [exact F|]. split.
  - rewrite collect_score_stages, H. reflexivity.
  - intros lvl sc fs bd0. rewrite collect_score_stages, all_stages_set_scoring, H.
    reflexivity.
Qed.

(** The level and the entry chosen after the checks. *)
Definition final_level (t : Token) (p : Z) : RiskLevel * list RiskFactor :=
  high_liquidity_gate t (medium_liquidity_gate t (level_by_thresholds t p)).

Lemma final_level_set_scoring lvl sc fs bd t p :
  final_level (set_scoring lvl sc fs bd t) p = final_level t p.
Proof. reflexivity. Qed.

Lemma calculate_risk_score_unfold config t :
  snd (calculate_risk_score config t)
  = set_scoring (fst (final_level t (score (collect_score config t))))
      (score (collect_score config t))
      (factors (collect_score config t)
         ++ snd (final_level t (score (collect_score config t))))
      (breakdown (collect_score config t)) t.
Proof.
  unfold calculate_risk_score, final_level. cbv zeta. cbn [snd]. reflexivity.
Qed.

Lemma calculate_risk_score_shape config t :
  ∃ new bd,
    Forall (lock_factor_ok t) new
    ∧ snd (calculate_risk_score config t)
      = set_scoring (fst (final_level t (risk_points config t))) (risk_points config t)
          ((risk_factors t ++ new) ++ snd (final_level t (risk_points config t))) bd t
    ∧ ∀ lvl sc fs bd0,
        snd (calculate_risk_score config (set_scoring lvl sc fs bd0 t))
        = set_scoring (fst (final_level t (risk_points config t))) (risk_points config t)
            ((fs ++ new) ++ snd (final_level t (risk_points config t))) bd
            (set_scoring lvl sc fs bd0 t).
Proof.
  destruct (collect_score_shape config t) as (new & bd & F & H1 & H2).
  exists new, bd. split; [exact F|]. split.
  - rewrite calculate_risk_score_unfold, H1. reflexivity.
  - intros lvl sc fs bd0.
    rewrite calculate_risk_score_unfold, H2, final_level_set_scoring. reflexivity.
Qed.

(** X20: [calculate_risk_score] starts the score and the breakdown
    afresh but appends to [risk_factors] without emptying it: scoring a
    token a second time leaves its score, level and breakdown as they
    were and appends the same entries to [risk_factors] again. *)
Theorem rescoring_repeats_factors (config : AnalyzerConfig) (t : Token) :
  let t1 := snd (calculate_risk_score config t) in
  let t2 := snd (calculate_risk_score config t1) in
  risk_score t2 = risk_score t1
  ∧ risk_level t2 = risk_level t1
  ∧ score_breakdown t2 = score_breakdown t1
  ∧ ∃ added,
      risk_factors t1 = risk_factors t ++ added
      ∧ risk_factors t2 = risk_factors t1 ++ added.
Proof.
  cbv zeta.
  destruct (calculate_risk_score_shape config t) as (new & bd & _ & H1 & H2).
  rewrite H1, H2. cbn [risk_score risk_level score_breakdown risk_factors set_scoring].
  repeat split.
  exists (new ++ snd (final_level t (risk_points config t))).
  by rewrite !app_assoc.
Qed.

Lemma medium_gate_low t lf :
  fst (medium_liquidity_gate t lf) = Low → fst lf = Low.
Proof.
  unfold medium_liquidity_gate. case_decide; [|done].
  destruct (Qlt_bool _ _); [discriminate|done].
Qed.

Lemma high_gate_low t lf :
  fst (high_liquidity_gate t lf) = Low → fst lf = Low.
Proof.
  unfold high_liquidity_gate. case_decide; [|done].
  destruct (Qlt_bool _ _); [discriminate|done].
Qed.

Lemma level_by_thresholds_low t p :
  fst (level_by_thresholds t p) = Low →
  p < 25 ∧ (100000 <= liquidity_usd t)%Q ∧ (30 <= liquidity_lock_percentage t)%Q.
Proof.
  unfold level_by_thresholds.
  destruct (Z.geb_spec p 120); [discriminate|].
  destruct (Z.geb_spec p 80); [discriminate|].
  destruct (Z.geb_spec p 50); [discriminate|].
  destruct (Z.geb_spec p 25); [discriminate|].
  destruct (Qlt_bool (liquidity_usd t) 100000) eqn:El; [discriminate|].
  apply Qlt_bool_false in El.
  destruct (Qeq_bool (liquidity_lock_percentage t) 0).
  { destruct (negb _); discriminate. }
  destruct (Qge_bool (liquidity_lock_percentage t) 30) eqn:E30.
  { apply Qge_bool_true in E30. intros _. split; [lia|]. split; [exact El|exact E30]. }
  cbn [andb].
  destruct (Qge_bool (liquidity_lock_percentage t) 75) eqn:E75; [|discriminate].
  apply Qge_bool_true in E75. intros _. split; [lia|]. split; [exact El|lra].
Qed.

Lemma final_level_low t p :
  fst (final_level t p) = Low →
  p < 25 ∧ (100000 <= liquidity_usd t)%Q ∧ (30 <= liquidity_lock_percentage t)%Q.
Proof.
  intros H. unfold final_level in H.
  apply high_gate_low, medium_gate_low in H. by apply level_by_thresholds_low.
Qed.

(** X21: a token leaves [calculate_risk_score] at the level "Низкий"
    only with a score under 25, at least 100000 USD of liquidity, a
    lock that holds at least 30 percent of it, and an age of at least
    24 hours. *)
Theorem low_level_requirements (config : AnalyzerConfig) (t : Token) :
  risk_level (snd (calculate_risk_score config t)) = Low →
  fst (calculate_risk_score config t) < 25
  ∧ (100000 <= liquidity_usd t)%Q
  ∧ (24 <= age_hours t)%Q
  ∧ ∃ lock_info,
      liquidity_lock_info t = Some lock_info
      ∧ LiquidityLockChecker.is_locked lock_info = true
      ∧ (30 <= LiquidityLockChecker.locked_percentage lock_info)%Q.
Proof.
  rewrite risk_level_calculate, collect_score_score.
  assert (Hs : fst (calculate_risk_score config t) = risk_points config t)
    by (unfold calculate_risk_score; cbn [fst]; apply collect_score_score).
  rewrite Hs. intros Hlow.
  apply (final_level_low t) in Hlow as (Hp & Hl & Hpct).
  split; [exact Hp|]. split; [exact Hl|]. split.
  - pose proof (points_ranges config t) as (? & ? & ? & ? & ? & ? & ? & ? & ?).
    unfold risk_points in Hp.
    assert (Ha : age_points t < 25) by lia.
    unfold age_points in Ha.
    destruct (Qlt_bool (age_hours t) 24) eqn:E; [lia|].
    by apply Qlt_bool_false in E.
  - unfold liquidity_lock_percentage in Hpct.
    destruct (liquidity_lock_info t) as [lock_info|]; [|lra].
    exists lock_info. split; [reflexivity|].
    destruct (LiquidityLockChecker.is_locked lock_info); [|lra]. done.
Qed.

(** A token that meets the requirements of the level "Низкий". *)
Definition locked_token : Token :=
  set_lock
    (Some (LiquidityLockChecker.set_locked_percentage 90
             (LiquidityLockChecker.set_is_locked true
                LiquidityLockChecker.default_lock_info)))
    65 true None Scenarios.perfect_token.

Lemma low_level_requirements_witness :
  fst (calculate_risk_score Scenarios.no_thresholds locked_token) < 25
  ∧ (100000 <= liquidity_usd locked_token)%Q
  ∧ (24 <= age_hours locked_token)%Q
  ∧ ∃ lock_info,
      liquidity_lock_info locked_token = Some lock_info
      ∧ LiquidityLockChecker.is_locked lock_info = true
      ∧ (30 <= LiquidityLockChecker.locked_percentage lock_info)%Q.
Proof.
  apply low_level_requirements. reflexivity.
Defined.

End TokenScore.

(** ** The stages of the analysis, one after the other *)

Section Pipeline.
Import TokenAnalyzer.

Lemma get_lock_score_values (lock_info : LiquidityLockChecker.LiquidityLockInfo) :
  (LiquidityLockChecker.is_locked lock_info = false
   ∧ LiquidityLockChecker.get_lock_score lock_info = 0)
  ∨ (LiquidityLockChecker.is_locked lock_info = true
     ∧ 40 ≤ LiquidityLockChecker.get_lock_score lock_info ≤ 100).
Proof.
  rewrite get_lock_score_unfold.
  unfold lock_score_spec, percentage_component, duration_component, platform_component.
  destruct (LiquidityLockChecker.is_locked lock_info); [right|left; done].
  split; [reflexivity|]. qcases; zcases; case_bool_decide; lia.
Qed.

(** What [check_liquidity_locks] leaves in a token. *)
Definition lock_checked (before after : Token) : Prop :=
  address after = address before
  ∧ risk_score after = risk_score before
  ∧ risk_factors after = risk_factors before
  ∧ age_hours after = age_hours before
  ∧ ∃ n, liquidity_lock_score after = Some n
         ∧ (n = 0 ∨ 40 ≤ n ≤ 100)
         ∧ (n ≠ 0 →
              ∃ lock_info,
                liquidity_lock_info after = Some lock_info
                ∧ LiquidityLockChecker.is_locked lock_info = true
                ∧ liquidity_locked after = true
                ∧ n = LiquidityLockChecker.get_lock_score lock_info).

Lemma lock_loop_checked clk i checker toks :
  Forall2 lock_checked toks (lock_loop clk i checker toks).
Proof.
  revert i checker. induction toks as [|t rest IH]; intros i checker; [constructor|].
  cbn [lock_loop].
  destruct (nonempty (pair_address t) && nonempty (address t) && nonempty (network t)).
  - destruct (LiquidityLockChecker.check_liquidity_lock checker (clk i)
                (address t) (pair_address t) (network t)) as [lock_info checker'].
    constructor; [|apply IH].
    repeat (split; [reflexivity|]).
    exists (LiquidityLockChecker.get_lock_score lock_info).
    split; [reflexivity|].
    destruct (get_lock_score_values lock_info) as [[Hl Hs]|[Hl Hs]].
    + split; [left; exact Hs|]. intros Hn. by rewrite Hs in Hn.
    + split; [right; exact Hs|]. intros _. exists lock_info.
      cbn [liquidity_lock_info liquidity_locked set_lock]. by rewrite Hl.
  - constructor; [|apply IH].
    repeat (split; [reflexivity|]).
    exists 0. split; [reflexivity|]. split; [by left|]. done.
Qed.

Lemma check_liquidity_locks_checked available clk toks :
  Forall2 lock_checked toks (check_liquidity_locks available clk toks).
Proof.
  unfold check_liquidity_locks. destruct available; cbn [negb].
  - apply lock_loop_checked.
  - induction toks as [|t rest IH]; [constructor|].
    cbn [map]. constructor; [|exact IH].
    repeat (split; [reflexivity|]).
    exists 0. split; [reflexivity|]. split; [by left|]. done.
Qed.

(** X22: [check_liquidity_locks] gives every token a lock score, and
    the score is 0 or lies between 40 and 100: a score from 1 to 39 is
    never stored.  A score other than 0 comes with the lock data of a
    locked pool.  The tokens keep their order, address, risk score and
    risk factors; without the checker every score is 0. *)
Theorem lock_scores_after_check (available : bool)
    (clk : nat → LiquidityLockChecker.Readings) (toks : list Token) :
  Forall2 lock_checked toks (check_liquidity_locks available clk toks)
  ∧ length (check_liquidity_locks available clk toks) = length toks
  ∧ Forall (λ t, available = false →
                 liquidity_lock_score t = Some 0 ∧ liquidity_lock_info t = None)
      (check_liquidity_locks available clk toks).
Proof.
  split; [apply check_liquidity_locks_checked|]. split.
  - symmetry. eapply Forall2_length, check_liquidity_locks_checked.
  - destruct available.
    + apply Forall_forall. intros t _ [=].
    + unfold check_liquidity_locks. cbn [negb].
      apply Forall_map. apply Forall_forall. intros t _ _. by split.
Qed.

Lemma severity_final_level t p :
  (50 ≤ p → 2 ≤ severity (fst (final_level t p)))
  ∧ (80 ≤ p → 3 ≤ severity (fst (final_level t p))).
Proof.
  assert (H : severity (fst (level_by_thresholds t p)) ≤ severity (fst (final_level t p))).
  { unfold final_level. etrans; [apply (medium_gate_severity t)|apply high_gate_severity]. }
  split; intros Hp.
  - etrans; [|exact H]. unfold level_by_thresholds. zcases; cbn; lia.
  - etrans; [|exact H]. unfold level_by_thresholds. zcases; cbn; lia.
Qed.

Lemma unlocked_scores config t :
  liquidity_lock_score t = Some 0 →
  let t' := snd (calculate_risk_score config t) in
  60 ≤ risk_score t' ∧ 2 ≤ severity (risk_level t')
  ∧ ((age_hours t < 24)%Q → 110 ≤ risk_score t' ∧ 3 ≤ severity (risk_level t')).
Proof.
  intros Hlock. cbv zeta.
  rewrite calculate_risk_score_unfold, collect_score_score.
  cbn [risk_score risk_level set_scoring].
  pose proof (points_ranges config t) as (? & ? & ? & ? & ? & ? & ? & ? & ?).
  assert (Hl : lock_points t = 60) by (unfold lock_points; by rewrite Hlock).
  assert (Hp : 60 ≤ risk_points config t) by (unfold risk_points; lia).
  split; [exact Hp|]. split; [apply severity_final_level; lia|].
  intros Hage. apply Qlt_bool_true in Hage.
  assert (Ha : age_points t = 50) by (unfold age_points; by rewrite Hage).
  assert (Hp' : 110 ≤ risk_points config t) by (unfold risk_points; lia).
  split; [exact Hp'|]. apply severity_final_level; lia.
Qed.

(** X23: when the lock checker is not available, [check_liquidity_locks]
    marks every token as not locked, and the scoring that follows gives
    every token at least 60 points and a level of "Средний" or worse;
    a token younger than 24 hours gets at least 110 points and
    "Высокий" or worse. *)
Theorem unchecked_locks_cost_sixty_points (config : AnalyzerConfig)
    (clk : nat → LiquidityLockChecker.Readings) (toks : list Token) :
  Forall
    (λ t, 60 ≤ risk_score t ∧ 2 ≤ severity (risk_level t)
          ∧ ((age_hours t < 24)%Q → 110 ≤ risk_score t ∧ 3 ≤ severity (risk_level t)))
    (tokens (analyze_all_tokens_sync config (check_liquidity_locks false clk toks))).
Proof.
  unfold analyze_all_tokens_sync, check_liquidity_locks. cbn [negb tokens].
  apply Forall_map, Forall_map, Forall_forall. intros t _.
  set (t0 := set_lock None 0 (liquidity_locked t) (liquidity_lock_period t) t).
  apply (unlocked_scores config t0). reflexivity.
Qed.

(** The entries of [risk_factors] that guess at a lock that was not
    examined, or report a lock score from 1 to 29. *)
Definition lock_guess (f : RiskFactor) : Prop :=
  match f with
  | LowLockLevel _ | LockUnchecked | LockUncheckedLargeMature => True
  | _ => False
  end.

Lemma level_by_thresholds_factors t p :
  Forall (λ f, ¬ lock_guess f) (snd (level_by_thresholds t p)).
Proof.
  unfold level_by_thresholds.
  repeat match goal with |- context [if ?b then _ else _] => destruct b end;
    cbn [snd]; repeat constructor; cbn; tauto.
Qed.

Lemma final_level_factors t p : Forall (λ f, ¬ lock_guess f) (snd (final_level t p)).
Proof.
  unfold final_level.
  pose proof (level_by_thresholds_factors t p) as H.
  set (lf := level_by_thresholds t p) in *. clearbody lf.
  assert (H1 : Forall (λ f, ¬ lock_guess f) (snd (medium_liquidity_gate t lf))).
  { unfold medium_liquidity_gate. case_decide; [|exact H].
    destruct (Qlt_bool _ _); [|exact H].
    cbn [snd]. apply Forall_app. split; [exact H|]. repeat constructor. cbn. tauto. }
  set (lf1 := medium_liquidity_gate t lf) in *. clearbody lf1.
  unfold high_liquidity_gate. case_decide; [|exact H1].
  destruct (Qlt_bool _ _); [|exact H1].
  cbn [snd]. apply Forall_app. split; [exact H1|]. repeat constructor. cbn. tauto.
Qed.

(** X24: after [check_liquidity_locks] the scoring never adds an entry
    that guesses at the lock: "lock status not checked" and "low lock
    level" are appended only to tokens that skipped the lock check. *)
Theorem checked_tokens_get_no_lock_guess (config : AnalyzerConfig) (available : bool)
    (clk : nat → LiquidityLockChecker.Readings) (toks : list Token) :
  Forall
    (λ t, ∃ added,
            risk_factors (snd (calculate_risk_score config t)) = risk_factors t ++ added
            ∧ Forall (λ f, ¬ lock_guess f) added)
    (check_liquidity_locks available clk toks).
Proof.
  pose proof (check_liquidity_locks_checked available clk toks) as H.
  apply Forall_forall. intros t' Ht'.
  apply list_elem_of_lookup in Ht' as [i Hi].
  destruct (Forall2_lookup_r _ _ _ _ _ H Hi) as (t & _ & Hc).
  destruct Hc as (_ & _ & _ & _ & n & Hn & Hrange & _).
  destruct (calculate_risk_score_shape config t') as (new & bd & F & H1 & _).
  exists (new ++ snd (final_level t' (risk_points config t'))).
  rewrite H1. cbn [risk_factors set_scoring]. split; [by rewrite app_assoc|].
  apply Forall_app. split; [|apply final_level_factors].
  eapply Forall_impl; [exact F|]. intros f Hf Hg.
  destruct f; cbn in Hf, Hg; try done.
  - destruct Hf as (Hf & ? & ?). rewrite Hn in Hf. injection Hf as ->. lia.
  - by rewrite Hn in Hf.
  - by rewrite Hn in Hf.
Qed.

Lemma levels_partition (l : list Token) :
  l ≡ₚ filter (λ t, risk_level t = Scam) l
       ++ filter (λ t, risk_level t = High) l
       ++ filter (λ t, risk_level t = Medium) l
       ++ filter (λ t, risk_level t ≠ Scam ∧ risk_level t ≠ High ∧ risk_level t ≠ Medium) l.
Proof.
  induction l as [|t l IH]; [reflexivity|].
  set (fS := filter (λ t, risk_level t = Scam) l) in *.
  set (fH := filter (λ t, risk_level t = High) l) in *.
  set (fM := filter (λ t, risk_level t = Medium) l) in *.
  set (fR := filter (λ t, risk_level t ≠ Scam ∧ risk_level t ≠ High
                          ∧ risk_level t ≠ Medium) l) in *.
  assert (Hrest : ∀ lvl, risk_level t = lvl → lvl = Moderate ∨ lvl = Low →
            t :: l ≡ₚ filter (λ t, risk_level t = Scam) (t :: l)
                      ++ filter (λ t, risk_level t = High) (t :: l)
                      ++ filter (λ t, risk_level t = Medium) (t :: l)
                      ++ filter (λ t, risk_level t ≠ Scam ∧ risk_level t ≠ High
                                      ∧ risk_level t ≠ Medium) (t :: l)).
  { intros lvl E Hl.
    rewrite (filter_cons_False (λ t, risk_level t = Scam))
      by (destruct Hl; congruence).
    rewrite (filter_cons_False (λ t, risk_level t = High))
      by (destruct Hl; congruence).
    rewrite (filter_cons_False (λ t, risk_level t = Medium))
      by (destruct Hl; congruence).
    rewrite (filter_cons_True (λ t, _ ∧ _))
      by (destruct Hl; repeat split; congruence).
    fold fS fH fM fR.
    rewrite (app_assoc fH fM), (app_assoc fS).
    rewrite <- Permutation_middle. rewrite <- !app_assoc. by constructor. }
  destruct (risk_level t) eqn:E.
  - rewrite (filter_cons_True (λ t, risk_level t = Scam)) by done.
    rewrite (filter_cons_False (λ t, risk_level t = High)) by congruence.
    rewrite (filter_cons_False (λ t, risk_level t = Medium)) by congruence.
    rewrite (filter_cons_False (λ t, _ ∧ _)) by (rewrite E; tauto).
    fold fS fH fM fR. cbn [app]. by constructor.
  - rewrite (filter_cons_False (λ t, risk_level t = Scam)) by congruence.
    rewrite (filter_cons_True (λ t, risk_level t = High)) by done.
    rewrite (filter_cons_False (λ t, risk_level t = Medium)) by congruence.
    rewrite (filter_cons_False (λ t, _ ∧ _)) by (rewrite E; tauto).
    fold fS fH fM fR. cbn [app].
    rewrite <- Permutation_middle. by constructor.
  - rewrite (filter_cons_False (λ t, risk_level t = Scam)) by congruence.
    rewrite (filter_cons_False (λ t, risk_level t = High)) by congruence.
    rewrite (filter_cons_True (λ t, risk_level t = Medium)) by done.
    rewrite (filter_cons_False (λ t, _ ∧ _)) by (rewrite E; tauto).
    fold fS fH fM fR. cbn [app].
    rewrite (app_assoc fS fH).
    rewrite <- Permutation_middle. rewrite <- app_assoc. by constructor.
  - apply (Hrest Moderate); [reflexivity|by left].
  - apply (Hrest Low); [reflexivity|by right].
Qed.

(** X25: the four lists of [analyze_all_tokens_sync] split the scored
    tokens: together they are a rearrangement of [tokens], every token
    is in the list of its level, and the levels "Умеренный" and
    "Низкий" share the list [low_risk_tokens]. *)
Theorem analysis_lists_partition (config : AnalyzerConfig) (toks : list Token) :
  let a := analyze_all_tokens_sync config toks in
  length (tokens a) = length toks
  ∧ tokens a ≡ₚ scam_tokens a ++ high_risk_tokens a
                ++ medium_risk_tokens a ++ low_risk_tokens a
  ∧ Forall (λ t, risk_level t = Scam) (scam_tokens a)
  ∧ Forall (λ t, risk_level t = High) (high_risk_tokens a)
  ∧ Forall (λ t, risk_level t = Medium) (medium_risk_tokens a)
  ∧ Forall (λ t, risk_level t = Moderate ∨ risk_level t = Low) (low_risk_tokens a).
Proof.
  cbv zeta. unfold analyze_all_tokens_sync.
  cbn [tokens scam_tokens high_risk_tokens medium_risk_tokens low_risk_tokens].
  split; [apply length_map|]. split; [apply levels_partition|].
  repeat split; apply Forall_forall; intros t Ht;
    apply list_elem_of_filter in Ht as [Ht _]; try exact Ht.
  destruct (risk_level t); try tauto; destruct Ht as (? & ? & ?); congruence.
Qed.

Lemma accumulates_honeypot r : accumulates (honeypot_penalty r).
Proof.
  intros t. unfold honeypot_penalty.
  destruct (ContractVerifier.is_honeypot r);
    [apply accumulates_penalize; lia|apply accumulates_id].
Qed.

Lemma apply_verification_keeps vr t :
  address (apply_verification vr t) = address t
  ∧ risk_score t ≤ risk_score (apply_verification vr t)
  ∧ (∀ f, f ∈ risk_factors t → f ∈ risk_factors (apply_verification vr t))
  ∧ ∃ r, verification_result (apply_verification vr t) = Some r
         ∧ (vr !! address t = Some r
            ∨ vr !! address t = None
              ∧ r = ContractVerifier.set_error_message "Не удалось верифицировать"
                      ContractVerifier.default_result).
Proof.
  unfold apply_verification. destruct (vr !! address t) as [r|] eqn:E.
  - cbv zeta.
    set (t0 := set_verification_result r t).
    set (t1 := honeypot_penalty r t0).
    set (t2 := unverified_penalty r t1).
    set (t3 := ownership_penalty r t2).
    set (t4 := mint_penalty r t3).
    set (t5 := blacklist_penalty r t4).
    set (t6 := proxy_penalty r t5).
    destruct (accumulates_honeypot r t0) as [S1 F1]. fold t1 in S1, F1.
    destruct (accumulates_unverified r t1) as [S2 F2]. fold t2 in S2, F2.
    destruct (accumulates_ownership r t2) as [S3 F3]. fold t3 in S3, F3.
    destruct (accumulates_mint r t3) as [S4 F4]. fold t4 in S4, F4.
    destruct (accumulates_blacklist r t4) as [S5 F5]. fold t5 in S5, F5.
    destruct (accumulates_proxy r t5) as [S6 F6]. fold t6 in S6, F6.
    assert (I1 : address t1 = address t0 ∧ verification_result t1 = verification_result t0).
    { subst t1. unfold honeypot_penalty. by destruct (ContractVerifier.is_honeypot r). }
    assert (I2 : address t2 = address t1 ∧ verification_result t2 = verification_result t1).
    { subst t2. unfold unverified_penalty. destruct (negb _); [|done].
      cbv zeta. by destruct (_ && _). }
    assert (I3 : address t3 = address t2 ∧ verification_result t3 = verification_result t2).
    { subst t3. unfold ownership_penalty.
      by destruct (ContractVerifier.can_take_back_ownership r). }
    assert (I4 : address t4 = address t3 ∧ verification_result t4 = verification_result t3).
    { subst t4. unfold mint_penalty. by destruct (ContractVerifier.has_mint_function r). }
    assert (I5 : address t5 = address t4 ∧ verification_result t5 = verification_result t4).
    { subst t5. unfold blacklist_penalty. by destruct (ContractVerifier.has_blacklist r). }
    assert (I6 : address t6 = address t5 ∧ verification_result t6 = verification_result t5).
    { subst t6. unfold proxy_penalty. by destruct (ContractVerifier.is_proxy r). }
    destruct I1 as [A1 V1], I2 as [A2 V2], I3 as [A3 V3], I4 as [A4 V4],
      I5 as [A5 V5], I6 as [A6 V6].
    clearbody t1 t2 t3 t4 t5 t6.
    change (address (update_level t6)) with (address t6).
    change (risk_score (update_level t6)) with (risk_score t6).
    change (risk_factors (update_level t6)) with (risk_factors t6).
    change (verification_result (update_level t6)) with (verification_result t6).
    change (risk_score t) with (risk_score t0).
    change (risk_factors t) with (risk_factors t0).
    split; [rewrite A6, A5, A4, A3, A2, A1; reflexivity|].
    split; [lia|].
    split; [intros f Hf; by apply F6, F5, F4, F3, F2, F1|].
    exists r. split; [|by left].
    rewrite V6, V5, V4, V3, V2, V1. reflexivity.
  - split; [reflexivity|]. split; [reflexivity|]. split; [done|].
    eexists. split; [reflexivity|]. by right.
Qed.

(** X26: [verify_contracts] returns the tokens in their order, each
    with its address, with a risk score that is not lower than before,
    with every risk factor it had, and with a verification result: the
    one that the batch verification found for its address, or a default
    result with the error message "Не удалось верифицировать" when the
    batch has none.  When the verifier cannot be imported the call
    returns the tokens as they are and asks no service. *)
Theorem verify_contracts_keeps_tokens (cfg : Config) (env : ContractVerifier.Env)
    (verifier_available : bool) (toks : list Token) (w : ContractVerifier.World) :
  let out := verify_contracts cfg env verifier_available toks w in
  let found :=
    (ContractVerifier.verify_contracts_batch cfg env
       (map (λ token, (address token, network token)) toks) w).1 in
  (verifier_available = false → out = (toks, w))
  ∧ (verifier_available = true →
     Forall2
       (λ t t', address t' = address t
                ∧ risk_score t ≤ risk_score t'
                ∧ (∀ f, f ∈ risk_factors t → f ∈ risk_factors t')
                ∧ ∃ r, verification_result t' = Some r
                       ∧ (found !! address t = Some r
                          ∨ found !! address t = None
                            ∧ r = ContractVerifier.set_error_message
                                    "Не удалось верифицировать"
                                    ContractVerifier.default_result))
       toks out.1).
Proof.
  cbv zeta. unfold verify_contracts. split.
  - intros ->. by destruct toks.
  - intros ->. destruct toks as [|t0 rest]; [constructor|].
    cbn [negb]. rewrite bind_run.
    destruct (ContractVerifier.verify_contracts_batch cfg env _ w) as [vr w'].
    cbn [fst snd mret ContractVerifier.M_ret].
    generalize (t0 :: rest). intros l.
    induction l as [|t l IH]; [constructor|].
    cbn [map]. constructor; [|exact IH].
    destruct (apply_verification_keeps vr t) as (A & S & F & r & V & Hr).
    split; [exact A|]. split; [exact S|]. split; [exact F|]. by exists r.
Qed.

End Pipeline.

(** ** The filters over pairs and tokens *)

Section Sorting.

Context {A : Type}.

(** Every element of the list stands in the relation [R] to the ones
    that follow it. *)
Fixpoint in_order (R : A → A → Prop) (l : list A) : Prop :=
  match l with
  | [] => True
  | x :: r => Forall (R x) r ∧ in_order R r
  end.

Lemma in_order_impl (R S : A → A → Prop) (l : list A) :
  (∀ x y, R x y → S x y) → in_order R l → in_order S l.
Proof.
  intros H. induction l as [|x r IH]; [done|]. cbn [in_order].
  intros [Hx Hr]. split; [|by apply IH].
  eapply Forall_impl; [exact Hx|]. intros y. apply H.
Qed.

Variable before : A → A → bool.

(** [x] may stand in front of [y]: [y] does not have to come first. *)
Definition may_precede (x y : A) : Prop := before y x = false.

Lemma insert_sorted_perm (x : A) (l : list A) : insert_sorted before x l ≡ₚ x :: l.
Proof.
  induction l as [|y r IH]; cbn [insert_sorted]; [reflexivity|].
  destruct (before y x); [|reflexivity].
  rewrite IH. apply perm_swap.
Qed.

Lemma stable_sort_perm (l : list A) : stable_sort before l ≡ₚ l.
Proof.
  induction l as [|x r IH]; [reflexivity|].
  unfold stable_sort in *. cbn [foldr]. rewrite insert_sorted_perm. by constructor.
Qed.

Lemma elem_of_stable_sort (x : A) (l : list A) : x ∈ stable_sort before l ↔ x ∈ l.
Proof. by rewrite stable_sort_perm. Qed.

Hypothesis before_asym : ∀ x y, before x y = true → before y x = false.
Hypothesis may_precede_trans :
  ∀ x y z, may_precede x y → may_precede y z → may_precede x z.

Lemma insert_sorted_in_order (x : A) (l : list A) :
  in_order may_precede l → in_order may_precede (insert_sorted before x l).
Proof.
  induction l as [|y r IH]; cbn [insert_sorted in_order]; [by split|].
  intros [Hy Hr]. destruct (before y x) eqn:E.
  - cbn [in_order]. split; [|by apply IH].
    rewrite insert_sorted_perm. constructor; [|exact Hy].
    unfold may_precede. by apply before_asym.
  - cbn [in_order]. split; [|by split].
    constructor; [exact E|].
    eapply Forall_impl; [exact Hy|]. intros z Hz.
    by apply (may_precede_trans x y z).
Qed.

Lemma stable_sort_in_order (l : list A) : in_order may_precede (stable_sort before l).
Proof.
  induction l as [|x r IH]; [exact I|].
  unfold stable_sort in *. cbn [foldr]. by apply insert_sorted_in_order.
Qed.

End Sorting.

Section PairFilters.
Import TokenScanner.

Lemma assoc_Some {V : Type} (k : string) (d : list (string * V)) (v : V) :
  assoc k d = Some v → (k, v) ∈ d.
Proof.
  induction d as [|[k' v'] r IH]; cbn [assoc]; [done|].
  destruct (String.eqb_spec k k') as [->|Hne].
  - intros [= ->]. left.
  - intros H. right. by apply IH.
Qed.

Lemma assoc_None {V : Type} (k : string) (d : list (string * V)) :
  assoc k d = None → k ∉ map fst d.
Proof.
  induction d as [|[k' v'] r IH]; cbn [assoc map fst]; [intros _; apply not_elem_of_nil|].
  destruct (String.eqb_spec k k') as [->|Hne]; [done|].
  intros H. apply not_elem_of_cons. split; [done|by apply IH].
Qed.

Lemma dict_set_keys {V : Type} (k : string) (v : V) (d : list (string * V)) :
  map fst (dict_set k v d)
  = if bool_decide (k ∈ map fst d) then map fst d else map fst d ++ [k].
Proof.
  induction d as [|[k' v'] r IH]; cbn [dict_set map fst].
  - rewrite bool_decide_eq_false_2 by apply not_elem_of_nil. reflexivity.
  - destruct (String.eqb_spec k k') as [->|Hne]; cbn [map fst].
    + rewrite bool_decide_eq_true_2 by left. reflexivity.
    + rewrite IH. destruct (bool_decide_reflect (k ∈ map fst r)) as [Hin|Hnin].
      * rewrite bool_decide_eq_true_2 by (by right). reflexivity.
      * rewrite bool_decide_eq_false_2; [reflexivity|].
        intros Hc. apply elem_of_cons in Hc as [?|?]; done.
Qed.

Lemma dict_set_NoDup {V : Type} (k : string) (v : V) (d : list (string * V)) :
  NoDup (map fst d) → NoDup (map fst (dict_set k v d)).
Proof.
  intros Hnd. rewrite dict_set_keys. case_bool_decide; [done|].
  apply NoDup_app. split; [done|]. split; [|apply NoDup_singleton].
  intros x Hx Hx'. apply list_elem_of_singleton in Hx' as ->. done.
Qed.

Lemma elem_of_keys {V : Type} (k : string) (v : V) (d : list (string * V)) :
  (k, v) ∈ d → k ∈ map fst d.
Proof.
  induction d as [|[k0 v0] r IH]; [intros H; by apply elem_of_nil in H|].
  intros H. apply elem_of_cons in H as [[= -> ->]|H]; cbn [map fst]; [left|right; auto].
Qed.

Lemma elem_of_values {V : Type} (v : V) (d : list (string * V)) :
  v ∈ map snd d ↔ ∃ k, (k, v) ∈ d.
Proof.
  induction d as [|[k0 v0] r IH]; cbn [map snd].
  - split; [intros H; by apply elem_of_nil in H|intros [k H]; by apply elem_of_nil in H].
  - rewrite elem_of_cons, IH. split.
    + intros [->|[k H]]; [exists k0; left|exists k; by right].
    + intros [k H]. apply elem_of_cons in H as [[= -> ->]|H]; [by left|right; by exists k].
Qed.

Lemma keys_unique {V : Type} (k : string) (v1 v2 : V) (d : list (string * V)) :
  NoDup (map fst d) → (k, v1) ∈ d → (k, v2) ∈ d → v1 = v2.
Proof.
  induction d as [|[k0 v0] r IH]; [intros _ H; by apply elem_of_nil in H|].
  cbn [map fst]. intros Hnd H1 H2. apply NoDup_cons in Hnd as [Hk Hnd].
  apply elem_of_cons in H1 as [E1|H1]; apply elem_of_cons in H2 as [E2|H2].
  - congruence.
  - exfalso. apply Hk. injection E1 as -> _. by eapply elem_of_keys.
  - exfalso. apply Hk. injection E2 as -> _. by eapply elem_of_keys.
  - by apply IH.
Qed.

Lemma dict_set_elem {V : Type} (k : string) (v : V) (d : list (string * V)) k' v' :
  NoDup (map fst d) →
  (k', v') ∈ dict_set k v d → (k' = k ∧ v' = v) ∨ (k' ≠ k ∧ (k', v') ∈ d).
Proof.
  induction d as [|[k0 v0] r IH]; cbn [dict_set map fst]; intros Hnd.
  - intros H. apply list_elem_of_singleton in H as [= -> ->]. by left.
  - apply NoDup_cons in Hnd as [Hk Hnd].
    destruct (String.eqb_spec k k0) as [->|Hne].
    + intros H. apply elem_of_cons in H as [[= -> ->]|H]; [by left|].
      right. split; [|by right].
      intros ->. apply Hk. by eapply elem_of_keys.
    + intros H. apply elem_of_cons in H as [[= -> ->]|H].
      * right. split; [done|left].
      * destruct (IH Hnd H) as [?|[? ?]]; [by left|]. right. split; [done|by right].
Qed.

Lemma dict_set_new {V : Type} (k : string) (v : V) (d : list (string * V)) :
  (k, v) ∈ dict_set k v d.
Proof.
  induction d as [|[k0 v0] r IH]; cbn [dict_set]; [left|].
  destruct (String.eqb_spec k k0) as [->|Hne]; [left|by right].
Qed.

Lemma dict_set_other {V : Type} (k : string) (v : V) (d : list (string * V)) k' v' :
  (k', v') ∈ d → k' ≠ k → (k', v') ∈ dict_set k v d.
Proof.
  induction d as [|[k0 v0] r IH]; cbn [dict_set]; [intros H; by apply elem_of_nil in H|].
  intros H Hk. destruct (String.eqb_spec k k0) as [->|Hne].
  - apply elem_of_cons in H as [[= -> ->]|H]; [done|by right].
  - apply elem_of_cons in H as [[= -> ->]|H]; [left|right; by apply IH].
Qed.

(** One turn of the loop of [filter_duplicate_tokens]. *)
Definition keep_most_liquid (unique_tokens : list (string * Pair)) (token : Pair)
    : list (string * Pair) :=
  match assoc (symbol_of token) unique_tokens with
  | Some kept =>
      if Qgt_bool (liquidity_of token) (liquidity_of kept)
      then dict_set (symbol_of token) token unique_tokens
      else unique_tokens
  | None => dict_set (symbol_of token) token unique_tokens
  end.

Lemma filter_duplicate_tokens_fold tokens :
  filter_duplicate_tokens tokens = map snd (fold_left keep_most_liquid tokens []).
Proof. reflexivity. Qed.

(** What the dictionary of the loop holds after the pairs [seen]. *)
Definition most_liquid_of (seen : list Pair) (d : list (string * Pair)) : Prop :=
  NoDup (map fst d)
  ∧ (∀ k v, (k, v) ∈ d → symbol_of v = k ∧ v ∈ seen)
  ∧ (∀ t, t ∈ seen →
       ∃ v, (symbol_of t, v) ∈ d ∧ (liquidity_of t <= liquidity_of v)%Q).

Lemma keep_most_liquid_step seen d t :
  most_liquid_of seen d → most_liquid_of (seen ++ [t]) (keep_most_liquid d t).
Proof.
  intros (Hnd & Hin & Hmax).
  assert (Hreplace :
    (∀ kept, (symbol_of t, kept) ∈ d → (liquidity_of kept < liquidity_of t)%Q) →
    most_liquid_of (seen ++ [t]) (dict_set (symbol_of t) t d)).
  { intros Hless. split; [by apply dict_set_NoDup|]. split.
    - intros k v H. apply dict_set_elem in H; [|exact Hnd].
      destruct H as [[-> ->]|[Hk H]].
      + split; [done|]. apply elem_of_app. right. left.
      + destruct (Hin k v H) as [? ?]. split; [done|]. apply elem_of_app. by left.
    - intros t' Ht'. apply elem_of_app in Ht' as [Ht'|Ht'].
      + destruct (Hmax t' Ht') as (v & Hv & Hle).
        destruct (decide (symbol_of t' = symbol_of t)) as [E|E].
        * exists t. rewrite E. split; [apply dict_set_new|].
          rewrite E in Hv. specialize (Hless v Hv). lra.
        * exists v. split; [by apply dict_set_other|done].
      + apply list_elem_of_singleton in Ht' as ->.
        exists t. split; [apply dict_set_new|lra]. }
  unfold keep_most_liquid.
  destruct (assoc (symbol_of t) d) as [kept|] eqn:E.
  - apply assoc_Some in E.
    destruct (Qgt_bool (liquidity_of t) (liquidity_of kept)) eqn:G.
    + apply Qgt_bool_true in G. apply Hreplace. intros kept' Hk'.
      by rewrite (keys_unique _ _ _ _ Hnd Hk' E).
    + apply Qgt_bool_false in G. split; [done|]. split.
      * intros k v H. destruct (Hin k v H) as [? ?]. split; [done|].
        apply elem_of_app. by left.
      * intros t' Ht'. apply elem_of_app in Ht' as [Ht'|Ht']; [by apply Hmax|].
        apply list_elem_of_singleton in Ht' as ->. by exists kept.
  - apply assoc_None in E. apply Hreplace. intros kept Hk. exfalso.
    apply E. by eapply elem_of_keys.
Qed.

Lemma keep_most_liquid_fold l seen d :
  most_liquid_of seen d → most_liquid_of (seen ++ l) (fold_left keep_most_liquid l d).
Proof.
  revert seen d. induction l as [|t l IH]; intros seen d H; cbn [fold_left].
  - by rewrite app_nil_r.
  - replace (seen ++ t :: l) with ((seen ++ [t]) ++ l) by (by rewrite <- app_assoc).
    apply IH. by apply keep_most_liquid_step.
Qed.

Lemma values_symbols (d : list (string * Pair)) :
  (∀ k v, (k, v) ∈ d → symbol_of v = k) → map symbol_of (map snd d) = map fst d.
Proof.
  induction d as [|[k v] r IH]; [done|]. intros H. cbn [map fst snd].
  rewrite (H k v) by left. f_equal. apply IH. intros k' v' Hin. apply H. by right.
Qed.

(** X27: [filter_duplicate_tokens] returns one pair per symbol: the
    symbols of the result are distinct, every pair of the result comes
    from the input, and every input pair is represented by a pair of its
    symbol with at least its liquidity. *)
Theorem filter_duplicate_tokens_keeps_most_liquid (tokens : list Pair) :
  NoDup (map symbol_of (filter_duplicate_tokens tokens))
  ∧ (∀ t, t ∈ filter_duplicate_tokens tokens → t ∈ tokens)
  ∧ (∀ t, t ∈ tokens →
       ∃ kept, kept ∈ filter_duplicate_tokens tokens
               ∧ symbol_of kept = symbol_of t
               ∧ (liquidity_of t <= liquidity_of kept)%Q).
Proof.
  rewrite filter_duplicate_tokens_fold.
  destruct (keep_most_liquid_fold tokens [] []) as (Hnd & Hin & Hmax).
  { split; [constructor|]. split; intros ? ?; [intros H|]; by apply elem_of_nil in H. }
  cbn [app] in Hin, Hmax.
  split; [|split].
  - rewrite values_symbols; [done|]. intros k v H. by apply Hin.
  - intros t Ht. apply elem_of_values in Ht as [k Hk]. by apply (Hin k t).
  - intros t Ht. destruct (Hmax t Ht) as (v & Hv & Hle).
    exists v. split; [apply elem_of_values; by eexists|].
    split; [by apply (Hin _ v)|done].
Qed.

Lemma hour_rockets_filter tokens :
  hour_rockets tokens = List.filter (λ t, Qle_bool 5 (hour_change_of t)) tokens.
Proof.
  induction tokens as [|t r IH]; [done|]. cbn [hour_rockets List.filter].
  unfold Qge_bool. by rewrite IH.
Qed.

(** X28: [filter_tokens_by_hour_growth] returns the pairs whose hourly
    change is at least 5, each as often as it is in the input, in the
    order of falling hourly change. *)
Theorem filter_tokens_by_hour_growth_sorted (tokens : list Pair) :
  filter_tokens_by_hour_growth tokens
    ≡ₚ List.filter (λ t, Qle_bool 5 (hour_change_of t)) tokens
  ∧ Forall (λ t, (5 <= hour_change_of t)%Q) (filter_tokens_by_hour_growth tokens)
  ∧ in_order (λ x y, (hour_change_of y <= hour_change_of x)%Q)
      (filter_tokens_by_hour_growth tokens).
Proof.
  unfold filter_tokens_by_hour_growth.
  assert (Hperm := stable_sort_perm
            (λ y x, Qgt_bool (hour_change_of y) (hour_change_of x)) (hour_rockets tokens)).
  split; [by rewrite Hperm, hour_rockets_filter|]. split.
  - rewrite Hperm, hour_rockets_filter. apply Forall_forall. intros t Ht.
    apply list_elem_of_In, filter_In in Ht as [_ Ht]. by apply Qle_bool_iff in Ht.
  - eapply in_order_impl; [|apply stable_sort_in_order].
    + intros x y H. by apply Qgt_bool_false in H.
    + intros x y H. apply Qgt_bool_true in H. apply Qgt_bool_false. lra.
    + unfold may_precede. intros x y z H1 H2.
      apply Qgt_bool_false in H1, H2. apply Qgt_bool_false. lra.
Qed.

End PairFilters.

Section TokenFilters.
Import TokenAnalyzer.

Lemma below_false (v : Q) (bound : option Q) :
  below v bound = false ↔ ∀ b, bound = Some b → (b <= v)%Q.
Proof.
  destruct bound as [b|]; cbn [below].
  - rewrite Qlt_bool_false. split; [by intros H ? [= <-]|auto].
  - split; [by intros _ ? [=]|done].
Qed.

Lemma above_false (v : Q) (bound : option Q) :
  above v bound = false ↔ ∀ b, bound = Some b → (v <= b)%Q.
Proof.
  destruct bound as [b|]; cbn [above].
  - rewrite Qgt_bool_false. split; [by intros H ? [= <-]|auto].
  - split; [by intros _ ? [=]|done].
Qed.

Lemma str_in_elem (x : string) (xs : list string) : str_in x xs = true ↔ x ∈ xs.
Proof.
  unfold str_in. induction xs as [|y r IH]; cbn [existsb].
  - split; [done|intros H; by apply elem_of_nil in H].
  - rewrite orb_true_iff, IH, elem_of_cons.
    by destruct (String.eqb_spec x y); split; intros [?|?]; auto.
Qed.

(** A token that passes every test of [filter_tokens]. *)
Definition meets (config_exclude_scam : option bool) (filters : Filters) (t : Token)
    : Prop :=
  (default (default true config_exclude_scam) (exclude_scam filters) = true →
     risk_level t ≠ Scam)
  ∧ (∀ b, min_age filters = Some b → (b <= age_hours t)%Q)
  ∧ (∀ b, max_age filters = Some b → (age_hours t <= b)%Q)
  ∧ (∀ b, min_price_change filters = Some b → (b <= price_change_24h t)%Q)
  ∧ (∀ b, max_price_change filters = Some b → (price_change_24h t <= b)%Q)
  ∧ (∀ b, min_liquidity filters = Some b → (b <= liquidity_usd t)%Q)
  ∧ (∀ b, max_liquidity filters = Some b → (liquidity_usd t <= b)%Q)
  ∧ (∀ nets, networks filters = Some nets → lower (network t) ∈ map lower nets).

Lemma filter_loop_cons ces filters t rest :
  (meets ces filters t
   ∧ filter_loop ces filters (t :: rest) = t :: filter_loop ces filters rest)
  ∨ (¬ meets ces filters t
     ∧ filter_loop ces filters (t :: rest) = filter_loop ces filters rest).
Proof.
  cbn [filter_loop]. cbv zeta.
  destruct (default (default true ces) (exclude_scam filters)
            && bool_decide (risk_level t = Scam)) eqn:E0.
  { right. split; [|done]. intros (M0 & _).
    apply andb_true_iff in E0 as [Ex Es]. apply bool_decide_eq_true in Es. by apply M0. }
  destruct (below (age_hours t) (min_age filters)) eqn:E1.
  { right. split; [|done]. intros (_ & M & _).
    pose proof (proj2 (below_false _ _) M). congruence. }
  destruct (above (age_hours t) (max_age filters)) eqn:E2.
  { right. split; [|done]. intros (_ & _ & M & _).
    pose proof (proj2 (above_false _ _) M). congruence. }
  destruct (below (price_change_24h t) (min_price_change filters)) eqn:E3.
  { right. split; [|done]. intros (_ & _ & _ & M & _).
    pose proof (proj2 (below_false _ _) M). congruence. }
  destruct (above (price_change_24h t) (max_price_change filters)) eqn:E4.
  { right. split; [|done]. intros (_ & _ & _ & _ & M & _).
    pose proof (proj2 (above_false _ _) M). congruence. }
  destruct (below (liquidity_usd t) (min_liquidity filters)) eqn:E5.
  { right. split; [|done]. intros (_ & _ & _ & _ & _ & M & _).
    pose proof (proj2 (below_false _ _) M). congruence. }
  destruct (above (liquidity_usd t) (max_liquidity filters)) eqn:E6.
  { right. split; [|done]. intros (_ & _ & _ & _ & _ & _ & M & _).
    pose proof (proj2 (above_false _ _) M). congruence. }
  assert (Hnet : (∀ nets, networks filters = Some nets →
                    lower (network t) ∈ map lower nets)
                 ∨ ∃ nets, networks filters = Some nets
                           ∧ str_in (lower (network t)) (map lower nets) = false).
  { destruct (networks filters) as [nets|]; [|left; by intros ? [=]].
    destruct (str_in (lower (network t)) (map lower nets)) eqn:E7.
    - left. intros ? [= <-]. by apply str_in_elem.
    - right. by exists nets. }
  destruct Hnet as [Hnet|(nets & En & E7)].
  - left. split.
    + split.
      { intros Ex. rewrite Ex in E0. cbn [andb] in E0. by apply bool_decide_eq_false in E0. }
      split; [by apply below_false|]. split; [by apply above_false|].
      split; [by apply below_false|]. split; [by apply above_false|].
      split; [by apply below_false|]. split; [by apply above_false|]. exact Hnet.
    + destruct (networks filters) as [nets|]; [|done].
      pose proof (proj2 (str_in_elem _ _) (Hnet nets eq_refl)) as ->. done.
  - right. rewrite En, E7. split; [|done].
    intros (_ & _ & _ & _ & _ & _ & _ & M).
    pose proof (proj2 (str_in_elem _ _) (M nets En)). congruence.
Qed.

Lemma filter_loop_spec ces filters tokens :
  sublist (filter_loop ces filters tokens) tokens
  ∧ ∀ t, t ∈ filter_loop ces filters tokens ↔ t ∈ tokens ∧ meets ces filters t.
Proof.
  induction tokens as [|t0 rest [IHs IHm]].
  - split; [constructor|]. intros t. split; [intros H|intros [H _]]; by apply elem_of_nil in H.
  - destruct (filter_loop_cons ces filters t0 rest) as [[Hm ->]|[Hm ->]].
    + split; [by constructor|]. intros t. rewrite !elem_of_cons, IHm.
      split; [intros [->|[? ?]]; auto|intros [[->|?] ?]; auto].
    + split; [by constructor|]. intros t. rewrite elem_of_cons, IHm.
      split; [intros [? ?]; auto|intros [[->|?] ?]; [done|auto]].
Qed.

(** X29: [filter_tokens] keeps the tokens that meet every bound of
    [filters], in their order, and drops the others; a token at the
    level "Скам" is dropped unless the exclusion is switched off, and
    without filters and without a setting in the configuration exactly
    the tokens at "Скам" are dropped.  The network is compared without
    regard to case. *)
Theorem filter_tokens_keeps_matching (config_exclude_scam : option bool)
    (filters : Filters) (tokens : list Token) :
  sublist (filter_tokens config_exclude_scam (Some filters) tokens) tokens
  ∧ (∀ t, t ∈ filter_tokens config_exclude_scam (Some filters) tokens
          ↔ t ∈ tokens ∧ meets config_exclude_scam filters t)
  ∧ (∀ t, t ∈ filter_tokens None None tokens ↔ t ∈ tokens ∧ risk_level t ≠ Scam).
Proof.
  unfold filter_tokens. cbn [default].
  destruct (filter_loop_spec config_exclude_scam filters tokens) as [Hs Hm].
  split; [exact Hs|]. split; [exact Hm|].
  intros t. destruct (filter_loop_spec None no_filters tokens) as [_ Hm'].
  rewrite Hm'. unfold meets. cbn.
  split; [intros [? (H & _)]; auto|intros [? ?]; repeat split; done].
Qed.

(** What [get_top_tokens_by_growth] asks of a token. *)
Definition recommended (t : Token) : Prop :=
  risk_level t ≠ Scam ∧ risk_level t ≠ High
  ∧ (24 <= age_hours t)%Q
  ∧ (price_change_24h t <= 100)%Q
  ∧ (5000 <= volume_24h t)%Q
  ∧ (100000 <= liquidity_usd t)%Q
  ∧ (websites (info t) ≠ [] ∨ socials (info t) ≠ [])
  ∧ ((25 < liquidity_lock_percentage t)%Q
     ∨ (500000 < liquidity_usd t)%Q ∧ (720 < age_hours t)%Q
       ∧ ∃ r, verification_result t = Some r ∧ ContractVerifier.is_verified r = true).

(** What the stricter loop for a limit of at most 10 asks on top. *)
Definition elite (t : Token) : Prop :=
  (risk_level t = Low ∨ risk_level t = Moderate) ∧ (72 <= age_hours t)%Q.

Lemma is_safe_token_recommended t : is_safe_token t = true → recommended t.
Proof.
  unfold is_safe_token, recommended.
  case_bool_decide as Hl; [done|].
  destruct (Qlt_bool (age_hours t) 24) eqn:Ea; [done|]. apply Qlt_bool_false in Ea.
  destruct (Qgt_bool (price_change_24h t) 100) eqn:Ep; [done|]. apply Qgt_bool_false in Ep.
  destruct (Qlt_bool (volume_24h t) 5000) eqn:Ev; [done|]. apply Qlt_bool_false in Ev.
  destruct (bool_decide (websites (info t) = []) && bool_decide (socials (info t) = []))
    eqn:Ew; [done|].
  assert (Hw : websites (info t) ≠ [] ∨ socials (info t) ≠ []).
  { apply andb_false_iff in Ew as [Ew|Ew]; apply bool_decide_eq_false in Ew; tauto. }
  cbv zeta.
  destruct (Qgt_bool (liquidity_lock_percentage t) 25) eqn:Ek.
  - apply Qgt_bool_true in Ek. cbn [orb negb andb].
    destruct (Qlt_bool (liquidity_usd t) 100000) eqn:El; [done|].
    apply Qlt_bool_false in El. intros _.
    split; [tauto|]. split; [tauto|]. split; [done|]. split; [done|].
    split; [done|]. split; [done|]. split; [done|]. by left.
  - cbn [orb negb].
    destruct (Qgt_bool (liquidity_usd t) 500000) eqn:Em; cbn [andb negb]; [|done].
    apply Qgt_bool_true in Em.
    destruct (verification_result t) as [r|] eqn:Er; cbn [andb negb]; [|done].
    destruct (ContractVerifier.is_verified r) eqn:Ei; cbn [andb negb]; [|done].
    destruct (Qgt_bool (age_hours t) 720) eqn:Eg; cbn [andb negb]; [|done].
    apply Qgt_bool_true in Eg.
    destruct (Qlt_bool (liquidity_usd t) 100000) eqn:El; [done|].
    apply Qlt_bool_false in El. intros _.
    split; [tauto|]. split; [tauto|]. split; [done|]. split; [done|].
    split; [done|]. split; [done|]. split; [done|].
    right. split; [done|]. split; [done|]. by exists r.
Qed.

Lemma safe_tokens_loop_spec tokens :
  Forall (λ t, t ∈ tokens ∧ recommended t) (safe_tokens_loop tokens).
Proof.
  induction tokens as [|t0 rest IH]; [constructor|]. cbn [safe_tokens_loop].
  assert (IH' : Forall (λ t, t ∈ t0 :: rest ∧ recommended t) (safe_tokens_loop rest)).
  { eapply Forall_impl; [exact IH|]. intros t [? ?]. split; [by right|done]. }
  destruct (is_safe_token t0) eqn:E; [|exact IH'].
  constructor; [|exact IH']. split; [left|by apply is_safe_token_recommended].
Qed.

Lemma top_loop_spec limit safe top_tokens :
  Forall (λ t, t ∈ top_tokens ∨ t ∈ safe ∧ elite t) (top_loop limit safe top_tokens)
  ∧ (0 < limit → Z.of_nat (length top_tokens) < limit →
       Z.of_nat (length (top_loop limit safe top_tokens)) ≤ limit).
Proof.
  revert top_tokens. induction safe as [|t0 rest IH]; intros top_tokens; cbn [top_loop].
  - split; [|lia]. apply Forall_forall. intros t Ht. by left.
  - assert (Hskip :
      Forall (λ t, t ∈ top_tokens ∨ t ∈ t0 :: rest ∧ elite t)
        (top_loop limit rest top_tokens)
      ∧ (0 < limit → Z.of_nat (length top_tokens) < limit →
           Z.of_nat (length (top_loop limit rest top_tokens)) ≤ limit)).
    { destruct (IH top_tokens) as [I1 I2]. split; [|exact I2].
      eapply Forall_impl; [exact I1|]. intros t [?|[? ?]]; [by left|].
      right. split; [by right|done]. }
    destruct (Qlt_bool (liquidity_usd t0) 75000); [exact Hskip|].
    destruct (Qlt_bool (age_hours t0) 72) eqn:Ea; [exact Hskip|].
    apply Qlt_bool_false in Ea.
    case_bool_decide as Hl; cbn [negb]; [|exact Hskip].
    cbv zeta.
    assert (Hnew : ∀ t, t ∈ top_tokens ++ [t0] →
              t ∈ top_tokens ∨ t ∈ t0 :: rest ∧ elite t).
    { intros t Ht. apply elem_of_app in Ht as [?|Ht]; [by left|].
      apply list_elem_of_singleton in Ht as ->. right. split; [left|by split]. }
    destruct (Z.geb_spec (Z.of_nat (length (top_tokens ++ [t0]))) limit) as [Hge|Hlt].
    + split; [by apply Forall_forall|].
      rewrite length_app. cbn [length]. lia.
    + destruct (IH (top_tokens ++ [t0])) as [I1 I2]. split.
      * eapply Forall_impl; [exact I1|]. intros t [Ht|[? ?]]; [by apply Hnew|].
        right. split; [by right|done].
      * intros Hpos _. by apply I2.
Qed.

(** X30: [get_top_tokens_by_growth] recommends only tokens of the
    list that are not at "Скам" or "Высокий", are at least 24 hours
    old, grew at most 100 percent, traded at least 5000 USD, hold at
    least 100000 USD of liquidity, have a website or a social link, and
    have more than 25 percent of the liquidity locked or are large,
    verified and older than 720 hours.  A positive limit bounds the
    number of tokens, a limit of at most 10 also asks for the level
    "Низкий" or "Умеренный" and an age of 72 hours, and the arguments
    [min_liquidity] and [min_age] change nothing. *)
Theorem top_tokens_are_recommended (limit : option Z) (min_liquidity min_age : Q)
    (tokens : list Token) :
  Forall (λ t, t ∈ tokens ∧ recommended t)
    (get_top_tokens_by_growth limit min_liquidity min_age tokens)
  ∧ (∀ n, limit = Some n → 0 < n →
       Z.of_nat (length (get_top_tokens_by_growth limit min_liquidity min_age tokens)) ≤ n)
  ∧ (∀ n, limit = Some n → n ≠ 0 → n ≤ 10 →
       Forall elite (get_top_tokens_by_growth limit min_liquidity min_age tokens))
  ∧ (∀ min_liquidity' min_age',
       get_top_tokens_by_growth limit min_liquidity' min_age' tokens
       = get_top_tokens_by_growth limit min_liquidity min_age tokens).
Proof.
  unfold get_top_tokens_by_growth. cbv zeta.
  set (sorted := stable_sort (λ y x, key_lt (growth_key y) (growth_key x))
                   (safe_tokens_loop tokens)).
  assert (Hsorted : Forall (λ t, t ∈ tokens ∧ recommended t) sorted).
  { apply Forall_forall. intros t Ht. apply elem_of_stable_sort in Ht.
    revert t Ht. apply Forall_forall, safe_tokens_loop_spec. }
  assert (Htop : ∀ n, Forall (λ t, (t ∈ tokens ∧ recommended t) ∧ elite t)
                        (top_loop n sorted [])).
  { intros n. destruct (top_loop_spec n sorted []) as [H _].
    eapply Forall_impl; [exact H|]. intros t [Ht|[Ht He]]; [by apply elem_of_nil in Ht|].
    split; [|done]. clear He. revert t Ht. by apply Forall_forall. }
  split; [|split; [|split]].
  - destruct limit as [n|]; [|exact Hsorted].
    destruct (Z.eqb_spec n 0); cbn [negb andb]; [exact Hsorted|].
    destruct (n <=? 10).
    + eapply Forall_impl; [apply Htop|]. by intros t [? _].
    + by apply Forall_take.
  - intros n -> Hn.
    destruct (Z.eqb_spec n 0); [lia|]. cbn [negb andb].
    destruct (n <=? 10).
    + destruct (top_loop_spec n sorted []) as [_ H]. apply H; [done|]. cbn. lia.
    + rewrite length_take. lia.
  - intros n -> Hn Hle.
    destruct (Z.eqb_spec n 0); [done|]. cbn [negb andb].
    destruct (Z.leb_spec n 10); [|lia].
    eapply Forall_impl; [apply Htop|]. by intros t [_ ?].
  - reflexivity.
Qed.

End TokenFilters.

